(** * tinytracer: a shallow embedding of [src/main.cpp] and its properties

    The renderer computes on C++ [float], i.e. IEEE-754 binary32 with
    round-to-nearest-even.  Scalars are modelled exactly, as the
    [spec_float] numbers of the Standard Library instantiated at precision 24
    and maximal exponent 128; the one expression of [pixelToWorld] that
    C++ evaluates in [double] is computed at precision 53 and converted back.
    Every operation of the source is one correctly rounded operation of the
    model (no contraction into fused multiply-add, no excess precision).

    The global pseudo-random generator of [randomFloat] is modelled by the
    stream of numbers it delivers, [gen : nat -> float], and a cursor that
    each call advances by one.  Loops and recursion that the source leaves
    unbounded take a fuel argument. *)

From Stdlib Require Import ZArith List Bool Lia.
From Stdlib Require Reals Lra.
From Stdlib Require Import Floats.SpecFloat.
Import ListNotations.

Local Open Scope Z_scope.

(** ** IEEE-754 binary32 and binary64 scalars *)

Definition float := spec_float.

Module B32.
Definition prec : Z := 24.
Definition emax : Z := 128.

Definition valid (x : float) : bool := valid_binary prec emax x.

Definition add : float -> float -> float := SFadd prec emax.
Definition sub : float -> float -> float := SFsub prec emax.
Definition mul : float -> float -> float := SFmul prec emax.
Definition div : float -> float -> float := SFdiv prec emax.
Definition sqrt : float -> float := SFsqrt prec emax.
Definition abs : float -> float := SFabs.
Definition opp : float -> float := SFopp.

(** C++ [a < b], [a <= b], [a == b]; [a > b] is [ltb b a] and [a >= b] is
    [leb b a].  Every comparison with a NaN is false. *)
Definition ltb : float -> float -> bool := SFltb.
Definition leb : float -> float -> bool := SFleb.
Definition eqb : float -> float -> bool := SFeqb.

(** Conversion of a float to [bool], as in [if (mat.metallic)]: the value
    compares unequal to zero. *)
Definition truthy (x : float) : bool := negb (eqb x (S754_zero false)).

(** Conversion of an integer to [float]. *)
Definition of_Z (n : Z) : float := binary_normalize prec emax n 0 false.

Definition is_nan (x : float) : bool :=
  match x with S754_nan => true | _ => false end.

Definition zero : float := S754_zero false.
Definition one : float := Eval vm_compute in of_Z 1.
Definition two : float := Eval vm_compute in of_Z 2.
Definition infinity : float := S754_infinity false.

(** [std::numeric_limits<float>::max()], [::min()] and [::epsilon()]. *)
Definition FLT_MAX : float := S754_finite false 16777215 104.
Definition FLT_MIN : float := S754_finite false 8388608 (-149).
Definition FLT_EPSILON : float := S754_finite false 8388608 (-46).
End B32.

Module B64.
Definition prec : Z := 53.
Definition emax : Z := 1024.

Definition sub : float -> float -> float := SFsub prec emax.
Definition mul : float -> float -> float := SFmul prec emax.
Definition div : float -> float -> float := SFdiv prec emax.
Definition of_Z (n : Z) : float := binary_normalize prec emax n 0 false.

(** [static_cast<double>(f)] of a binary32 number: exact, the mantissa is
    realigned to 53 bits. *)
Definition of_float (x : float) : float :=
  match x with
  | S754_finite s m e => binary_round prec emax s m e
  | _ => x
  end.

(** [static_cast<float>(d)]: rounding to the nearest binary32 number. *)
Definition to_float (x : float) : float :=
  match x with
  | S754_finite s m e => binary_round B32.prec B32.emax s m e
  | _ => x
  end.

(** A decimal literal of type [double], [num / 10^digits]. *)
Definition literal (num : Z) (digits : Z) : float :=
  div (of_Z num) (of_Z (10 ^ digits)).
End B64.

(** A [float] literal such as [0.5f], and a [double] literal converted to
    [float] where the source passes it for a [float]. *)
Definition flit (num digits : Z) : float :=
  B32.div (B32.of_Z num) (B32.of_Z (10 ^ digits)).
Definition dlit (num digits : Z) : float :=
  B64.to_float (B64.literal num digits).

(** ** glm::vec3 and the glm functions the source calls

    glm's vectors and functions are templates over the scalar type.  They
    are written once over the operations of a scalar, following glm's
    scalar reference implementation, and used at [float] by the renderer;
    the instance at the real numbers states what the same formulas compute
    in exact arithmetic. *)

Class Scalar (T : Type) : Type := {
  s_add : T -> T -> T;
  s_sub : T -> T -> T;
  s_mul : T -> T -> T;
  s_div : T -> T -> T;
  s_sqrt : T -> T;
  s_of_Z : Z -> T
}.

#[export] Instance float_scalar : Scalar float := {|
  s_add := B32.add; s_sub := B32.sub; s_mul := B32.mul; s_div := B32.div;
  s_sqrt := B32.sqrt; s_of_Z := B32.of_Z
|}.

#[export] Instance real_scalar : Scalar Rdefinitions.R := {|
  s_add := Rdefinitions.Rplus; s_sub := Rdefinitions.Rminus;
  s_mul := Rdefinitions.Rmult; s_div := Rdefinitions.Rdiv;
  s_sqrt := R_sqrt.sqrt; s_of_Z := Rdefinitions.IZR
|}.

Record vec (T : Type) : Type := Vec3 { vx : T; vy : T; vz : T }.
Arguments Vec3 {T} vx vy vz.
Arguments vx {T} v.
Arguments vy {T} v.
Arguments vz {T} v.

Definition vec3 : Type := vec float.
Record vec2 := Vec2 { ux : float; uy : float }.

Module glm.
Section Generic.
Context {T : Type} `{Scalar T}.

Definition splat (s : T) : vec T := Vec3 s s s.

Definition map (f : T -> T) (a : vec T) : vec T :=
  Vec3 (f (vx a)) (f (vy a)) (f (vz a)).
Definition map2 (f : T -> T -> T) (a b : vec T) : vec T :=
  Vec3 (f (vx a) (vx b)) (f (vy a) (vy b)) (f (vz a) (vz b)).

Definition add : vec T -> vec T -> vec T := map2 s_add.
Definition sub : vec T -> vec T -> vec T := map2 s_sub.
Definition mul : vec T -> vec T -> vec T := map2 s_mul.
(** [s * v], [v * s] and [v / s] for a scalar [s]. *)
Definition scale (s : T) (v : vec T) : vec T := map (s_mul s) v.
Definition scale_r (v : vec T) (s : T) : vec T :=
  map (fun c => s_mul c s) v.
Definition div_s (v : vec T) (s : T) : vec T :=
  map (fun c => s_div c s) v.

Definition dot (a b : vec T) : T :=
  let tmp := mul a b in
  s_add (s_add (vx tmp) (vy tmp)) (vz tmp).

(** [reflect(I, N) = I - N * dot(N, I) * 2]. *)
Definition reflect (I N : vec T) : vec T :=
  sub I (scale_r (scale_r N (dot N I)) (s_of_Z 2)).

Definition sqrt : vec T -> vec T := map s_sqrt.

Definition inversesqrt (x : T) : T := s_div (s_of_Z 1) (s_sqrt x).
Definition normalize (v : vec T) : vec T :=
  scale_r v (inversesqrt (dot v v)).
End Generic.

Definition min (x y : float) : float := if B32.ltb y x then y else x.
Definition max (x y : float) : float := if B32.ltb x y then y else x.
Definition clamp (v : vec3) (lo hi : float) : vec3 :=
  map (fun c => min (max c lo) hi) v.
End glm.

(** ** The scene *)

Record Material := { albedo : vec3; roughness : float; metallic : float }.
Record Sphere := { center : vec3; radius : float; material : Material }.
Record Camera := { position : vec3 }.
Record Ray := { origin : vec3; direction : vec3 }.

(** [HitRecord::sphere] points into [World::spheres], which is not modified
    while rendering: the pointer is the index of the element together with
    the element, and [nullptr] is [None]. *)
Record HitRecord := { sphere : option (nat * Sphere); t : float }.

Record World := { camera : Camera; spheres : list Sphere }.

Definition minus_one : float := Eval vm_compute in B32.opp B32.one.

(** ** Ray-sphere intersection *)

(** [Ray::at]. *)
Definition at_ (r : Ray) (t : float) : vec3 :=
  glm.add (origin r) (glm.scale t (direction r)).

(** [Ray::intersects]. *)
Definition intersects (r : Ray) (s : Sphere) (minT maxT : float) : float :=
  let oc := glm.sub (center s) (origin r) in
  let a := glm.dot (direction r) (direction r) in
  let h := glm.dot (direction r) oc in
  let c := B32.sub (glm.dot oc oc) (B32.mul (radius s) (radius s)) in
  let d := B32.sub (B32.mul h h) (B32.mul a c) in
  if B32.ltb d B32.zero then minus_one
  else
    let d := B32.sqrt d in
    let t := B32.div (B32.sub h d) a in
    if B32.leb t minT || B32.leb maxT t then
      let t := B32.div (B32.add h d) a in
      if B32.leb t minT || B32.leb maxT t then minus_one else t
    else t.

(** The quantities [intersects] computes on the way, named for the
    statements below: the coefficients [a] and [h], the discriminant
    [d = h*h - a*c] and the two roots [(h -+ sqrt d) / a]. *)
Definition coeff_a (r : Ray) : float := glm.dot (direction r) (direction r).
Definition coeff_h (r : Ray) (s : Sphere) : float :=
  glm.dot (direction r) (glm.sub (center s) (origin r)).
Definition coeff_c (r : Ray) (s : Sphere) : float :=
  let oc := glm.sub (center s) (origin r) in
  B32.sub (glm.dot oc oc) (B32.mul (radius s) (radius s)).
Definition discriminant (r : Ray) (s : Sphere) : float :=
  B32.sub (B32.mul (coeff_h r s) (coeff_h r s))
          (B32.mul (coeff_a r) (coeff_c r s)).
Definition near_root (r : Ray) (s : Sphere) : float :=
  B32.div (B32.sub (coeff_h r s) (B32.sqrt (discriminant r s))) (coeff_a r).
Definition far_root (r : Ray) (s : Sphere) : float :=
  B32.div (B32.add (coeff_h r s) (B32.sqrt (discriminant r s))) (coeff_a r).

(** ** Computations that draw random numbers

    A computation starts at a cursor into the generator's stream and either
    finishes with a value and the new cursor, runs out of fuel, or reaches
    behaviour the C++ standard leaves undefined. *)

Inductive outcome (A : Type) : Type :=
| Done (a : A) (cursor : nat)
| OutOfFuel
| Undefined.
Arguments Done {A} a cursor.
Arguments OutOfFuel {A}.
Arguments Undefined {A}.

Definition M (A : Type) : Type := nat -> outcome A.

Definition ret {A} (a : A) : M A := fun i => Done a i.
Definition bind {A B} (m : M A) (k : A -> M B) : M B :=
  fun i => match m i with
           | Done a j => k a j
           | OutOfFuel => OutOfFuel
           | Undefined => Undefined
           end.
Definition out_of_fuel {A} : M A := fun _ => OutOfFuel.
Definition undefined {A} : M A := fun _ => Undefined.

Notation "x <- m ;; k" := (bind m (fun x => k))
  (at level 61, m at next level, right associativity).

Section Sampling.
(** The numbers [distribution(generator)] returns, in order. *)
Variable gen : nat -> float.

(** [randomFloat()]. *)
Definition randomFloat : M float := fun i => Done (gen i) (S i).

(** [randomFloat(min, max)]. *)
Definition randomFloat_in (min max : float) : M float :=
  r <- randomFloat ;;
  ret (B32.add min (B32.mul (B32.sub max min) r)).

(** [randomVec2(min, max)] and [randomVec3(min, max)]; the elements of a
    braced initialiser are evaluated left to right. *)
Definition randomVec2_in (min max : float) : M vec2 :=
  x <- randomFloat_in min max ;;
  y <- randomFloat_in min max ;;
  ret (Vec2 x y).

Definition randomVec3_in (min max : float) : M vec3 :=
  x <- randomFloat_in min max ;;
  y <- randomFloat_in min max ;;
  z <- randomFloat_in min max ;;
  ret (Vec3 x y z).

(** The test that ends the loop of [randomUnitVec3OnSphere]. *)
Definition accepted (dir : vec3) : bool :=
  let l := glm.dot dir dir in
  B32.ltb B32.FLT_MIN l && B32.leb l B32.one.

(** [randomUnitVec3OnSphere]: [while (true)] runs at most [fuel] times. *)
Fixpoint randomUnitVec3OnSphere (fuel : nat) : M vec3 :=
  match fuel with
  | O => out_of_fuel
  | S fuel' =>
      dir <- randomVec3_in minus_one B32.one ;;
      let l := glm.dot dir dir in
      if B32.ltb B32.FLT_MIN l && B32.leb l B32.one
      then ret (glm.div_s dir (B32.sqrt l))
      else randomUnitVec3OnSphere fuel'
  end.

(** [nearZero]. *)
Definition nearZero (v : vec3) : bool :=
  let e := B32.FLT_EPSILON in
  B32.ltb (B32.abs (vx v)) e && B32.ltb (B32.abs (vy v)) e
  && B32.ltb (B32.abs (vz v)) e.

(** [Ray::scatter]. *)
Definition scatter (fuel : nat) (r : Ray) (p n : vec3) (mat : Material)
  : M Ray :=
  if B32.truthy (metallic mat)
  then ret {| origin := p; direction := glm.reflect (glm.sub p (origin r)) n |}
  else
    dir <- randomUnitVec3OnSphere fuel ;;
    let dir := if nearZero (glm.add n dir) then n else dir in
    ret {| origin := p; direction := glm.add n dir |}.

(** ** The integrator *)

(** The loop of [World::hit] over the spheres from index [i] on. *)
Fixpoint hit_from (r : Ray) (ss : list Sphere) (i : nat)
    (closestT : float) (closestSphere : option (nat * Sphere)) : HitRecord :=
  match ss with
  | [] => {| sphere := closestSphere; t := closestT |}
  | s :: rest =>
      let t := intersects r s (dlit 1 3) B32.infinity in
      if B32.ltb t B32.zero || B32.ltb closestT t
      then hit_from r rest (S i) closestT closestSphere
      else hit_from r rest (S i) t (Some (i, s))
  end.

(** [World::hit]. *)
Definition hit (w : World) (r : Ray) : HitRecord :=
  hit_from r (spheres w) 0%nat B32.FLT_MAX None.

Definition black : vec3 := glm.splat B32.zero.
Definition sky : vec3 := Vec3 (dlit 5 1) (dlit 8 1) (dlit 9 1).
Definition attenuation : float := flit 25 2.

(** [World::color]; [fuel] bounds the recursive calls. *)
Fixpoint color (fuel : nat) (w : World) (r : Ray) (depth : float) : M vec3 :=
  if B32.leb depth B32.zero then ret black
  else
    let record := hit w r in
    match sphere record with
    | None => ret sky
    | Some (_, s) =>
        let p := at_ r (t record) in
        let n := glm.div_s (glm.sub p (center s)) (radius s) in
        let mat := material s in
        match fuel with
        | O => out_of_fuel
        | S fuel' =>
            scattered <- scatter fuel r p n mat ;;
            c <- color fuel' w scattered (B32.sub depth B32.one) ;;
            ret (glm.mul (glm.scale attenuation (albedo mat)) c)
        end
    end.

(** ** The image sampling loop of [main] *)

(** The globals of the source: [w] and [h] are [uint32_t] set from the
    display mode, [fov] is [glm::tan(glm::radians(60.0f / 2.0f))], whose
    value the C library decides. *)
Variables (w h : Z) (fov : float).
Variable world : World.

Definition sampleCount : float := flit 1500 1.
Definition rayDepth : float := flit 500 1.

Definition aspectRatio : float := B32.div (B32.of_Z w) (B32.of_Z h).

(** [pixelToWorld]: the first component is computed in [float], the second
    in [double] from [1.0 - ...] on and converted by the constructor. *)
Definition pixelToWorld (x y : float) : vec2 :=
  let half := flit 5 1 in
  Vec2
    (B32.mul
       (B32.mul
          (B32.sub (B32.mul (B32.of_Z 2) (B32.div (B32.add x half) (B32.of_Z w)))
                   (flit 10 1))
          aspectRatio)
       fov)
    (B64.to_float
       (B64.mul
          (B64.sub (B64.literal 10 1)
             (B64.of_float
                (B32.mul (B32.of_Z 2) (B32.div (B32.add y half) (B32.of_Z h)))))
          (B64.of_float fov))).

(** [for (uint32_t i = 0; i < sampleCount; i++)] for the pixel [(x, y)]:
    [i] is converted to [float] for the comparison and wraps at [2^32]. *)
Fixpoint sample_loop (fuel : nat) (i : Z) (x y : Z) (org pixelColor : vec3)
  : M vec3 :=
  if B32.ltb (B32.of_Z i) sampleCount then
    match fuel with
    | O => out_of_fuel
    | S fuel' =>
        offset <- randomVec2_in (B32.opp (flit 5 1)) (flit 5 1) ;;
        let pos := pixelToWorld (B32.add (B32.of_Z x) (ux offset))
                                (B32.add (B32.of_Z y) (uy offset)) in
        let dir :=
          glm.normalize (glm.sub (Vec3 (ux pos) (uy pos) minus_one) org) in
        c <- color fuel world {| origin := org; direction := dir |} rayDepth ;;
        sample_loop fuel' ((i + 1) mod 2 ^ 32) x y org (glm.add pixelColor c)
    end
  else ret pixelColor.

(** [static_cast<uint32_t>(f)]: truncation toward zero; undefined when the
    truncated value is not a [uint32_t] (in particular for NaN). *)
Definition to_uint32 (f : float) : option Z :=
  match f with
  | S754_zero _ => Some 0
  | S754_finite s m e =>
      let a := if 0 <=? e then Z.shiftl (Z.pos m) e
               else Z.shiftr (Z.pos m) (- e) in
      if s then (if a =? 0 then Some 0 else None)
      else if a <? 2 ^ 32 then Some a else None
  | _ => None
  end.

Definition uint32 (n : Z) : Z := n mod 2 ^ 32.

(** The packed RGBA8888 value of a pixel colour. *)
Definition pack (c : vec3) : option Z :=
  let byte255 := B32.of_Z 255 in
  match to_uint32 (B32.mul (vx c) byte255),
        to_uint32 (B32.mul (vy c) byte255),
        to_uint32 (B32.mul (vz c) byte255) with
  | Some r, Some g, Some b =>
      Some (Z.lor (Z.lor (Z.lor (uint32 (Z.shiftl r 24)) (uint32 (Z.shiftl g 16)))
                         (uint32 (Z.shiftl b 8)))
                  255)
  | _, _, _ => None
  end.

(** [pixels[idx] = v]: writing past the end of the vector is undefined. *)
Fixpoint store (pixels : list Z) (idx : nat) (v : Z) : option (list Z) :=
  match pixels, idx with
  | [], _ => None
  | _ :: rest, O => Some (v :: rest)
  | p :: rest, S idx' =>
      match store rest idx' v with
      | Some rest' => Some (p :: rest')
      | None => None
      end
  end.

(** The body of the two pixel loops. *)
Definition pixel (fuel : nat) (x y : Z) (pixels : list Z) : M (list Z) :=
  let idx := uint32 (y * w + x) in
  let org := position (camera world) in
  pixelColor <- sample_loop fuel 0 x y org (glm.splat B32.zero) ;;
  let pixelColor :=
    glm.clamp (glm.sqrt (glm.div_s pixelColor sampleCount)) B32.zero B32.one in
  match pack pixelColor with
  | None => undefined
  | Some v =>
      match store pixels (Z.to_nat idx) v with
      | None => undefined
      | Some pixels' => ret pixels'
      end
  end.

(** [for (uint32_t k = from; k < from + n; k++) body]. *)
Fixpoint for_range {S : Type} (n : nat) (k : Z) (body : Z -> S -> M S) (s : S)
  : M S :=
  match n with
  | O => ret s
  | S n' => s' <- body k s ;; for_range n' (k + 1) body s'
  end.

(** The rendering part of [main]: the pixel buffer after the two loops. *)
Definition render (fuel : nat) : M (list Z) :=
  let pixels := repeat 0 (Z.to_nat (uint32 (w * h))) in
  for_range (Z.to_nat h) 0
    (fun y => for_range (Z.to_nat w) 0 (fun x => pixel fuel x y))
    pixels.
End Sampling.

(** The scene of the source. *)
Definition world : World :=
  {| camera := {| position := glm.splat (flit 0 1) |};
     spheres :=
       [ {| center := Vec3 (flit 0 1) (flit 0 1) (dlit (-10) 1);
            radius := flit 2 1;
            material := {| albedo := Vec3 (dlit 5 1) (dlit 5 1) (dlit 5 1);
                           roughness := flit 10 1; metallic := flit 0 1 |} |};
         {| center := Vec3 (flit 45 2) (flit 0 1) (dlit (-10) 1);
            radius := flit 2 1;
            material := {| albedo := Vec3 (dlit 10 1) (dlit 10 1) (dlit 10 1);
                           roughness := flit 10 1; metallic := flit 10 1 |} |};
         {| center := Vec3 (flit 0 1) (flit (-10021) 2) (dlit (-10) 1);
            radius := flit 1000 1;
            material := {| albedo := Vec3 (dlit 4 1) (dlit 8 1) (dlit 5 1);
                           roughness := flit 10 1; metallic := flit 0 1 |} |} ] |}.

(** What the specification says [intersects] returns: the sentinel for a
    negative discriminant, else the first of the two roots that lies
    strictly inside [(minT, maxT)], else the sentinel. *)
Definition inside (x lo hi : float) : bool := B32.ltb lo x && B32.ltb x hi.

Definition intersects_spec (r : Ray) (s : Sphere) (minT maxT : float) : float :=
  if B32.ltb (discriminant r s) B32.zero then minus_one
  else if inside (near_root r s) minT maxT then near_root r s
  else if inside (far_root r s) minT maxT then far_root r s
  else minus_one.

(** The position of a number that is not a NaN in the order of the
    comparisons: the class (negative infinity, negative, zero, positive,
    positive infinity), then exponent and mantissa. *)
Definition rank (x : float) : Z * Z * Z :=
  match x with
  | S754_nan => (0, 0, 0)
  | S754_zero _ => (0, 0, 0)
  | S754_infinity true => (-2, 0, 0)
  | S754_infinity false => (2, 0, 0)
  | S754_finite true m e => (-1, - e, - Z.pos m)
  | S754_finite false m e => (1, e, Z.pos m)
  end.

Definition lex_lt (a b : Z * Z * Z) : Prop :=
  let '(a1, a2, a3) := a in
  let '(b1, b2, b3) := b in
  a1 < b1 \/ (a1 = b1 /\ (a2 < b2 \/ (a2 = b2 /\ a3 < b3))).

Definition lex_le (a b : Z * Z * Z) : Prop :=
  let '(a1, a2, a3) := a in
  let '(b1, b2, b3) := b in
  a1 < b1 \/ (a1 = b1 /\ (a2 < b2 \/ (a2 = b2 /\ a3 <= b3))).

(** [o1] is what a run gives with less fuel than the run that gives [o2]:
    it ran out of fuel, or it is the same. *)
Definition refines {A : Type} (o1 o2 : outcome A) : Prop :=
  o1 = OutOfFuel \/ o1 = o2.

(** The number [World::hit] gets from [intersects] for a sphere. *)
Definition hit_t (r : Ray) (s : Sphere) : float :=
  intersects r s (dlit 1 3) B32.infinity.

(** What [World::hit] has found after the spheres [seen]: nothing, when
    each of them answered with a negative number or one above [FLT_MAX]; or
    the sphere at index [k], whose answer [closestT] is not negative, is at
    most every answer that is not negative, and is strictly below those of
    the later spheres. *)
Definition closest_of (r : Ray) (seen : list Sphere) (closestT : float)
    (closestSphere : option (nat * Sphere)) : Prop :=
  match closestSphere with
  | None =>
      closestT = B32.FLT_MAX /\
      forall s, In s seen ->
        B32.ltb (hit_t r s) B32.zero = true \/
        B32.ltb B32.FLT_MAX (hit_t r s) = true
  | Some (k, s) =>
      nth_error seen k = Some s /\
      closestT = hit_t r s /\
      B32.leb B32.zero (hit_t r s) = true /\
      forall j sj, nth_error seen j = Some sj ->
        B32.leb B32.zero (hit_t r sj) = true ->
        B32.leb (hit_t r s) (hit_t r sj) = true /\
        ((k < j)%nat -> B32.ltb (hit_t r s) (hit_t r sj) = true)
  end.

(** ** Definitions for the analysis of rounding

    The operations of [SpecFloat] round the exact result, given as a
    mantissa, an exponent and the location of what was cut off, to the
    format.  The definitions below describe the steps and relate the
    numbers to their real values. *)

(** Something non-zero was shifted out of the mantissa. *)
Definition inexact (mrs : shr_record) : bool := shr_r mrs || shr_s mrs.

(** [n] single shifts. *)
Fixpoint shr_n (n : nat) (mrs : shr_record) : shr_record :=
  match n with O => mrs | S n' => shr_n n' (shr_1 mrs) end.


(** The value [m * 2^e]. *)
Definition bpow (e : Z) : Rdefinitions.R := Rfunctions.powerRZ (Rdefinitions.IZR 2) e.
Definition F2R (m e : Z) : Rdefinitions.R :=
  Rdefinitions.Rmult (Rdefinitions.IZR m) (bpow e).

Section Format.
Variables prec emax : Z.

(** A mantissa and exponent in the format's canonical form. *)
Definition canonical (m e : Z) : Prop := 0 < m /\ SpecFloat.fexp prec emax (Zdigits2 m + e) = e.

(** The result of rounding the number [m1 * 2^e1] that is already on the
    grid of the format, up to one carry. *)
Inductive rounded (s : bool) (m1 e1 : Z) : spec_float -> Prop :=
| rounded_zero : m1 = 0 -> rounded s m1 e1 (S754_zero s)
| rounded_finite (m2 : positive) (e2 : Z) :
    (Z.pos m2 = m1 /\ e2 = e1) \/ (2 * Z.pos m2 = m1 /\ e2 = e1 + 1) ->
    canonical (Z.pos m2) e2 ->
    rounded s m1 e1
      (if e2 <=? emax - prec then S754_finite s m2 e2 else S754_infinity s).

(** The exact number [v] lies between [mx * 2^ex] and the next number of
    that exponent, as the location [lx] says. *)
Definition located (mx ex : Z) (lx : location) (v : Rdefinitions.R) : Prop :=
  Rdefinitions.Rle (F2R mx ex) v /\ Rdefinitions.Rlt v (F2R (mx + 1) ex) /\
  (lx <> loc_Exact -> Rdefinitions.Rlt (F2R mx ex) v).

End Format.

(** A binary32 number of the interval [0, 1], as the components of an
    albedo are meant to be, and a colour component between 0 and the
    largest component of the sky colour. *)
Definition in_unit_interval (x : float) : Prop :=
  B32.valid x = true /\ B32.leb B32.zero x = true /\ B32.leb x B32.one = true.

Definition below_sky (x : float) : Prop :=
  B32.leb B32.zero x = true /\ B32.leb x (dlit 9 1) = true.

Definition unit_albedo (s : Sphere) : Prop :=
  in_unit_interval (vx (albedo (material s))) /\
  in_unit_interval (vy (albedo (material s))) /\
  in_unit_interval (vz (albedo (material s))).

(** The test [v == vec3(0)]. *)
Definition is_zero_vec (v : vec3) : bool :=
  B32.eqb (vx v) B32.zero && B32.eqb (vy v) B32.zero && B32.eqb (vz v) B32.zero.

(** ** The real number a binary32 number stands for *)

Definition B2R (x : float) : Rdefinitions.R :=
  match x with
  | S754_finite s m e =>
      if s then Rdefinitions.Ropp (F2R (Z.pos m) e) else F2R (Z.pos m) e
  | _ => Rdefinitions.IZR 0
  end.

Definition is_finite (x : float) : bool :=
  match x with
  | S754_zero _ | S754_finite _ _ _ => true
  | _ => false
  end.

Definition not_negative (x : float) : bool :=
  match x with
  | S754_zero _ | S754_finite false _ _ => true
  | _ => false
  end.

(** The components of a vector as real numbers. *)
Definition to_real (v : vec3) : vec Rdefinitions.R :=
  Vec3 (B2R (vx v)) (B2R (vy v)) (B2R (vz v)).

(** ** Definitions for the further properties *)

(** What [World::hit] holds between two spheres: the sphere it remembers
    is the one at its index, its answer is the remembered distance and is
    not negative. *)
Definition remembered (r : Ray) (all : list Sphere) (closestT : float)
    (closestSphere : option (nat * Sphere)) : Prop :=
  match closestSphere with
  | None => closestT = B32.FLT_MAX
  | Some (k, s) =>
      nth_error all k = Some s /\ closestT = hit_t r s /\
      B32.ltb (hit_t r s) B32.zero = false
  end.

(** The candidate [randomVec3(-1, 1)] makes from the three numbers of the
    generator at the cursor [k]. *)
Definition candidate (gen : nat -> float) (k : nat) : vec3 :=
  let f u := B32.add minus_one (B32.mul (B32.sub B32.one minus_one) u) in
  Vec3 (f (gen k)) (f (gen (S k))) (f (gen (S (S k)))).

(** A relation between each component of a vector and the same component
    of another. *)
Definition componentwise (P : float -> float -> Prop) (v v' : vec3) : Prop :=
  P (vx v) (vx v') /\ P (vy v) (vy v') /\ P (vz v) (vz v').

(** A property of each component of a vector. *)
Definition all3 (P : float -> Prop) (v : vec3) : Prop :=
  P (vx v) /\ P (vy v) /\ P (vz v).

(** A pixel whose alpha byte is 0xFF. *)
Definition opaque (p : Z) : Prop := Z.land p 255 = 255 /\ 0 <= p < 2 ^ 32.

(** The first [n] pixels of a buffer of [size] pixels are opaque. *)
Definition opaque_prefix (size : nat) (n : Z) (pixels : list Z) : Prop :=
  length pixels = size /\
  forall k p, Z.of_nat k < n -> nth_error pixels k = Some p -> opaque p.

(** The body of the sampling loop of [main]: one more sample of the pixel
    [(x, y)] is added to [pixelColor]. *)
Definition sample_step (gen : nat -> float) (w h : Z) (fov : float)
    (world : World) (fuel : nat) (x y : Z) (org pixelColor : vec3) : M vec3 :=
  offset <- randomVec2_in gen (B32.opp (flit 5 1)) (flit 5 1) ;;
  let pos := pixelToWorld w h fov (B32.add (B32.of_Z x) (ux offset))
                                  (B32.add (B32.of_Z y) (uy offset)) in
  let dir :=
    glm.normalize (glm.sub (Vec3 (ux pos) (uy pos) minus_one) org) in
  c <- color gen fuel world {| origin := org; direction := dir |} rayDepth ;;
  ret (glm.add pixelColor c).

(** [n] rounds of the body, one after the other. *)
Fixpoint sample_rounds (gen : nat -> float) (w h : Z) (fov : float)
    (world : World) (n fuel : nat) (x y : Z) (org pixelColor : vec3)
  : M vec3 :=
  match n with
  | O => ret pixelColor
  | S n' =>
      match fuel with
      | O => out_of_fuel
      | S fuel' =>
          pixelColor' <- sample_step gen w h fov world fuel x y org pixelColor ;;
          sample_rounds gen w h fov world n' fuel' x y org pixelColor'
      end
  end.

(** The integer part of [m * 2^e]. *)
Definition integer_part (m : positive) (e : Z) : Z :=
  if 0 <=? e then Z.shiftl (Z.pos m) e else Z.shiftr (Z.pos m) (- e).

(** A number of the format that is neither negative nor a NaN: a zero, a
    positive number or [+inf]. *)
Definition not_below_zero (x : float) : Prop :=
  B32.valid x = true /\ B32.leb B32.zero x = true.

(** A number of the format between [lo] and [hi]. *)
Definition between (lo hi x : float) : Prop :=
  B32.valid x = true /\ B32.leb lo x = true /\ B32.leb x hi = true.

(** A finite number of the format whose value is between 0 and [k]. *)
Definition at_most (k : Z) (x : float) : Prop :=
  B32.valid x = true /\ is_finite x = true /\
  Rdefinitions.Rle (Rdefinitions.IZR 0) (B2R x) /\
  Rdefinitions.Rle (B2R x) (Rdefinitions.IZR k).

(** The formulas of [Ray::intersects] and [Ray::at] over any scalar: the
    root [(h - sqrt(h*h - a*c)) / a], or [(h + sqrt(h*h - a*c)) / a] for
    [far], and the point [origin + t * direction]. *)
Section Roots.
Context {T : Type} `{Scalar T}.

Definition discriminant_of (o d c : vec T) (rad : T) : T :=
  let oc := glm.sub c o in
  let a := glm.dot d d in
  let h := glm.dot d oc in
  let cc := s_sub (glm.dot oc oc) (s_mul rad rad) in
  s_sub (s_mul h h) (s_mul a cc).

Definition root (far : bool) (o d c : vec T) (rad : T) : T :=
  let oc := glm.sub c o in
  let a := glm.dot d d in
  let h := glm.dot d oc in
  s_div (if far then s_add h (s_sqrt (discriminant_of o d c rad))
         else s_sub h (s_sqrt (discriminant_of o d c rad))) a.

Definition point_at (o d : vec T) (t : T) : vec T :=
  glm.add o (glm.scale t d).
End Roots.

(** ** Concrete inputs for the examples below *)

Module Examples.
Definition diffuse (a : float) : Material :=
  {| albedo := glm.splat a; roughness := B32.one; metallic := B32.zero |}.
Definition mirror (a : float) : Material :=
  {| albedo := glm.splat a; roughness := B32.one; metallic := B32.one |}.

(** A ray from the origin down the negative z axis, and a sphere of
    radius 0.5 around (0, 0, -1), which it enters at [t = 0.5]. *)
Definition ray_down : Ray :=
  {| origin := glm.splat B32.zero;
     direction := Vec3 B32.zero B32.zero minus_one |}.
Definition ball (mat : Material) : Sphere :=
  {| center := Vec3 B32.zero B32.zero minus_one; radius := flit 5 1;
     material := mat |}.

(** A ray along the x axis whose direction has length [2^-100]: the
    square of the length underflows to zero. *)
Definition ray_tiny : Ray :=
  {| origin := glm.splat B32.zero;
     direction := Vec3 (S754_finite false 8388608 (-123)) B32.zero B32.zero |}.

Definition scene (ss : list Sphere) : World :=
  {| camera := {| position := glm.splat B32.zero |}; spheres := ss |}.

(** Generators: the constant 0.5, and 0, 0.5, 0.5 followed by zeros, from
    which [randomVec3(-1, 1)] first makes (-1, 0, 0). *)
Definition gen_half (n : nat) : float := flit 5 1.
Definition gen_left (n : nat) : float :=
  nth n [B32.zero; flit 5 1; flit 5 1] B32.zero.

Definition unit_x : vec3 := Vec3 B32.one B32.zero B32.zero.

(** [tan(radians(30))] rounded to binary32. *)
Definition fov30 : float := S754_finite false 9686330 (-24).
(** A sphere whose centre has an infinite component. *)
Definition lost : Sphere :=
  {| center := Vec3 B32.infinity B32.zero minus_one; radius := flit 5 1;
     material := diffuse B32.one |}.

(** The constant 0.75, from which every candidate of the rejection loop
    is (0.5, 0.5, 0.5). *)
Definition gen_three_quarters (n : nat) : float := flit 75 2.

(** A ray that starts at (0, 0, 2^25) and goes down the z axis, and a
    mirror ball of radius 1.5 around (0, 0, 2^25 - 2), which it meets at
    [t = 0.5]. *)
Definition ray_far : Ray :=
  {| origin := Vec3 B32.zero B32.zero (S754_finite false 8388608 2);
     direction := Vec3 B32.zero B32.zero minus_one |}.
Definition ball_far : Sphere :=
  {| center := Vec3 B32.zero B32.zero (S754_finite false 16777215 1);
     radius := flit 15 1; material := mirror B32.one |}.
End Examples.

(** * Properties *)

(** ** Comparisons of binary32 numbers *)

Lemma compare_rank (x y : float) :
  B32.is_nan x = false -> B32.is_nan y = false ->
  exists c, SFcompare x y = Some c /\
    match c with
    | Lt => lex_lt (rank x) (rank y)
    | Eq => rank x = rank y
    | Gt => lex_lt (rank y) (rank x)
    end.
Proof.
  destruct x as [sx|sx| |sx mx ex], y as [sy|sy| |sy my ey];
    simpl; try discriminate; intros _ _;
    try (destruct sx; try destruct sy; eexists;
         (split; [reflexivity | simpl; try reflexivity; lia])).
  destruct sx, sy; try (eexists; (split; [reflexivity | simpl; lia]));
    rewrite Pos.compare_cont_spec; simpl;
    destruct (Z.compare_spec ex ey); try (eexists; (split; [reflexivity | simpl; lia]));
    destruct (Pos.compare_spec mx my); subst;
    eexists; (split; [reflexivity | simpl; try reflexivity; lia]).
Qed.

Lemma ltb_rank (x y : float) :
  B32.is_nan x = false -> B32.is_nan y = false ->
  (B32.ltb x y = true <-> lex_lt (rank x) (rank y)).
Proof.
  intros Hx Hy. destruct (compare_rank x y Hx Hy) as [c [Hc Hr]].
  unfold B32.ltb, SFltb. rewrite Hc.
  destruct (rank x) as [[a1 a2] a3], (rank y) as [[b1 b2] b3].
  destruct c; simpl in *; split; intros H; try discriminate; try reflexivity;
    try (injection Hr; intros); lia.
Qed.

Lemma leb_rank (x y : float) :
  B32.is_nan x = false -> B32.is_nan y = false ->
  (B32.leb x y = true <-> lex_le (rank x) (rank y)).
Proof.
  intros Hx Hy. destruct (compare_rank x y Hx Hy) as [c [Hc Hr]].
  unfold B32.leb, SFleb. rewrite Hc.
  destruct (rank x) as [[a1 a2] a3], (rank y) as [[b1 b2] b3].
  destruct c; simpl in *; split; intros H; try discriminate; try reflexivity;
    try (injection Hr; intros); lia.
Qed.

Lemma ltb_nan_l (y : float) : B32.ltb S754_nan y = false.
Proof. reflexivity. Qed.
Lemma leb_nan_l (y : float) : B32.leb S754_nan y = false.
Proof. reflexivity. Qed.
Lemma ltb_nan_r (x : float) : B32.ltb x S754_nan = false.
Proof. destruct x as [[]|[]| |[]]; reflexivity. Qed.
Lemma leb_nan_r (x : float) : B32.leb x S754_nan = false.
Proof. destruct x as [[]|[]| |[]]; reflexivity. Qed.

Lemma is_nan_true (x : float) : B32.is_nan x = true -> x = S754_nan.
Proof. destruct x; simpl; congruence. Qed.

Lemma ltb_not_nan (x y : float) :
  B32.ltb x y = true -> B32.is_nan x = false /\ B32.is_nan y = false.
Proof.
  destruct x, y; simpl; try discriminate; auto;
    rewrite ?ltb_nan_r; discriminate.
Qed.

Lemma leb_not_nan (x y : float) :
  B32.leb x y = true -> B32.is_nan x = false /\ B32.is_nan y = false.
Proof.
  destruct x, y; simpl; try discriminate; auto;
    rewrite ?leb_nan_r; discriminate.
Qed.

(** [a < b] excludes [b <= a]. *)
Lemma ltb_leb_false (x y : float) : B32.ltb x y = true -> B32.leb y x = false.
Proof.
  intros H. destruct (ltb_not_nan _ _ H) as [Hx Hy].
  apply (ltb_rank x y Hx Hy) in H.
  destruct (B32.leb y x) eqn:E; [|reflexivity].
  apply (leb_rank y x Hy Hx) in E.
  destruct (rank x) as [[a1 a2] a3], (rank y) as [[b1 b2] b3]; simpl in *; lia.
Qed.

(** For numbers, [b <= a] fails exactly when [a < b]. *)
Lemma leb_false_ltb (x y : float) :
  B32.is_nan x = false -> B32.is_nan y = false ->
  B32.leb y x = false -> B32.ltb x y = true.
Proof.
  intros Hx Hy H. apply (ltb_rank x y Hx Hy).
  destruct (rank x) as [[a1 a2] a3] eqn:Ex, (rank y) as [[b1 b2] b3] eqn:Ey.
  assert (N : ~ lex_le (rank y) (rank x)).
  { intros L. apply (leb_rank y x Hy Hx) in L. congruence. }
  rewrite Ex, Ey in N. simpl in *. lia.
Qed.

Lemma ltb_false_leb (x y : float) :
  B32.is_nan x = false -> B32.is_nan y = false ->
  B32.ltb y x = false -> B32.leb x y = true.
Proof.
  intros Hx Hy H. apply (leb_rank x y Hx Hy).
  destruct (rank x) as [[a1 a2] a3] eqn:Ex, (rank y) as [[b1 b2] b3] eqn:Ey.
  assert (N : ~ lex_lt (rank y) (rank x)).
  { intros L. apply (ltb_rank y x Hy Hx) in L. congruence. }
  rewrite Ex, Ey in N. simpl in *. lia.
Qed.

Lemma leb_trans (x y z : float) :
  B32.leb x y = true -> B32.leb y z = true -> B32.leb x z = true.
Proof.
  intros H1 H2.
  destruct (leb_not_nan _ _ H1) as [Hx Hy], (leb_not_nan _ _ H2) as [_ Hz].
  apply (leb_rank x y Hx Hy) in H1. apply (leb_rank y z Hy Hz) in H2.
  apply (leb_rank x z Hx Hz).
  destruct (rank x) as [[a1 a2] a3], (rank y) as [[b1 b2] b3],
    (rank z) as [[c1 c2] c3]; simpl in *; lia.
Qed.

Lemma ltb_leb_trans (x y z : float) :
  B32.ltb x y = true -> B32.leb y z = true -> B32.ltb x z = true.
Proof.
  intros H1 H2.
  destruct (ltb_not_nan _ _ H1) as [Hx Hy], (leb_not_nan _ _ H2) as [_ Hz].
  apply (ltb_rank x y Hx Hy) in H1. apply (leb_rank y z Hy Hz) in H2.
  apply (ltb_rank x z Hx Hz).
  destruct (rank x) as [[a1 a2] a3], (rank y) as [[b1 b2] b3],
    (rank z) as [[c1 c2] c3]; simpl in *; lia.
Qed.

Lemma leb_ltb_trans (x y z : float) :
  B32.leb x y = true -> B32.ltb y z = true -> B32.ltb x z = true.
Proof.
  intros H1 H2.
  destruct (leb_not_nan _ _ H1) as [Hx Hy], (ltb_not_nan _ _ H2) as [_ Hz].
  apply (leb_rank x y Hx Hy) in H1. apply (ltb_rank y z Hy Hz) in H2.
  apply (ltb_rank x z Hx Hz).
  destruct (rank x) as [[a1 a2] a3], (rank y) as [[b1 b2] b3],
    (rank z) as [[c1 c2] c3]; simpl in *; lia.
Qed.

Lemma leb_refl (x : float) : B32.is_nan x = false -> B32.leb x x = true.
Proof.
  intros Hx. apply (leb_rank x x Hx Hx).
  destruct (rank x) as [[a1 a2] a3]; simpl; lia.
Qed.

(** ** Rounding to the format *)

Lemma digits2_pos_log2 (m : positive) :
  Z.pos (digits2_pos m) = Z.log2 (Z.pos m) + 1.
Proof.
  induction m as [m IH|m IH|]; simpl digits2_pos.
  - rewrite Pos2Z.inj_succ, IH. rewrite Pos2Z.inj_xI.
    rewrite Z.log2_succ_double by lia. lia.
  - rewrite Pos2Z.inj_succ, IH. rewrite Pos2Z.inj_xO.
    rewrite Z.log2_double by lia. lia.
  - reflexivity.
Qed.

Lemma digits_bounds (m : positive) :
  2 ^ (Z.pos (digits2_pos m) - 1) <= Z.pos m < 2 ^ Z.pos (digits2_pos m).
Proof.
  rewrite digits2_pos_log2.
  replace (Z.log2 (Z.pos m) + 1 - 1) with (Z.log2 (Z.pos m)) by lia.
  replace (Z.log2 (Z.pos m) + 1) with (Z.succ (Z.log2 (Z.pos m))) by lia.
  apply Z.log2_spec. lia.
Qed.

Lemma Zdigits2_bounds (m : Z) :
  0 < m -> 2 ^ (Zdigits2 m - 1) <= m < 2 ^ Zdigits2 m.
Proof. destruct m; try lia. intros _. apply digits_bounds. Qed.

Lemma Zdigits2_unique (m k : Z) :
  2 ^ (k - 1) <= m < 2 ^ k -> 0 < m -> Zdigits2 m = k.
Proof.
  intros H Hm. pose proof (Zdigits2_bounds m Hm) as B.
  assert (0 < Zdigits2 m) by (destruct m; simpl; lia).
  assert (0 < k).
  { destruct (Z.ltb_spec 0 k); [assumption|].
    destruct (Z.eqb_spec k 0); [subst; simpl in H; lia|].
    rewrite (Z.pow_neg_r 2 k) in H by lia. lia. }
  destruct (Z.lt_trichotomy (Zdigits2 m) k) as [L|[E|G]]; [|exact E|].
  - assert (2 ^ Zdigits2 m <= 2 ^ (k - 1)) by (apply Z.pow_le_mono_r; lia). lia.
  - assert (2 ^ k <= 2 ^ (Zdigits2 m - 1)) by (apply Z.pow_le_mono_r; lia). lia.
Qed.

Lemma Zdigits2_nonneg (m : Z) : 0 <= Zdigits2 m.
Proof. destruct m; simpl; lia. Qed.

Lemma Zdigits2_pos (m : Z) : 0 < m -> 0 < Zdigits2 m.
Proof. destruct m; simpl; lia. Qed.

Lemma shr_1_m (mrs : shr_record) :
  0 <= shr_m mrs -> shr_m (shr_1 mrs) = shr_m mrs / 2.
Proof.
  destruct mrs as [m r s]. cbn [shr_m]. intros Hm.
  rewrite <- Z.div2_div.
  destruct m as [|[p|p|]|p]; try lia; reflexivity.
Qed.

Lemma shr_1_inexact (mrs : shr_record) :
  0 <= shr_m mrs ->
  inexact (shr_1 mrs) = Z.odd (shr_m mrs) || inexact mrs.
Proof.
  destruct mrs as [m r s]. unfold inexact. simpl. intros Hm.
  destruct m as [|[p|p|]|p]; simpl; try lia; try reflexivity.
Qed.

Lemma iter_pos_shr_n (p : positive) (mrs : shr_record) :
  iter_pos shr_1 p mrs = shr_n (Pos.to_nat p) mrs.
Proof.
  assert (A : forall a b x, shr_n (a + b) x = shr_n b (shr_n a x)).
  { induction a; intros; simpl; auto. }
  revert mrs. induction p as [p IH|p IH|]; intros mrs; cbn [iter_pos].
  - rewrite !IH, Pos2Nat.inj_xI.
    replace (S (2 * Pos.to_nat p))%nat with (1 + (Pos.to_nat p + Pos.to_nat p))%nat by lia.
    rewrite (A 1%nat), A. reflexivity.
  - rewrite !IH, Pos2Nat.inj_xO.
    replace (2 * Pos.to_nat p)%nat with (Pos.to_nat p + Pos.to_nat p)%nat by lia.
    now rewrite A.
  - reflexivity.
Qed.

Lemma shr_n_spec (n : nat) (mrs : shr_record) :
  0 <= shr_m mrs ->
  shr_m (shr_n n mrs) = shr_m mrs / 2 ^ Z.of_nat n /\
  (inexact (shr_n n mrs) = true ->
   inexact mrs = true \/ shr_m mrs mod 2 ^ Z.of_nat n <> 0) /\
  (inexact mrs = true -> inexact (shr_n n mrs) = true).
Proof.
  revert mrs. induction n as [|n IH]; intros mrs Hm.
  - simpl. rewrite Z.div_1_r. auto.
  - cbn [shr_n].
    assert (H1 : 0 <= shr_m (shr_1 mrs)).
    { rewrite shr_1_m by exact Hm. apply Z.div_pos; lia. }
    destruct (IH (shr_1 mrs) H1) as (Em & Ei & Ek).
    rewrite Nat2Z.inj_succ, Z.pow_succ_r by lia.
    rewrite shr_1_m in Em by exact Hm. rewrite shr_1_inexact in Ei, Ek by exact Hm.
    split; [|split].
    + rewrite Em. rewrite Z.div_div by lia. reflexivity.
    + intros Hi. destruct (Ei Hi) as [H|H].
      * apply orb_true_iff in H. destruct H as [H|H]; [|now left].
        right. intros E.
        assert (shr_m mrs mod 2 = 0).
        { apply Z.mod_divide in E; [|lia]. apply Z.mod_divide; [lia|].
          destruct E as [k E]. exists (k * 2 ^ Z.of_nat n). lia. }
        rewrite Zmod_odd, H in H0. discriminate.
      * right. intros E. apply H.
        rewrite shr_1_m by exact Hm.
        apply Z.mod_divide in E; [|lia]. destruct E as [k E].
        rewrite E. replace (k * (2 * 2 ^ Z.of_nat n)) with (k * 2 ^ Z.of_nat n * 2) by lia.
        rewrite Z.div_mul by lia. apply Z.mod_mul. lia.
    + intros Hi. apply Ek. rewrite Hi. apply orb_true_r.
Qed.

Lemma inexact_of_loc (m : Z) (l : location) :
  inexact (shr_record_of_loc m l) = true <-> l <> loc_Exact.
Proof.
  destruct l as [|[]]; unfold inexact; simpl; split; intros H;
    try discriminate; try reflexivity; congruence.
Qed.

Lemma shr_m_of_loc (m : Z) (l : location) : shr_m (shr_record_of_loc m l) = m.
Proof. destruct l as [|[]]; reflexivity. Qed.

Lemma loc_of_shr_exact (mrs : shr_record) :
  loc_of_shr_record mrs = loc_Exact <-> inexact mrs = false.
Proof.
  destruct mrs as [m [] []]; unfold inexact; simpl; split; intros H;
    try discriminate; reflexivity.
Qed.

Lemma round_nearest_even_spec (m : Z) (l : location) :
  m <= round_nearest_even m l <= m + 1 /\
  (l = loc_Exact -> round_nearest_even m l = m).
Proof.
  destruct l as [|[]]; simpl; try (destruct (Z.even m)); split; auto; try lia;
    discriminate.
Qed.


Section Values.
Import Stdlib.Reals.Reals Stdlib.micromega.Lra.
Local Open Scope R_scope.


Lemma bpow_pos (e : Z) : 0 < bpow e.
Proof. apply powerRZ_lt. lra. Qed.

Lemma bpow_add (a b : Z) : bpow (a + b) = bpow a * bpow b.
Proof. apply powerRZ_add. lra. Qed.

Lemma bpow_IZR (k : Z) : (0 <= k)%Z -> bpow k = IZR (2 ^ k).
Proof.
  intros Hk. unfold bpow. rewrite <- (Z2Nat.id k Hk) at 1.
  rewrite <- pow_powerRZ, pow_IZR. now rewrite Z2Nat.id.
Qed.

Lemma bpow_ge_1 (k : Z) : (0 <= k)%Z -> 1 <= bpow k.
Proof.
  intros Hk. rewrite bpow_IZR by exact Hk. apply IZR_le.
  assert (0 < 2 ^ k)%Z by (apply Z.pow_pos_nonneg; lia). lia.
Qed.

Lemma bpow_le (a b : Z) : (a <= b)%Z -> bpow a <= bpow b.
Proof.
  intros H. replace b with (a + (b - a))%Z by lia. rewrite bpow_add.
  pose proof (bpow_pos a). pose proof (bpow_ge_1 (b - a) ltac:(lia)). nra.
Qed.

Lemma bpow_lt (a b : Z) : (a < b)%Z -> bpow a < bpow b.
Proof.
  intros H. replace b with (a + (b - a))%Z by lia. rewrite bpow_add.
  pose proof (bpow_pos a).
  assert (2 <= bpow (b - a)).
  { rewrite bpow_IZR by lia. apply IZR_le.
    change 2%Z with (2 ^ 1)%Z. apply Z.pow_le_mono_r; lia. }
  nra.
Qed.

Lemma bpow_lt_inv (a b : Z) : bpow a < bpow b -> (a < b)%Z.
Proof.
  intros H. destruct (Z.lt_ge_cases a b) as [L|G]; [exact L|].
  pose proof (bpow_le b a G). lra.
Qed.

Lemma F2R_shift (m e k : Z) : (0 <= k)%Z -> F2R (m * 2 ^ k) e = F2R m (e + k).
Proof.
  intros Hk. unfold F2R. rewrite mult_IZR, bpow_add, <- bpow_IZR by exact Hk.
  ring.
Qed.

Lemma F2R_le_mono (m1 m2 e : Z) : (m1 <= m2)%Z -> F2R m1 e <= F2R m2 e.
Proof.
  intros H. unfold F2R. apply IZR_le in H. pose proof (bpow_pos e). nra.
Qed.

Lemma F2R_lt_mono (m1 m2 e : Z) : (m1 < m2)%Z -> F2R m1 e < F2R m2 e.
Proof.
  intros H. unfold F2R. apply IZR_lt in H. pose proof (bpow_pos e). nra.
Qed.

Lemma F2R_lt_inv (m1 m2 e : Z) : F2R m1 e < F2R m2 e -> (m1 < m2)%Z.
Proof.
  intros H. destruct (Z.lt_ge_cases m1 m2) as [L|G]; [exact L|].
  pose proof (F2R_le_mono m2 m1 e G). lra.
Qed.

Lemma F2R_le_inv (m1 m2 e : Z) : F2R m1 e <= F2R m2 e -> (m1 <= m2)%Z.
Proof.
  intros H. destruct (Z.le_gt_cases m1 m2) as [L|G]; [exact L|].
  pose proof (F2R_lt_mono m2 m1 e G). lra.
Qed.

Lemma F2R_mul (m1 e1 m2 e2 : Z) :
  F2R m1 e1 * F2R m2 e2 = F2R (m1 * m2) (e1 + e2).
Proof. unfold F2R. rewrite mult_IZR, bpow_add. ring. Qed.

Lemma F2R_pos (m e : Z) : (0 < m)%Z -> 0 < F2R m e.
Proof.
  intros H. unfold F2R. apply IZR_lt in H. pose proof (bpow_pos e). nra.
Qed.

Lemma F2R_bpow (e : Z) : F2R 1 e = bpow e.
Proof. unfold F2R. ring. Qed.

(** A number of [d] binary digits lies in [[2^(d-1), 2^d)]. *)
Lemma F2R_digits (m e : Z) :
  (0 < m)%Z -> bpow (Zdigits2 m + e - 1) <= F2R m e < bpow (Zdigits2 m + e).
Proof.
  intros Hm. pose proof (Zdigits2_bounds m Hm) as [L U].
  pose proof (Zdigits2_pos m Hm) as P.
  replace (Zdigits2 m + e - 1)%Z with (e + (Zdigits2 m - 1))%Z by lia.
  replace (Zdigits2 m + e)%Z with (e + Zdigits2 m)%Z by lia.
  rewrite <- (F2R_bpow (e + (Zdigits2 m - 1))), <- (F2R_bpow (e + Zdigits2 m)).
  rewrite <- !F2R_shift by lia. rewrite !Z.mul_1_l.
  split; [now apply F2R_le_mono | now apply F2R_lt_mono].
Qed.
End Values.

Section Rounding.
Variables prec emax : Z.
Hypothesis prec_pos : 0 < prec.
Hypothesis prec_lt_emax : prec < emax.

Local Notation "'emin'" := (SpecFloat.emin prec emax).
Local Notation "'fexp'" := (SpecFloat.fexp prec emax).
Local Notation "'canonical'" := (canonical prec emax).
Local Notation "'rounded'" := (rounded prec emax).

Lemma fexp_eq (e : Z) : fexp e = Z.max (e - prec) emin.
Proof. reflexivity. Qed.

Lemma emin_eq : emin = 3 - emax - prec.
Proof. reflexivity. Qed.

Lemma fexp_ge_emin (e : Z) : emin <= fexp e.
Proof. unfold SpecFloat.fexp. lia. Qed.

Lemma fexp_mono (a b : Z) : a <= b -> fexp a <= fexp b.
Proof. unfold SpecFloat.fexp. lia. Qed.

Lemma fexp_succ (a : Z) : fexp (a + 1) = fexp a \/ fexp (a + 1) = fexp a + 1.
Proof. unfold SpecFloat.fexp. lia. Qed.

(** The first step of rounding: the mantissa is cut at the exponent the
    format gives to numbers of its magnitude. *)
Lemma shr_fexp_spec (m e : Z) (l : location) :
  0 <= m -> e <= fexp (Zdigits2 m + e) ->
  let e1 := fexp (Zdigits2 m + e) in
  let mrs := fst (shr_fexp prec emax m e l) in
  snd (shr_fexp prec emax m e l) = e1 /\
  shr_m mrs = m / 2 ^ (e1 - e) /\
  (inexact mrs = true -> l <> loc_Exact \/ m mod 2 ^ (e1 - e) <> 0) /\
  (l <> loc_Exact -> inexact mrs = true).
Proof.
  intros Hm He e1 mrs. unfold mrs, shr_fexp, shr. fold e1.
  destruct (e1 - e) as [|p|p] eqn:En; try lia.
  - simpl. rewrite shr_m_of_loc, Z.div_1_r.
    repeat split; try lia.
    + intros H. left. now apply inexact_of_loc in H.
    + intros H. now apply inexact_of_loc.
  - cbn [fst snd]. rewrite iter_pos_shr_n.
    destruct (shr_n_spec (Pos.to_nat p) (shr_record_of_loc m l)) as (Em & Ei & Ek).
    { now rewrite shr_m_of_loc. }
    rewrite shr_m_of_loc in Em, Ei. rewrite positive_nat_Z in Em, Ei.
    repeat split; try lia.
    + intros H. destruct (Ei H) as [H'|H']; [left|right; exact H'].
      now apply inexact_of_loc in H'.
    + intros H. apply Ek. now apply inexact_of_loc.
Qed.

Lemma finish_spec (s : bool) (m1 e1 : Z) :
  0 <= m1 ->
  m1 = 0 \/ canonical m1 e1 \/
    (exists k, 0 < k /\ m1 = 2 ^ k /\ fexp (k + 1 + e1) = e1 + 1) ->
  let '(mrs, e2) := shr_fexp prec emax m1 e1 loc_Exact in
  rounded s m1 e1
    match shr_m mrs with
    | Z0 => S754_zero s
    | Zpos m => if e2 <=? emax - prec then S754_finite s m e2 else S754_infinity s
    | Zneg _ => S754_nan
    end.
Proof.
  intros Hm [H|[H|H]].
  - subst m1. unfold shr_fexp, shr. simpl Zdigits2.
    destruct (fexp (0 + e1) - e1) as [|p|p]; simpl.
    + now constructor.
    + rewrite iter_pos_shr_n.
      destruct (shr_n_spec (Pos.to_nat p) {| shr_m := 0; shr_r := false; shr_s := false |}) as (Em & _); [simpl; lia|].
      rewrite Em. simpl. now constructor.
    + now constructor.
  - destruct H as [Hp Hc]. unfold shr_fexp, shr. rewrite Hc, Z.sub_diag.
    simpl. destruct m1 as [|m|m]; try lia.
    apply rounded_finite; [left; auto | split; auto].
  - destruct H as (k & Hk & -> & Hf).
    assert (Hd : Zdigits2 (2 ^ k) = k + 1).
    { apply Zdigits2_unique.
      - replace (k + 1 - 1) with k by lia. split; [lia|].
        apply Z.pow_lt_mono_r; lia.
      - apply Z.pow_pos_nonneg; lia. }
    unfold shr_fexp, shr. rewrite Hd, Hf.
    replace (e1 + 1 - e1) with 1 by lia. cbn [iter_pos].
    assert (Hs : shr_m (shr_1 (shr_record_of_loc (2 ^ k) loc_Exact)) = 2 ^ (k - 1)).
    { rewrite shr_1_m by (simpl; apply Z.pow_nonneg; lia). simpl shr_m.
      replace k with (Z.succ (k - 1)) at 1 by lia.
      rewrite Z.pow_succ_r by lia. rewrite (Z.mul_comm 2), Z.div_mul by lia.
      reflexivity. }
    rewrite Hs.
    assert (Hpos : 0 < 2 ^ (k - 1)) by (apply Z.pow_pos_nonneg; lia).
    destruct (2 ^ (k - 1)) as [|m|m] eqn:Ep; try lia.
    apply rounded_finite.
    + right. split; [|reflexivity]. rewrite <- Ep.
      replace k with (Z.succ (k - 1)) at 2 by lia.
      now rewrite Z.pow_succ_r by lia.
    + split; [lia|]. rewrite <- Ep.
      assert (Hd' : Zdigits2 (2 ^ (k - 1)) = k).
      { apply Zdigits2_unique; [|lia]. split; [lia|].
        apply Z.pow_lt_mono_r; lia. }
      rewrite Hd'. replace (k + (e1 + 1)) with (k + 1 + e1) by lia. exact Hf.
Qed.

(** Rounding [mx * 2^ex], with the location [lx] of the exact number
    between [mx] and [mx + 1]: the mantissa is cut at the exponent [e1] of
    the format, which leaves [f], and the result is [f] or [f + 1] on that
    grid; it is [f + 1] only if something was cut off. *)
Lemma binary_round_aux_spec (s : bool) (mx ex : Z) (lx : location) :
  0 <= mx -> ex <= fexp (Zdigits2 mx + ex) ->
  let e1 := fexp (Zdigits2 mx + ex) in
  let f := mx / 2 ^ (e1 - ex) in
  exists m1,
    f <= m1 <= f + 1 /\
    (m1 = f + 1 -> lx <> loc_Exact \/ mx mod 2 ^ (e1 - ex) <> 0) /\
    (f = 0 -> e1 = emin) /\
    rounded s m1 e1 (binary_round_aux prec emax s mx ex lx).
Proof.
  intros Hm He e1 f.
  destruct (shr_fexp_spec mx ex lx Hm He) as (E1 & Em & Ei & Ek).
  fold e1 in E1, Em, Ei. fold f in Em.
  unfold binary_round_aux.
  destruct (shr_fexp prec emax mx ex lx) as [mrs e'] eqn:Es.
  cbn [fst snd] in *. subst e'.
  set (m1 := round_nearest_even (shr_m mrs) (loc_of_shr_record mrs)).
  destruct (round_nearest_even_spec (shr_m mrs) (loc_of_shr_record mrs))
    as (Hr & Hx). fold m1 in Hr, Hx. rewrite Em in Hr, Hx.
  set (n := e1 - ex) in *. set (d := Zdigits2 mx) in *.
  assert (Hn : 0 <= n) by (unfold n; lia).
  assert (Hd : 0 <= d) by apply Zdigits2_nonneg.
  assert (Hpn : 0 < 2 ^ n) by (apply Z.pow_pos_nonneg; lia).
  assert (Hf : 0 <= f) by (apply Z.div_pos; lia).
  assert (Hmin : f = 0 -> e1 = emin).
  { intros F0. assert (Hlt : mx < 2 ^ n).
    { destruct (Z.lt_ge_cases mx (2 ^ n)) as [L|G]; [exact L|].
      assert (1 <= f); [|lia].
      apply Z.div_le_lower_bound; lia. }
    assert (Hdn : d <= n).
    { destruct (Z.eq_dec mx 0) as [Z0|NZ]; [unfold d; rewrite Z0; simpl; lia|].
      pose proof (Zdigits2_bounds mx ltac:(lia)) as B. fold d in B.
      destruct (Z.le_gt_cases d n) as [L|G]; [exact L|].
      assert (2 ^ n <= 2 ^ (d - 1)) by (apply Z.pow_le_mono_r; lia). lia. }
    unfold n, e1 in *. rewrite fexp_eq in *. lia. }
  exists m1. split; [exact Hr|]. split; [|split; [exact Hmin|]].
  - intros E. apply Ei. destruct (inexact mrs) eqn:Ein; [reflexivity|].
    apply loc_of_shr_exact in Ein. specialize (Hx Ein). lia.
  - pose proof (finish_spec s m1 e1 ltac:(lia)) as Fin.
    destruct (shr_fexp prec emax m1 e1 loc_Exact) as [mrs2 e2].
    apply Fin. clear Fin.
    destruct (Z.eq_dec m1 0) as [Z1|NZ1]; [now left|right].
    destruct (Z.eq_dec f 0) as [F0|FN].
    + (* everything was cut off: the result is the least subnormal *)
      left. assert (m1 = 1) by lia. subst m1. split; [lia|].
      rewrite H. simpl Zdigits2. rewrite (Hmin F0).
      rewrite fexp_eq. lia.
    + assert (Hfd : 2 ^ (d - n - 1) <= f < 2 ^ (d - n) /\ n < d).
      { assert (0 < mx).
        { destruct (Z.eq_dec mx 0) as [Z0|]; [|lia].
          unfold f in FN. rewrite Z0, Z.div_0_l in FN; lia. }
        pose proof (Zdigits2_bounds mx ltac:(lia)) as B. fold d in B.
        assert (n < d).
        { destruct (Z.lt_ge_cases n d) as [L|G]; [exact L|].
          assert (2 ^ d <= 2 ^ n) by (apply Z.pow_le_mono_r; lia).
          assert (f = 0); [|lia]. apply Z.div_small. lia. }
        split; [|assumption]. split.
        - apply Z.div_le_lower_bound; [lia|].
          rewrite <- Z.pow_add_r by lia. replace (n + (d - n - 1)) with (d - 1) by lia.
          lia.
        - apply Z.div_lt_upper_bound; [lia|].
          rewrite <- Z.pow_add_r by lia. replace (n + (d - n)) with d by lia.
          lia. }
      destruct Hfd as (Bf & Hnd).
      assert (Hcf : fexp (d - n + e1) = e1).
      { replace (d - n + e1) with (d + ex) by (unfold n; lia). reflexivity. }
      destruct (Z.eq_dec m1 (2 ^ (d - n))) as [Ec|Nc].
      * (* the carry: a power of two with one more digit *)
        destruct (fexp_succ (d - n + e1)) as [S0|S1].
        -- left. split; [lia|]. rewrite Ec.
           rewrite (Zdigits2_unique (2 ^ (d - n)) (d - n + 1)).
           ++ replace (d - n + 1 + e1) with (d - n + e1 + 1) by lia. lia.
           ++ replace (d - n + 1 - 1) with (d - n) by lia. split; [lia|].
              apply Z.pow_lt_mono_r; lia.
           ++ apply Z.pow_pos_nonneg; lia.
        -- right. exists (d - n). split; [lia|]. split; [exact Ec|].
           replace (d - n + 1 + e1) with (d - n + e1 + 1) by lia. lia.
      * left. split; [lia|].
        rewrite (Zdigits2_unique m1 (d - n)); [exact Hcf| |lia].
        replace (d - n - 1) with (d - n - 1) in Bf by lia. lia.
Qed.

Import Stdlib.Reals.Reals Stdlib.micromega.Lra.

(** On canonical numbers the order of the values is the order of the
    pairs (exponent, mantissa). *)
Lemma canonical_lt (m1 e1 m2 e2 : Z) :
  canonical m1 e1 -> canonical m2 e2 ->
  e1 < e2 \/ (e1 = e2 /\ m1 < m2) ->
  (F2R m1 e1 < F2R m2 e2)%R.
Proof.
  intros [P1 C1] [P2 C2] [L|[E L]].
  - assert (Hd : Zdigits2 m1 + e1 < Zdigits2 m2 + e2).
    { destruct (Z.lt_ge_cases (Zdigits2 m1 + e1) (Zdigits2 m2 + e2)) as [H|H];
        [exact H|]. apply fexp_mono in H. lia. }
    pose proof (F2R_digits m1 e1 P1) as [_ U].
    pose proof (F2R_digits m2 e2 P2) as [L2 _].
    pose proof (bpow_le (Zdigits2 m1 + e1) (Zdigits2 m2 + e2 - 1) ltac:(lia)).
    lra.
  - subst e2. now apply F2R_lt_mono.
Qed.

Lemma canonical_le (m1 e1 m2 e2 : Z) :
  canonical m1 e1 -> canonical m2 e2 ->
  (F2R m1 e1 <= F2R m2 e2)%R <-> e1 < e2 \/ (e1 = e2 /\ m1 <= m2).
Proof.
  intros H1 H2. split.
  - intros H.
    destruct (Z.lt_trichotomy e1 e2) as [L|[E|G]]; [now left| |].
    + right. split; [exact E|]. subst e2. now apply F2R_le_inv in H.
    + pose proof (canonical_lt m2 e2 m1 e1 H2 H1 (or_introl G)). lra.
  - intros [L|[E L]].
    + apply Rlt_le. apply canonical_lt; auto.
    + subst e2. now apply F2R_le_mono.
Qed.

Lemma canonical_ge_emin (m e : Z) : canonical m e -> emin <= e.
Proof. intros [_ <-]. apply fexp_ge_emin. Qed.

Lemma rounded_inv (s : bool) (m1 e1 : Z) (r : spec_float) :
  rounded s m1 e1 r ->
  (m1 = 0 /\ r = S754_zero s) \/
  exists (m2 : positive) (e2 : Z),
    canonical (Z.pos m2) e2 /\ F2R (Z.pos m2) e2 = F2R m1 e1 /\
    r = if e2 <=? emax - prec then S754_finite s m2 e2 else S754_infinity s.
Proof.
  intros [Z0|m2 e2 He Hc]; [now left|right].
  exists m2, e2. split; [exact Hc|]. split; [|reflexivity].
  destruct He as [[<- ->]|[<- ->]]; [reflexivity|].
  rewrite <- (F2R_shift (Z.pos m2) e1 1) by lia. f_equal. lia.
Qed.

Lemma rounded_valid (s : bool) (m1 e1 : Z) (r : spec_float) :
  rounded s m1 e1 r -> valid_binary prec emax r = true.
Proof.
  intros [Z0|m2 e2 He [Hp Hc]]; [reflexivity|].
  destruct (e2 <=? emax - prec) eqn:E; [|reflexivity].
  cbn [valid_binary]. unfold bounded, canonical_mantissa.
  apply andb_true_intro. split; [|exact E].
  apply Z.eqb_eq. exact Hc.
Qed.

(** Rounding does not pass a canonical number above the exact one. *)
Lemma round_aux_upper (s : bool) (mx ex : Z) (lx : location) (v : R)
    (mB eB : Z) :
  0 <= mx -> ex <= fexp (Zdigits2 mx + ex) ->
  located mx ex lx v ->
  canonical mB eB -> eB <= emax - prec -> (v <= F2R mB eB)%R ->
  let r := binary_round_aux prec emax s mx ex lx in
  r = S754_zero s \/
  exists (m2 : positive) (e2 : Z),
    r = S754_finite s m2 e2 /\ canonical (Z.pos m2) e2 /\
    (e2 < eB \/ (e2 = eB /\ Z.pos m2 <= mB)).
Proof.
  intros Hm He (Lv & Uv & Sv) HB HeB Hv r.
  destruct (binary_round_aux_spec s mx ex lx Hm He) as (m1 & Hr & Hup & Hmin & Hrd).
  fold r in Hrd.
  set (e1 := fexp (Zdigits2 mx + ex)) in *. set (n := e1 - ex) in *.
  set (f := mx / 2 ^ n) in *.
  assert (Hn : 0 <= n) by (unfold n; lia).
  assert (Hpn : 0 < 2 ^ n) by (apply Z.pow_pos_nonneg; lia).
  assert (Hf : 0 <= f) by (apply Z.div_pos; lia).
  assert (Hfm : f * 2 ^ n <= mx).
  { unfold f. rewrite Z.mul_comm. apply Z.mul_div_le. lia. }
  assert (Hfv : (F2R f e1 <= v)%R).
  { replace e1 with (ex + n) by (unfold n; lia). rewrite <- F2R_shift by lia.
    pose proof (F2R_le_mono _ _ ex Hfm). lra. }
  assert (He1B : e1 <= eB).
  { destruct (Z.eq_dec f 0) as [F0|FN].
    - rewrite (Hmin F0). now apply (canonical_ge_emin mB).
    - assert (Hmx : 0 < mx).
      { destruct (Z.eq_dec mx 0) as [Z0|]; [|lia].
        unfold f in FN. rewrite Z0, Z.div_0_l in FN; lia. }
      destruct HB as [PB CB]. rewrite <- CB. apply fexp_mono.
      pose proof (F2R_digits mx ex Hmx) as [L _].
      pose proof (F2R_digits mB eB PB) as [_ U].
      assert (Hlt : (bpow (Zdigits2 mx + ex - 1) < bpow (Zdigits2 mB + eB))%R) by lra.
      apply bpow_lt_inv in Hlt. lia. }
  assert (Hm1B : (F2R m1 e1 <= F2R mB eB)%R).
  { destruct (Z.eq_dec m1 f) as [->|Nf]; [lra|].
    assert (E1 : m1 = f + 1) by lia.
    assert (Hstrict : (F2R f e1 < v)%R).
    { destruct (Hup E1) as [Hl|Hmod].
      - specialize (Sv Hl).
        replace e1 with (ex + n) by (unfold n; lia). rewrite <- F2R_shift by lia.
        pose proof (F2R_le_mono _ _ ex Hfm). lra.
      - assert (f * 2 ^ n < mx).
        { pose proof (Z.div_mod mx (2 ^ n) ltac:(lia)) as D.
          pose proof (Z.mod_pos_bound mx (2 ^ n) Hpn). fold f in D. lia. }
        replace e1 with (ex + n) by (unfold n; lia). rewrite <- F2R_shift by lia.
        pose proof (F2R_lt_mono _ _ ex H). lra. }
    replace eB with (e1 + (eB - e1)) in * by lia.
    rewrite <- F2R_shift in * by lia.
    apply F2R_le_mono. subst m1.
    assert (f < mB * 2 ^ (eB - e1)); [|lia].
    apply (F2R_lt_inv _ _ e1). lra. }
  destruct (rounded_inv s m1 e1 r Hrd) as [[Z0 ->]|(m2 & e2 & Hc & Hval & Hres)];
    [now left|right].
  exists m2, e2.
  assert (Hle : e2 < eB \/ (e2 = eB /\ Z.pos m2 <= mB)).
  { apply (canonical_le (Z.pos m2) e2 mB eB Hc HB). lra. }
  assert (He2 : (e2 <=? emax - prec) = true) by (apply Z.leb_le; lia).
  rewrite He2 in Hres. auto.
Qed.
End Rounding.

(** ** The operations: sums, square roots and quotients *)

Section Operations.
Variables prec emax : Z.
Hypothesis prec_pos : 0 < prec.
Local Notation "'emin'" := (SpecFloat.emin prec emax).
Local Notation "'fexp'" := (SpecFloat.fexp prec emax).
Local Notation "'canonical'" := (canonical prec emax).
Local Notation "'rounded'" := (rounded prec emax).
Import Stdlib.Reals.Reals Stdlib.micromega.Lra.

(** Rounding an exact number that is at least the least positive number
    of the format does not give zero. *)
Lemma round_aux_nonzero (s : bool) (mx ex : Z) (lx : location) (v : R) :
  0 <= mx -> ex <= fexp (Zdigits2 mx + ex) ->
  (v < F2R (mx + 1) ex)%R -> (bpow emin <= v)%R ->
  exists (m2 : positive) (e2 : Z),
    canonical (Z.pos m2) e2 /\
    binary_round_aux prec emax s mx ex lx =
      if e2 <=? emax - prec then S754_finite s m2 e2 else S754_infinity s.
Proof.
  intros Hm He Uv Lv.
  destruct (binary_round_aux_spec prec emax prec_pos s mx ex lx Hm He)
    as (m1 & Hr & _ & Hmin & Hrd).
  set (e1 := fexp (Zdigits2 mx + ex)) in *. set (n := e1 - ex) in *.
  set (f := mx / 2 ^ n) in *.
  assert (Hn : 0 <= n) by (unfold n; lia).
  assert (Hpn : 0 < 2 ^ n) by (apply Z.pow_pos_nonneg; lia).
  destruct (rounded_inv prec emax s m1 e1 _ Hrd) as [[Z0 _]|(m2 & e2 & Hc & _ & Hres)].
  - exfalso. assert (F0 : f = 0).
    { assert (0 <= f) by (apply Z.div_pos; lia). lia. }
    specialize (Hmin F0).
    assert (Hlt : mx < 2 ^ n).
    { apply Z.div_small_iff in F0; lia. }
    assert (Hle : (F2R (mx + 1) ex <= bpow emin)%R).
    { rewrite <- Hmin, <- F2R_bpow. replace e1 with (ex + n) by (unfold n; lia).
      rewrite <- F2R_shift by lia. apply F2R_le_mono. lia. }
    lra.
  - exists m2, e2. auto.
Qed.

Lemma iter_xO (m p : positive) : Pos.iter xO m p = (m * 2 ^ p)%positive.
Proof.
  induction p using Pos.peano_ind.
  - simpl. lia.
  - rewrite Pos.iter_succ, Pos.pow_succ_r, IHp. lia.
Qed.

(** [shl_align] brings the exponent down to [e'] when it is above. *)
Lemma shl_align_spec (m : positive) (e e' : Z) :
  let '(m', e1) := shl_align m e e' in
  e1 = Z.min e e' /\ Z.pos m' = Z.pos m * 2 ^ (e - e1).
Proof.
  unfold shl_align. destruct (e' - e) as [|p|p] eqn:E.
  - split; [lia|]. rewrite Z.sub_diag. simpl. lia.
  - split; [lia|]. rewrite Z.sub_diag. simpl. lia.
  - split; [lia|]. replace (e - e') with (Z.pos p) by lia.
    change (PosDef.Pos.iter xO m p) with (Pos.iter xO m p).
    rewrite iter_xO, Pos2Z.inj_mul, Pos2Z.inj_pow. reflexivity.
Qed.

Lemma Zdigits2_shift (m k : Z) :
  0 < m -> 0 <= k -> Zdigits2 (m * 2 ^ k) = Zdigits2 m + k.
Proof.
  intros Hm Hk. pose proof (Zdigits2_bounds m Hm) as [L U].
  pose proof (Zdigits2_pos m Hm) as P.
  assert (Hp : 0 < 2 ^ k) by (apply Z.pow_pos_nonneg; lia).
  apply Zdigits2_unique; [|nia].
  replace (Zdigits2 m + k - 1) with (Zdigits2 m - 1 + k) by lia.
  rewrite !Z.pow_add_r by lia. nia.
Qed.

(** [binary_round] aligns the mantissa first, so that its result is always
    a number of the format. *)
Lemma binary_round_valid (s : bool) (m : positive) (e : Z) :
  valid_binary prec emax (binary_round prec emax s m e) = true.
Proof.
  unfold binary_round.
  pose proof (shl_align_spec m e (fexp (Z.pos (digits2_pos m) + e))) as A.
  destruct (shl_align m e (fexp (Z.pos (digits2_pos m) + e))) as [mz ez].
  destruct A as [Ee Em].
  assert (He : ez <= fexp (Zdigits2 (Z.pos mz) + ez)).
  { rewrite Em, Zdigits2_shift by lia.
    change (Zdigits2 (Z.pos m)) with (Z.pos (digits2_pos m)).
    replace (Z.pos (digits2_pos m) + (e - ez) + ez) with (Z.pos (digits2_pos m) + e)
      by lia.
    lia. }
  destruct (binary_round_aux_spec prec emax prec_pos s (Z.pos mz) ez loc_Exact
              ltac:(lia) He) as (m1 & _ & _ & _ & Hrd).
  exact (rounded_valid prec emax s m1 _ _ Hrd).
Qed.

Lemma binary_normalize_valid (m e : Z) (sz : bool) :
  valid_binary prec emax (binary_normalize prec emax m e sz) = true.
Proof.
  destruct m; simpl; [reflexivity| |]; apply binary_round_valid.
Qed.

Lemma SFadd_valid (x y : spec_float) :
  valid_binary prec emax x = true -> valid_binary prec emax y = true ->
  valid_binary prec emax (SFadd prec emax x y) = true.
Proof.
  intros Vx Vy.
  destruct x as [sx|sx| |sx mx ex], y as [sy|sy| |sy my ey];
    try destruct sx; try destruct sy; try reflexivity; try assumption.
  all: apply binary_normalize_valid.
Qed.

(** A sum whose first term is a finite number of the format is a number of
    the format whatever the second term is. *)
Lemma SFadd_valid_l (sx : bool) (mx : positive) (ex : Z) (y : spec_float) :
  valid_binary prec emax (S754_finite sx mx ex) = true ->
  valid_binary prec emax (SFadd prec emax (S754_finite sx mx ex) y) = true.
Proof.
  intros Vx. destruct y as [sy|sy| |sy my ey]; try reflexivity; try assumption.
  apply binary_normalize_valid.
Qed.

Lemma Zdigits2_ge (q k : Z) : 0 < q -> 2 ^ (k - 1) <= q -> k <= Zdigits2 q.
Proof.
  intros Hq H. pose proof (Zdigits2_bounds q Hq) as [_ U].
  pose proof (Zdigits2_pos q Hq).
  destruct (Z.le_gt_cases k (Zdigits2 q)) as [L|G]; [exact L|].
  assert (2 ^ Zdigits2 q <= 2 ^ (k - 1)) by (apply Z.pow_le_mono_r; lia). lia.
Qed.

(** The integer square root that [SFsqrt] rounds: it is positive, has
    enough digits for the format, and brackets the real square root. *)
Lemma sqrt_core_spec (m : positive) (e : Z) :
  let '(q, e', l) := SFsqrt_core_binary prec emax (Z.pos m) e in
  0 < q /\ e' <= fexp (Zdigits2 q + e') /\
  located q e' l (sqrt (F2R (Z.pos m) e)).
Proof.
  unfold SFsqrt_core_binary.
  set (d := Zdigits2 (Z.pos m)).
  set (e' := Z.min (fexp (Z.div2 (d + e + 1))) (Z.div2 e)).
  set (s := e - 2 * e').
  assert (Hd : 0 < d) by (apply Zdigits2_pos; lia).
  assert (He' : 2 * e' <= e).
  { unfold e'. rewrite !Z.div2_div. pose proof (Z.mul_div_le e 2 ltac:(lia)). lia. }
  assert (Hs : 0 <= s) by (unfold s; lia).
  set (m' := match s with Z.pos _ => Z.shiftl (Z.pos m) s | 0 => Z.pos m | Z.neg _ => 0 end).
  assert (Hm' : m' = Z.pos m * 2 ^ s).
  { unfold m'. destruct s as [|p|p] eqn:Es; try lia.
    apply Z.shiftl_mul_pow2. lia. }
  assert (Hps : 0 < 2 ^ s) by (apply Z.pow_pos_nonneg; lia).
  assert (Hm'pos : 0 < m') by nia.
  pose proof (Z.sqrtrem_spec m' ltac:(lia)) as Sq.
  destruct (Z.sqrtrem m') as [q r]. destruct Sq as [Eq Hr].
  assert (Hq : 0 < q) by nia.
  split; [exact Hq|]. split.
  - (* enough digits *)
    assert (Hdm : Zdigits2 m' = d + s) by (rewrite Hm'; apply Zdigits2_shift; lia).
    pose proof (Zdigits2_bounds m' Hm'pos) as [L _]. rewrite Hdm in L.
    pose proof (Zdigits2_bounds q Hq) as [_ U].
    pose proof (Zdigits2_pos q Hq) as Pq.
    set (dq := Zdigits2 q) in *.
    assert (H2 : 2 ^ (d + s - 1) < 2 ^ (2 * dq)).
    { replace (2 * dq) with (dq + dq) by lia. rewrite Z.pow_add_r by lia.
      assert (0 < 2 ^ dq) by (apply Z.pow_pos_nonneg; lia). nia. }
    apply Z.pow_lt_mono_r_iff in H2; try lia.
    assert (Hge : Z.div2 (d + e + 1) <= dq + e').
    { rewrite Z.div2_div. unfold s in H2.
      pose proof (Z.div_mod (d + e + 1) 2 ltac:(lia)).
      pose proof (Z.mod_pos_bound (d + e + 1) 2 ltac:(lia)). lia. }
    apply (fexp_mono prec emax) in Hge. unfold e' at 1. lia.
  - (* the location *)
    assert (Hv : sqrt (F2R (Z.pos m) e) = (sqrt (IZR m') * bpow e')%R).
    { replace e with (2 * e' + s) by (unfold s; lia).
      rewrite <- F2R_shift, <- Hm' by lia. unfold F2R.
      replace (2 * e') with (e' + e') by lia. rewrite bpow_add.
      pose proof (bpow_pos e').
      rewrite sqrt_mult; [|apply IZR_le; lia|nra].
      rewrite sqrt_square by lra. reflexivity. }
    rewrite Hv. unfold located, F2R. pose proof (bpow_pos e') as Hb.
    assert (Hlo : (IZR q <= sqrt (IZR m'))%R).
    { rewrite <- (sqrt_square (IZR q)) by (apply IZR_le; lia).
      apply sqrt_le_1_alt. rewrite <- mult_IZR. apply IZR_le. nia. }
    assert (Hhi : (sqrt (IZR m') < IZR (q + 1))%R).
    { rewrite <- (sqrt_square (IZR (q + 1))) by (apply IZR_le; lia).
      apply sqrt_lt_1_alt. split; [apply IZR_le; lia|].
      rewrite <- mult_IZR. apply IZR_lt. nia. }
    split; [nra|]. split; [nra|].
    intros Hl. assert (Hrn : r <> 0).
    { intros ->. apply Hl. reflexivity. }
    assert (IZR q < sqrt (IZR m'))%R; [|nra].
    rewrite <- (sqrt_square (IZR q)) by (apply IZR_le; lia).
    apply sqrt_lt_1_alt. split; [apply Rmult_le_pos; apply IZR_le; lia|].
    rewrite <- mult_IZR. apply IZR_lt. nia.
Qed.

(** The integer quotient that [SFdiv] rounds: it is not negative, has
    enough digits for the format, and brackets the real quotient. *)
Lemma div_core_spec (m1 m2 : positive) (e1 e2 : Z) :
  let '(q, e', l) := SFdiv_core_binary prec emax (Z.pos m1) e1 (Z.pos m2) e2 in
  0 <= q /\ e' <= fexp (Zdigits2 q + e') /\
  (F2R q e' <= F2R (Z.pos m1) e1 / F2R (Z.pos m2) e2 < F2R (q + 1) e')%R.
Proof.
  unfold SFdiv_core_binary.
  set (d1 := Zdigits2 (Z.pos m1)). set (d2 := Zdigits2 (Z.pos m2)).
  set (e' := Z.min (fexp (d1 + e1 - (d2 + e2))) (e1 - e2)).
  set (s := e1 - e2 - e').
  assert (Hs : 0 <= s) by (unfold s, e'; lia).
  set (m' := match s with Z.pos _ => Z.shiftl (Z.pos m1) s | 0 => Z.pos m1 | Z.neg _ => 0 end).
  assert (Hm' : m' = Z.pos m1 * 2 ^ s).
  { unfold m'. destruct s as [|p|p] eqn:Es; try lia.
    apply Z.shiftl_mul_pow2. lia. }
  assert (Hps : 0 < 2 ^ s) by (apply Z.pow_pos_nonneg; lia).
  assert (Hm'pos : 0 < m') by nia.
  pose proof (Z_div_mod m' (Z.pos m2) ltac:(lia)) as Dv.
  destruct (Z.div_eucl m' (Z.pos m2)) as [q r]. destruct Dv as [Eq Hr].
  assert (Hq : 0 <= q) by nia.
  split; [exact Hq|]. split.
  - (* enough digits *)
    pose proof (Zdigits2_bounds (Z.pos m1) ltac:(lia)) as [L1 _].
    pose proof (Zdigits2_bounds (Z.pos m2) ltac:(lia)) as [_ U2].
    pose proof (Zdigits2_pos (Z.pos m1) ltac:(lia)) as P1.
    pose proof (Zdigits2_pos (Z.pos m2) ltac:(lia)) as P2.
    fold d1 in L1, P1. fold d2 in U2, P2.
    set (D := d1 + e1 - (d2 + e2)) in *.
    destruct (Z.le_gt_cases e' (D - 1)) as [Hle|Hgt].
    + assert (Hql : 2 ^ (D - 1 - e') <= q).
      { assert (Hk : 2 ^ (D - 1 - e') * 2 ^ d2 <= m').
        { rewrite <- Z.pow_add_r by lia. rewrite Hm'.
          replace (D - 1 - e' + d2) with (d1 - 1 + s) by (unfold D, s; lia).
          rewrite Z.pow_add_r by lia. nia. }
        assert (0 < 2 ^ (D - 1 - e')) by (apply Z.pow_pos_nonneg; lia).
        destruct (Z.le_gt_cases (2 ^ (D - 1 - e')) q) as [Ok|Bad]; [exact Ok|].
        exfalso. nia. }
      assert (Hqpos : 0 < q).
      { assert (0 < 2 ^ (D - 1 - e')) by (apply Z.pow_pos_nonneg; lia). lia. }
      assert (Hdq : D - e' <= Zdigits2 q).
      { apply Zdigits2_ge; [exact Hqpos|].
        replace (D - e' - 1) with (D - 1 - e') by lia. exact Hql. }
      assert (Hm : D <= Zdigits2 q + e') by lia.
      apply (fexp_mono prec emax) in Hm. unfold e' at 1. lia.
    + assert (He : e' <= emin).
      { unfold e' in *. rewrite (fexp_eq prec emax) in *. lia. }
      pose proof (fexp_ge_emin prec emax (Zdigits2 q + e')). lia.
  - (* the bracket *)
    assert (Hv : (F2R (Z.pos m1) e1 / F2R (Z.pos m2) e2
                  = IZR m' / IZR (Z.pos m2) * bpow e')%R).
    { replace e1 with (e2 + (e' + s)) at 1 by (unfold s; lia).
      unfold F2R. rewrite Hm', mult_IZR, !bpow_add.
      rewrite (bpow_IZR s) by lia.
      pose proof (bpow_pos e2). pose proof (bpow_pos e').
      assert (0 < IZR (Z.pos m2))%R by (apply IZR_lt; lia).
      field. split; lra. }
    rewrite Hv. unfold F2R. pose proof (bpow_pos e') as Hb.
    assert (Hm2 : (0 < IZR (Z.pos m2))%R) by (apply IZR_lt; lia).
    assert (Hlo : (IZR q <= IZR m' / IZR (Z.pos m2))%R).
    { apply Rmult_le_reg_r with (IZR (Z.pos m2)); [exact Hm2|].
      unfold Rdiv. rewrite Rmult_assoc, Rinv_l, Rmult_1_r by lra.
      rewrite <- mult_IZR. apply IZR_le. nia. }
    assert (Hhi : (IZR m' / IZR (Z.pos m2) < IZR (q + 1))%R).
    { apply Rmult_lt_reg_r with (IZR (Z.pos m2)); [exact Hm2|].
      unfold Rdiv. rewrite Rmult_assoc, Rinv_l, Rmult_1_r by lra.
      rewrite <- mult_IZR. apply IZR_lt. nia. }
    split; nra.
Qed.
End Operations.

Lemma ltb_irrefl (x : float) : B32.ltb x x = false.
Proof.
  destruct (B32.ltb x x) eqn:E; [|reflexivity].
  pose proof (ltb_leb_false _ _ E) as L.
  destruct (ltb_not_nan _ _ E) as [Hx _].
  rewrite (leb_refl x Hx) in L. discriminate.
Qed.

(** ** Ray-sphere intersection *)

(** [intersects] in terms of the discriminant and the two roots. *)
Lemma intersects_unfold (r : Ray) (s : Sphere) (minT maxT : float) :
  intersects r s minT maxT =
  if B32.ltb (discriminant r s) B32.zero then minus_one
  else if B32.leb (near_root r s) minT || B32.leb maxT (near_root r s)
       then if B32.leb (far_root r s) minT || B32.leb maxT (far_root r s)
            then minus_one
            else far_root r s
       else near_root r s.
Proof.
  unfold intersects, near_root, far_root, discriminant, coeff_a, coeff_h,
    coeff_c.
  cbv zeta. reflexivity.
Qed.

(** For numbers, the rejection test of the source is the negation of lying
    strictly inside the bounds. *)
Lemma rejected_inside (x lo hi : float) :
  B32.is_nan x = false -> B32.is_nan lo = false -> B32.is_nan hi = false ->
  B32.leb x lo || B32.leb hi x = negb (inside x lo hi).
Proof.
  intros Hx Hlo Hhi. unfold inside.
  destruct (B32.leb x lo) eqn:E1; simpl.
  - destruct (B32.ltb lo x) eqn:E2; [|reflexivity].
    apply ltb_leb_false in E2. congruence.
  - rewrite (leb_false_ltb lo x Hlo Hx E1). simpl.
    destruct (B32.leb hi x) eqn:E3; simpl.
    + destruct (B32.ltb x hi) eqn:E4; [|reflexivity].
      apply ltb_leb_false in E4. congruence.
    + now rewrite (leb_false_ltb x hi Hx Hhi E3).
Qed.

(** C1 (as amended).  [intersects] returns the sentinel [-1] when the
    discriminant is negative.  Otherwise it returns the near root unless
    that root is [<= minT] or [>= maxT], then the far root unless that is
    [<= minT] or [>= maxT], then the sentinel.  When the two roots and the
    bounds are numbers this is the first root lying strictly inside
    [(minT, maxT)], a root equal to a bound being rejected; a root that is
    a NaN passes both tests of the source: a near root that is a NaN is
    returned, and so is a far root that is a NaN when the near root is
    rejected.  The last four parts give the result in every case in which
    the discriminant is not negative. *)
Theorem intersects_roots (r : Ray) (s : Sphere) (minT maxT : float) :
  (B32.ltb (discriminant r s) B32.zero = true ->
   intersects r s minT maxT = minus_one) /\
  (B32.is_nan (near_root r s) = false -> B32.is_nan (far_root r s) = false ->
   B32.is_nan minT = false -> B32.is_nan maxT = false ->
   intersects r s minT maxT = intersects_spec r s minT maxT) /\
  (B32.ltb (discriminant r s) B32.zero = false ->
   B32.is_nan (near_root r s) = true ->
   intersects r s minT maxT = S754_nan) /\
  inside minT minT maxT = false /\ inside maxT minT maxT = false /\
  (B32.ltb (discriminant r s) B32.zero = false ->
   B32.leb (near_root r s) minT || B32.leb maxT (near_root r s) = true ->
   B32.is_nan (far_root r s) = true ->
   intersects r s minT maxT = S754_nan) /\
  (B32.ltb (discriminant r s) B32.zero = false ->
   B32.leb (near_root r s) minT || B32.leb maxT (near_root r s) = false ->
   intersects r s minT maxT = near_root r s) /\
  (B32.ltb (discriminant r s) B32.zero = false ->
   B32.leb (near_root r s) minT || B32.leb maxT (near_root r s) = true ->
   B32.leb (far_root r s) minT || B32.leb maxT (far_root r s) = false ->
   intersects r s minT maxT = far_root r s) /\
  (B32.ltb (discriminant r s) B32.zero = false ->
   B32.leb (near_root r s) minT || B32.leb maxT (near_root r s) = true ->
   B32.leb (far_root r s) minT || B32.leb maxT (far_root r s) = true ->
   intersects r s minT maxT = minus_one).
Proof.
  rewrite intersects_unfold. unfold intersects_spec.
  split; [|split; [|split; [|split; [|split; [|split; [|split; [|split]]]]]]].
  - intros ->. reflexivity.
  - intros Hn Hf Hlo Hhi.
    rewrite (rejected_inside _ _ _ Hn Hlo Hhi), (rejected_inside _ _ _ Hf Hlo Hhi).
    destruct (B32.ltb (discriminant r s) B32.zero); [reflexivity|].
    destruct (inside (near_root r s) minT maxT); simpl; [reflexivity|].
    destruct (inside (far_root r s) minT maxT); reflexivity.
  - intros -> Hn. apply is_nan_true in Hn. rewrite Hn.
    rewrite leb_nan_l, leb_nan_r. reflexivity.
  - unfold inside. now rewrite ltb_irrefl.
  - unfold inside. rewrite ltb_irrefl. apply andb_false_r.
  - intros -> -> Hf. apply is_nan_true in Hf. rewrite Hf.
    rewrite leb_nan_l, leb_nan_r. reflexivity.
  - intros -> ->. reflexivity.
  - intros -> -> ->. reflexivity.
  - intros -> -> ->. reflexivity.
Qed.

(** An instance where both roots are numbers: the ray down the z axis
    enters the ball at [t = 0.5]. *)
Lemma intersects_roots_witness :
  intersects Examples.ray_down (Examples.ball (Examples.diffuse B32.one))
    (dlit 1 3) B32.infinity = flit 5 1.
Proof.
  destruct (intersects_roots Examples.ray_down
              (Examples.ball (Examples.diffuse B32.one))
              (dlit 1 3) B32.infinity) as (_ & H & _).
  rewrite H by reflexivity. reflexivity.
Defined.

(** The claim of the specification fails where a root is a NaN: for the ray
    of direction (2^-100, 0, 0) the coefficients [a] and [h] are zero, the
    discriminant is zero and both roots are 0/0.  The source returns the
    NaN; the specification asks for the sentinel. *)
Lemma intersects_nan_root :
  let r := Examples.ray_tiny in
  let s := Examples.ball (Examples.diffuse B32.one) in
  B32.ltb (discriminant r s) B32.zero = false /\
  near_root r s = S754_nan /\ far_root r s = S754_nan /\
  intersects r s (dlit 1 3) B32.infinity = S754_nan /\
  intersects_spec r s (dlit 1 3) B32.infinity = minus_one.
Proof. vm_compute. repeat split. Qed.

(** ** The integrator *)

(** C5.  At a depth that is [<= 0] the integrator returns black at once:
    for every world and ray, with no fuel for a recursive call and without
    drawing a random number. *)
Theorem color_depth_exhausted (gen : nat -> float) (fuel : nat) (w : World)
    (r : Ray) (depth : float) (i : nat) :
  B32.leb depth B32.zero = true ->
  color gen fuel w r depth i = Done (Vec3 B32.zero B32.zero B32.zero) i.
Proof.
  intros H. destruct fuel; simpl; rewrite H; reflexivity.
Qed.

Lemma color_depth_exhausted_witness :
  color Examples.gen_half 0 world Examples.ray_down B32.zero 7%nat
  = Done (Vec3 B32.zero B32.zero B32.zero) 7%nat.
Proof. apply color_depth_exhausted. reflexivity. Defined.

(** [hit] finds nothing when every sphere answers with a negative number. *)
Lemma hit_from_all_negative (r : Ray) (ss : list Sphere) (i : nat)
    (closestT : float) (closestSphere : option (nat * Sphere)) :
  (forall s, In s ss ->
     B32.ltb (intersects r s (dlit 1 3) B32.infinity) B32.zero = true) ->
  hit_from r ss i closestT closestSphere =
  {| sphere := closestSphere; t := closestT |}.
Proof.
  revert i. induction ss as [|s rest IH]; intros i H; simpl; [reflexivity|].
  rewrite (H s (or_introl eq_refl)). simpl.
  apply IH. intros s' Hs'. apply H. now right.
Qed.

(** [hit] finds nothing when every sphere answers with a negative number
    or a number above the closest distance so far. *)
Lemma hit_from_all_skipped (r : Ray) (ss : list Sphere) (i : nat)
    (closestT : float) (closestSphere : option (nat * Sphere)) :
  (forall s, In s ss ->
     B32.ltb (intersects r s (dlit 1 3) B32.infinity) B32.zero = true \/
     B32.ltb closestT (intersects r s (dlit 1 3) B32.infinity) = true) ->
  hit_from r ss i closestT closestSphere =
  {| sphere := closestSphere; t := closestT |}.
Proof.
  revert i. induction ss as [|s rest IH]; intros i H; simpl; [reflexivity|].
  replace (B32.ltb (intersects r s (dlit 1 3) B32.infinity) B32.zero
           || B32.ltb closestT (intersects r s (dlit 1 3) B32.infinity))
    with true.
  - apply IH. intros s' Hs'. apply H. now right.
  - symmetry. apply orb_true_iff. apply H. now left.
Qed.

(** When the discriminant is negative, or the two roots are numbers, the
    specification's answer is the answer of the source. *)
Lemma intersects_is_spec (r : Ray) (s : Sphere) (minT maxT : float) :
  B32.is_nan minT = false -> B32.is_nan maxT = false ->
  B32.ltb (discriminant r s) B32.zero = true \/
  (B32.is_nan (near_root r s) = false /\ B32.is_nan (far_root r s) = false) ->
  intersects r s minT maxT = intersects_spec r s minT maxT.
Proof.
  intros Hlo Hhi H. rewrite intersects_unfold. unfold intersects_spec.
  destruct H as [->|[Hn Hf]]; [reflexivity|].
  rewrite (rejected_inside _ _ _ Hn Hlo Hhi), (rejected_inside _ _ _ Hf Hlo Hhi).
  destruct (B32.ltb (discriminant r s) B32.zero); [reflexivity|].
  destruct (inside (near_root r s) minT maxT); simpl; [reflexivity|].
  destruct (inside (far_root r s) minT maxT); reflexivity.
Qed.

(** C6 (as amended).  At a depth [> 0], a ray for which [intersects], with
    the bounds (0.001, +inf), answers for every sphere of the world with a
    negative number (the sentinel in particular) or a number above
    [FLT_MAX] gets exactly the sky colour (0.5, 0.8, 0.9), the three
    constants rounded to binary32, and no number is drawn.  This is the
    case for a ray none of whose roots lies within the bounds, provided
    that for every sphere the discriminant is negative or the two roots
    are numbers; a root that is a NaN is taken for a hit instead. *)
Theorem color_miss (gen : nat -> float) (fuel : nat) (w : World) (r : Ray)
    (depth : float) (i : nat) :
  B32.ltb B32.zero depth = true ->
  ((forall s, In s (spheres w) ->
      B32.ltb (intersects r s (dlit 1 3) B32.infinity) B32.zero = true \/
      B32.ltb B32.FLT_MAX (intersects r s (dlit 1 3) B32.infinity) = true) ->
   color gen fuel w r depth i =
   Done (Vec3 (S754_finite false 8388608 (-24))
              (S754_finite false 13421773 (-24))
              (S754_finite false 15099494 (-24))) i) /\
  ((forall s, In s (spheres w) ->
      (B32.ltb (discriminant r s) B32.zero = true \/
       (B32.is_nan (near_root r s) = false /\
        B32.is_nan (far_root r s) = false)) /\
      intersects_spec r s (dlit 1 3) B32.infinity = minus_one) ->
   color gen fuel w r depth i =
   Done (Vec3 (S754_finite false 8388608 (-24))
              (S754_finite false 13421773 (-24))
              (S754_finite false 15099494 (-24))) i).
Proof.
  intros Hd. apply ltb_leb_false in Hd.
  assert (Sky : (forall s, In s (spheres w) ->
                   B32.ltb (intersects r s (dlit 1 3) B32.infinity) B32.zero
                     = true \/
                   B32.ltb B32.FLT_MAX (intersects r s (dlit 1 3) B32.infinity)
                     = true) ->
                color gen fuel w r depth i =
                Done (Vec3 (S754_finite false 8388608 (-24))
                           (S754_finite false 13421773 (-24))
                           (S754_finite false 15099494 (-24))) i).
  { intros Hs.
    assert (Hh : sphere (hit w r) = None).
    { unfold hit. now rewrite hit_from_all_skipped. }
    destruct fuel; simpl; rewrite Hd, Hh; reflexivity. }
  split; [exact Sky|].
  intros Hs. apply Sky. intros s Hin. left.
  destruct (Hs s Hin) as [Hroots Hspec].
  rewrite (intersects_is_spec r s (dlit 1 3) B32.infinity eq_refl eq_refl Hroots).
  now rewrite Hspec.
Qed.

(** The ray of direction (0, 0, 1) looks away from the three spheres of the
    source's scene. *)
Lemma color_miss_witness :
  color Examples.gen_half 0 world
    {| origin := glm.splat B32.zero;
       direction := Vec3 B32.zero B32.zero B32.one |} rayDepth 0%nat
  = Done (Vec3 (S754_finite false 8388608 (-24))
               (S754_finite false 13421773 (-24))
               (S754_finite false 15099494 (-24))) 0%nat.
Proof.
  apply (proj1 (color_miss Examples.gen_half 0 world
                  {| origin := glm.splat B32.zero;
                     direction := Vec3 B32.zero B32.zero B32.one |}
                  rayDepth 0 eq_refl)).
  intros s [<-|[<-|[<-|[]]]]; left; reflexivity.
Defined.

Section Miss.
Import Stdlib.Reals.Reals Stdlib.micromega.Lra.
Local Open Scope R_scope.

(** The claim of the specification fails for a ray that misses a sphere
    while a root is a NaN.  The ray from the origin along the x axis, of
    direction (2^-100, 0, 0), passes the ball of radius 0.5 around
    (0, 0, -1) at distance 1: in exact arithmetic the discriminant is
    negative, and by the specification's rule no root lies within the
    bounds.  In binary32 the square of the direction underflows, the roots
    are 0/0, [intersects] returns the NaN and [hit] reports the ball; the
    integrator scatters 50 times, drawing 150 numbers, and returns black,
    not the sky colour. *)
Lemma color_miss_nan_hit :
  let r := Examples.ray_tiny in
  let s := Examples.ball (Examples.diffuse B32.one) in
  B32.ltb B32.zero rayDepth = true /\
  discriminant_of (to_real (origin r)) (to_real (direction r))
    (to_real (center s)) (B2R (radius s)) < 0 /\
  intersects_spec r s (dlit 1 3) B32.infinity = minus_one /\
  intersects r s (dlit 1 3) B32.infinity = S754_nan /\
  color Examples.gen_three_quarters 51 (Examples.scene [s]) r rayDepth 0%nat
  = Done (Vec3 B32.zero B32.zero B32.zero) 150%nat /\
  B32.zero <> S754_finite false 8388608 (-24).
Proof.
  cbv zeta. split; [reflexivity|]. split.
  - change (to_real (origin Examples.ray_tiny)) with (Vec3 0 0 0).
    change (to_real (direction Examples.ray_tiny))
      with (Vec3 (F2R 8388608 (-123)) 0 0).
    change (to_real (center (Examples.ball (Examples.diffuse B32.one))))
      with (Vec3 0 0 (- F2R 8388608 (-23))).
    change (B2R (radius (Examples.ball (Examples.diffuse B32.one))))
      with (F2R 8388608 (-24)).
    pose proof (F2R_pos 8388608 (-123) ltac:(lia)) as Hx.
    assert (E1 : F2R 8388608 (-23) = 1).
    { change 8388608%Z with (1 * 2 ^ 23)%Z. rewrite F2R_shift by lia.
      unfold F2R, bpow. simpl. lra. }
    assert (E2 : F2R 8388608 (-24) = / 2).
    { change 8388608%Z with (1 * 2 ^ 23)%Z. rewrite F2R_shift by lia.
      unfold F2R, bpow. simpl. lra. }
    rewrite E1, E2.
    unfold discriminant_of, glm.dot, glm.sub, glm.mul, glm.map2.
    cbn [vx vy vz s_add s_sub s_mul real_scalar].
    set (X := F2R 8388608 (-123)) in *. nra.
  - split; [vm_compute; reflexivity|]. split; [vm_compute; reflexivity|].
    split; [vm_compute; reflexivity | discriminate].
Qed.
End Miss.

(** C4.  At a depth [> 0], when the closest-hit query finds the sphere [s],
    the integrator's result is the constant 0.25 times the albedo of [s]
    times the colour of the scattered ray at [depth - 1], componentwise and
    whatever the material is: the computation is the scatter, the recursive
    call and that product. *)
Theorem color_hit (gen : nat -> float) (fuel : nat) (w : World) (r : Ray)
    (depth : float) (k : nat) (s : Sphere) (i : nat) :
  B32.ltb B32.zero depth = true ->
  sphere (hit w r) = Some (k, s) ->
  let p := at_ r (t (hit w r)) in
  let n := glm.div_s (glm.sub p (center s)) (radius s) in
  color gen (S fuel) w r depth i =
  (scattered <- scatter gen (S fuel) r p n (material s) ;;
   c <- color gen fuel w scattered (B32.sub depth B32.one) ;;
   ret (glm.mul (glm.scale (S754_finite false 8388608 (-25)) (albedo (material s))) c))
    i.
Proof.
  intros Hd Hh p n. apply ltb_leb_false in Hd.
  simpl. rewrite Hd, Hh. reflexivity.
Qed.

(** The ray down the z axis is reflected by the mirror ball, the reflected
    ray misses it, and the result is 0.25 times the albedo 1 times the sky
    colour. *)
Lemma color_hit_witness :
  color Examples.gen_half 1 (Examples.scene [Examples.ball (Examples.mirror B32.one)])
    Examples.ray_down B32.two 0%nat
  = Done (Vec3 (S754_finite false 8388608 (-26))
               (S754_finite false 13421773 (-26))
               (S754_finite false 15099494 (-26))) 0%nat.
Proof.
  rewrite (color_hit Examples.gen_half 0
             (Examples.scene [Examples.ball (Examples.mirror B32.one)])
             Examples.ray_down B32.two 0
             (Examples.ball (Examples.mirror B32.one)) 0)
    by reflexivity.
  reflexivity.
Defined.

(** ** Scattering *)

Section Ideal.
Import Stdlib.Reals.Reals Stdlib.micromega.Lra.
Local Open Scope R_scope.

(** In exact arithmetic [reflect] is linear in the incident vector, and
    the vector from the origin of a ray to its point at parameter [t] is
    [t] times the direction: reflecting it gives [t] times the reflection
    of the direction. *)
Lemma reflect_of_hit_point (o d n : vec R) (t : R) :
  glm.reflect (glm.sub (glm.add o (glm.scale t d)) o) n
  = glm.scale t (glm.reflect d n).
Proof.
  destruct o, d, n. unfold glm.reflect, glm.sub, glm.add, glm.scale,
    glm.scale_r, glm.dot, glm.mul, glm.map, glm.map2. simpl.
  f_equal; ring.
Qed.

(** In exact arithmetic a vector divided by the square root of its
    non-zero squared length has squared length, and so length, one. *)
Lemma normalized_unit (v : vec R) :
  0 < glm.dot v v ->
  glm.dot (glm.div_s v (sqrt (glm.dot v v))) (glm.div_s v (sqrt (glm.dot v v)))
  = 1.
Proof.
  intros H. destruct v as [x y z].
  unfold glm.div_s, glm.dot, glm.mul, glm.map, glm.map2 in *. simpl in *.
  set (l := x * x + y * y + z * z) in *.
  assert (Hs : sqrt l * sqrt l = l) by (apply sqrt_sqrt; lra).
  assert (Hn : sqrt l <> 0).
  { intros E. rewrite E in Hs. lra. }
  replace (x / sqrt l * (x / sqrt l) + y / sqrt l * (y / sqrt l)
           + z / sqrt l * (z / sqrt l))
    with (l / (sqrt l * sqrt l)) by (unfold l; field; exact Hn).
  rewrite Hs. field. lra.
Qed.
(** In exact arithmetic [reflect] about a unit vector is the mirror image:
    the component along the normal is reversed and the rest is kept. *)
Lemma reflect_mirror (I N : vec R) :
  glm.dot N N = 1 ->
  glm.dot (glm.reflect I N) N = - glm.dot I N /\
  glm.sub (glm.reflect I N) (glm.scale (glm.dot (glm.reflect I N) N) N)
  = glm.sub I (glm.scale (glm.dot I N) N).
Proof.
  destruct I as [ix iy iz], N as [nx ny nz].
  unfold glm.reflect, glm.dot, glm.sub, glm.scale, glm.scale_r, glm.mul,
    glm.map, glm.map2.
  cbn [vx vy vz s_add s_sub s_mul s_of_Z real_scalar].
  intros E.
  set (k := nx * ix + ny * iy + nz * iz).
  assert (Hn : (ix - nx * k * 2) * nx + (iy - ny * k * 2) * ny
               + (iz - nz * k * 2) * nz = - (ix * nx + iy * ny + iz * nz)).
  { replace ((ix - nx * k * 2) * nx + (iy - ny * k * 2) * ny
             + (iz - nz * k * 2) * nz)
      with (k - 2 * k * (nx * nx + ny * ny + nz * nz)) by (unfold k; ring).
    rewrite E. unfold k. ring. }
  split; [exact Hn|].
  rewrite Hn. f_equal; unfold k; ring.
Qed.
End Ideal.

(** C7 (as amended).  For a metallic material (the flag compares unequal
    to zero) [scatter] returns the ray from [p] whose direction is
    [I - n * dot(n, I) * 2] for [I = p - origin], every operation rounded
    to binary32, and draws no random number.  In exact arithmetic, for the
    hit point [origin + t * direction] that vector is [t] times the
    reflection of the incoming direction about [n], and the reflection
    about a unit [n] is the mirror image: the component along [n] is
    reversed, the rest is kept.  In binary32 the returned direction need
    not be a positive multiple of the reflected direction, since the hit
    point is rounded. *)
Theorem scatter_metallic (gen : nat -> float) (fuel : nat) (r : Ray)
    (p n : vec3) (mat : Material) (i : nat) :
  B32.truthy (metallic mat) = true ->
  let I := glm.sub p (origin r) in
  let k := B32.add (B32.add (B32.mul (vx n) (vx I)) (B32.mul (vy n) (vy I)))
                   (B32.mul (vz n) (vz I)) in
  scatter gen fuel r p n mat i =
    Done {| origin := p;
            direction :=
              Vec3 (B32.sub (vx I) (B32.mul (B32.mul (vx n) k) (B32.of_Z 2)))
                   (B32.sub (vy I) (B32.mul (B32.mul (vy n) k) (B32.of_Z 2)))
                   (B32.sub (vz I) (B32.mul (B32.mul (vz n) k) (B32.of_Z 2)))
         |} i
  /\ (forall t : Rdefinitions.R,
        glm.reflect
          (glm.sub (glm.add (to_real (origin r))
                            (glm.scale t (to_real (direction r))))
                   (to_real (origin r)))
          (to_real n)
        = glm.scale t (glm.reflect (to_real (direction r)) (to_real n)))
  /\ (glm.dot (to_real n) (to_real n) = Rdefinitions.IZR 1 ->
      let d := to_real (direction r) in
      let m := to_real n in
      glm.dot (glm.reflect d m) m = Rdefinitions.Ropp (glm.dot d m) /\
      glm.sub (glm.reflect d m) (glm.scale (glm.dot (glm.reflect d m) m) m)
      = glm.sub d (glm.scale (glm.dot d m) m)).
Proof.
  intros H. cbv zeta. split; [|split].
  - unfold scatter. rewrite H. reflexivity.
  - intros t. apply reflect_of_hit_point.
  - intros Hn. now apply reflect_mirror.
Qed.

(** The mirror ball turns the ray that comes down the z axis and hits it at
    (0, 0, -0.5), where the normal is (0, 0, 1), back up the axis. *)
Lemma scatter_metallic_witness :
  scatter Examples.gen_half 0 Examples.ray_down
    (Vec3 B32.zero B32.zero (B32.opp (flit 5 1)))
    (Vec3 B32.zero B32.zero B32.one) (Examples.mirror B32.one) 0%nat
  = Done {| origin := Vec3 B32.zero B32.zero (B32.opp (flit 5 1));
            direction := Vec3 B32.zero B32.zero (flit 5 1) |} 0%nat.
Proof.
  refine (eq_trans
    (proj1 (scatter_metallic Examples.gen_half 0 Examples.ray_down
              (Vec3 B32.zero B32.zero (B32.opp (flit 5 1)))
              (Vec3 B32.zero B32.zero B32.one) (Examples.mirror B32.one) 0
              eq_refl)) _).
  reflexivity.
Defined.

(** The claim of the specification fails where the hit point is rounded
    to the origin of the ray.  The ray from (0, 0, 2^25) down the z axis
    meets the mirror ball of radius 1.5 around (0, 0, 2^25 - 2) at
    [t = 0.5]; the point [origin + t * direction] is (0, 0, 2^25 - 0.5),
    which rounds to (0, 0, 2^25), so that [p - origin] is the zero vector
    and the returned direction is the zero vector.  The reflection of the
    direction about the normal is not zero, and the zero vector is no
    positive multiple of it. *)
Lemma scatter_metallic_not_multiple :
  let r := Examples.ray_far in
  let s := Examples.ball_far in
  let p := at_ r (hit_t r s) in
  let n := glm.div_s (glm.sub p (center s)) (radius s) in
  hit_t r s = flit 5 1 /\
  B32.truthy (metallic (material s)) = true /\
  p = origin r /\
  scatter Examples.gen_half 0 r p n (material s) 0%nat
  = Done {| origin := p; direction := Vec3 B32.zero B32.zero B32.zero |} 0%nat /\
  glm.reflect (direction r) n
  = Vec3 B32.zero B32.zero (S754_finite false 10718778 (-22)) /\
  is_zero_vec (glm.reflect (direction r) n) = false.
Proof. vm_compute. repeat split. Qed.

(** C2 (as amended).  For a material that is not metallic, when the sum of
    the normal and the drawn unit vector is near zero, [scatter] returns
    the ray from [p] whose direction is [n + n], the normal added to
    itself: the source replaces the drawn vector by [n] and then adds [n]
    as in the regular case. *)
Theorem scatter_degenerate (gen : nat -> float) (fuel : nat) (r : Ray)
    (p n : vec3) (mat : Material) (i : nat) (dir : vec3) (j : nat) :
  B32.truthy (metallic mat) = false ->
  randomUnitVec3OnSphere gen fuel i = Done dir j ->
  nearZero (glm.add n dir) = true ->
  scatter gen fuel r p n mat i =
    Done {| origin := p; direction := glm.add n n |} j.
Proof.
  intros Hm Hd Hz. unfold scatter, bind. rewrite Hm, Hd, Hz. reflexivity.
Qed.

Lemma scatter_degenerate_witness :
  scatter Examples.gen_left 1 Examples.ray_down (glm.splat B32.zero)
    Examples.unit_x (Examples.diffuse B32.one) 0%nat
  = Done {| origin := glm.splat B32.zero;
            direction := Vec3 B32.two B32.zero B32.zero |} 3%nat.
Proof.
  refine (eq_trans
    (scatter_degenerate Examples.gen_left 1 Examples.ray_down
       (glm.splat B32.zero) Examples.unit_x (Examples.diffuse B32.one) 0
       (Vec3 minus_one B32.zero B32.zero) 3 eq_refl eq_refl eq_refl) _).
  reflexivity.
Defined.

(** The claim of the specification fails: with the normal (1, 0, 0) and the
    drawn unit vector (-1, 0, 0) the sum is zero, and the direction of the
    returned ray is (2, 0, 0), not the normal. *)
Lemma scatter_degenerate_not_normal :
  let n := Examples.unit_x in
  let mat := Examples.diffuse B32.one in
  B32.truthy (metallic mat) = false /\
  randomUnitVec3OnSphere Examples.gen_left 1 0%nat
    = Done (Vec3 minus_one B32.zero B32.zero) 3%nat /\
  nearZero (glm.add n (Vec3 minus_one B32.zero B32.zero)) = true /\
  scatter Examples.gen_left 1 Examples.ray_down (glm.splat B32.zero) n mat 0%nat
    = Done {| origin := glm.splat B32.zero;
              direction := Vec3 B32.two B32.zero B32.zero |} 3%nat /\
  Vec3 B32.two B32.zero B32.zero <> n.
Proof. vm_compute. repeat split. discriminate. Qed.

(** ** The closest hit *)

Lemma ltb_leb (x y : float) : B32.ltb x y = true -> B32.leb x y = true.
Proof.
  unfold B32.ltb, B32.leb, SFltb, SFleb.
  destruct (SFcompare x y) as [[]|]; congruence.
Qed.

Lemma closest_of_step (r : Ray) (seen : list Sphere) (s : Sphere)
    (closestT : float) (closestSphere : option (nat * Sphere)) :
  B32.is_nan (hit_t r s) = false ->
  closest_of r seen closestT closestSphere ->
  if B32.ltb (hit_t r s) B32.zero || B32.ltb closestT (hit_t r s)
  then closest_of r (seen ++ [s]) closestT closestSphere
  else closest_of r (seen ++ [s]) (hit_t r s) (Some (length seen, s)).
Proof.
  intros Hnan Inv.
  assert (HcT : B32.is_nan closestT = false).
  { destruct closestSphere as [[k sk]|]; simpl in Inv.
    - destruct Inv as (_ & -> & L & _). now apply leb_not_nan in L.
    - destruct Inv as (-> & _). reflexivity. }
  destruct (B32.ltb (hit_t r s) B32.zero) eqn:Eneg; simpl.
  - (* a negative answer is skipped *)
    destruct closestSphere as [[k sk]|]; simpl in *.
    + destruct Inv as (Hk & HT & H0 & Hall). repeat split; auto.
      * rewrite nth_error_app1; [exact Hk|]. apply nth_error_Some. congruence.
      * destruct (Nat.lt_ge_cases j (length seen)) as [Hj|Hj].
        -- rewrite nth_error_app1 in H by exact Hj. now apply (Hall j sj).
        -- rewrite nth_error_app2 in H by exact Hj.
           destruct (j - length seen)%nat as [|[|]]; simpl in H; try discriminate.
           injection H as <-. apply ltb_leb_false in Eneg. congruence.
      * intros Hkj. destruct (Nat.lt_ge_cases j (length seen)) as [Hj|Hj].
        -- rewrite nth_error_app1 in H by exact Hj. now apply (Hall j sj).
        -- rewrite nth_error_app2 in H by exact Hj.
           destruct (j - length seen)%nat as [|[|]]; simpl in H; try discriminate.
           injection H as <-. apply ltb_leb_false in Eneg. congruence.
    + destruct Inv as (HT & Hall). split; [exact HT|].
      intros s' Hin. apply in_app_or in Hin. destruct Hin as [Hin|[<-|[]]].
      * now apply Hall.
      * now left.
  - destruct (B32.ltb closestT (hit_t r s)) eqn:Efar.
    + (* an answer above the closest one so far is skipped *)
      destruct closestSphere as [[k sk]|]; simpl in *.
      * destruct Inv as (Hk & HT & H0 & Hall). subst closestT.
        repeat split; auto.
        -- rewrite nth_error_app1; [exact Hk|]. apply nth_error_Some. congruence.
        -- destruct (Nat.lt_ge_cases j (length seen)) as [Hj|Hj].
           ++ rewrite nth_error_app1 in H by exact Hj. now apply (Hall j sj).
           ++ rewrite nth_error_app2 in H by exact Hj.
              destruct (j - length seen)%nat as [|[|]]; simpl in H; try discriminate.
              injection H as <-. now apply ltb_leb.
        -- intros Hkj. destruct (Nat.lt_ge_cases j (length seen)) as [Hj|Hj].
           ++ rewrite nth_error_app1 in H by exact Hj. now apply (Hall j sj).
           ++ rewrite nth_error_app2 in H by exact Hj.
              destruct (j - length seen)%nat as [|[|]]; simpl in H; try discriminate.
              now injection H as <-.
      * destruct Inv as (HT & Hall). subst closestT. split; [reflexivity|].
        intros s' Hin. apply in_app_or in Hin. destruct Hin as [Hin|[<-|[]]].
        -- now apply Hall.
        -- now right.
    + (* the answer becomes the closest one *)
      assert (H0 : B32.leb B32.zero (hit_t r s) = true)
        by (apply ltb_false_leb; auto).
      assert (Hle : B32.leb (hit_t r s) closestT = true)
        by (apply ltb_false_leb; auto).
      simpl. repeat split; auto.
      * rewrite nth_error_app2 by apply Nat.le_refl.
        now rewrite Nat.sub_diag.
      * destruct (Nat.lt_ge_cases j (length seen)) as [Hj|Hj].
        -- rewrite nth_error_app1 in H by exact Hj.
           destruct closestSphere as [[k sk]|]; simpl in Inv.
           ++ destruct Inv as (_ & -> & _ & Hall).
              apply (leb_trans _ _ _ Hle). now apply (Hall j sj).
           ++ destruct Inv as (-> & Hall).
              destruct (Hall sj (nth_error_In _ _ H)) as [Hn|Hf].
              ** apply ltb_leb_false in Hn. congruence.
              ** apply (leb_trans _ _ _ Hle). now apply ltb_leb.
        -- rewrite nth_error_app2 in H by exact Hj.
           destruct (j - length seen)%nat as [|[|]]; simpl in H; try discriminate.
           injection H as <-. now apply leb_refl.
      * intros Hkj.
        assert (Hlen : (j < length (seen ++ [s]))%nat).
        { apply nth_error_Some. congruence. }
        rewrite length_app in Hlen. simpl in Hlen. lia.
Qed.

Lemma hit_from_closest (r : Ray) (ss seen : list Sphere) (closestT : float)
    (closestSphere : option (nat * Sphere)) :
  (forall s, In s ss -> B32.is_nan (hit_t r s) = false) ->
  closest_of r seen closestT closestSphere ->
  let record := hit_from r ss (length seen) closestT closestSphere in
  closest_of r (seen ++ ss) (t record) (sphere record).
Proof.
  revert seen closestT closestSphere.
  induction ss as [|s rest IH]; intros seen closestT closestSphere Hnan Inv.
  - simpl. now rewrite app_nil_r.
  - cbn [hit_from]. change (intersects r s (dlit 1 3) B32.infinity) with (hit_t r s).
    pose proof (closest_of_step r seen s closestT closestSphere
                  (Hnan s (or_introl eq_refl)) Inv) as Step.
    replace (seen ++ s :: rest) with ((seen ++ [s]) ++ rest)
      by (rewrite <- app_assoc; reflexivity).
    replace (S (length seen)) with (length (seen ++ [s]))
      by (rewrite length_app; simpl; lia).
    destruct (B32.ltb (hit_t r s) B32.zero || B32.ltb closestT (hit_t r s));
      apply IH; auto; intros s' Hs'; apply Hnan; now right.
Qed.

(** C3 (as amended).  When no sphere makes [intersects] return a NaN, the
    closest-hit query returns the last sphere in iteration order that
    achieves the minimal intersection distance: its [t] is not negative, is
    at most the [t] of every sphere whose [t] is not negative, and is
    strictly below the [t] of every such sphere after it; of two spheres
    with equal minimal [t] the later one wins.  It returns no sphere exactly
    when every [t] is negative or above [FLT_MAX]. *)
Theorem hit_last_minimal (w : World) (r : Ray) :
  (forall s, In s (spheres w) -> B32.is_nan (hit_t r s) = false) ->
  match sphere (hit w r) with
  | Some (k, s) =>
      nth_error (spheres w) k = Some s /\
      t (hit w r) = hit_t r s /\
      B32.leb B32.zero (hit_t r s) = true /\
      forall j sj, nth_error (spheres w) j = Some sj ->
        B32.leb B32.zero (hit_t r sj) = true ->
        B32.leb (hit_t r s) (hit_t r sj) = true /\
        ((k < j)%nat -> B32.ltb (hit_t r s) (hit_t r sj) = true)
  | None =>
      forall s, In s (spheres w) ->
        B32.ltb (hit_t r s) B32.zero = true \/
        B32.ltb B32.FLT_MAX (hit_t r s) = true
  end.
Proof.
  intros Hnan.
  pose proof (hit_from_closest r (spheres w) [] B32.FLT_MAX None Hnan) as H.
  simpl in H. fold (hit w r) in H.
  assert (Init : closest_of r [] B32.FLT_MAX None).
  { split; [reflexivity|]. intros s []. }
  specialize (H Init). unfold closest_of in H.
  destruct (sphere (hit w r)) as [[k s]|]; [exact H|]. apply H.
Qed.

(** Two balls of the same place and size, a diffuse one before a mirror: the
    ray meets both at [t = 0.5] and the query returns the mirror, at
    index 1, which the theorem places last among the closest. *)
Lemma hit_last_minimal_witness :
  let w := Examples.scene [Examples.ball (Examples.diffuse B32.one);
                           Examples.ball (Examples.mirror B32.one)] in
  match sphere (hit w Examples.ray_down) with
  | Some (k, s) =>
      nth_error (spheres w) k = Some s /\
      t (hit w Examples.ray_down) = hit_t Examples.ray_down s /\
      B32.leb B32.zero (hit_t Examples.ray_down s) = true /\
      forall j sj, nth_error (spheres w) j = Some sj ->
        B32.leb B32.zero (hit_t Examples.ray_down sj) = true ->
        B32.leb (hit_t Examples.ray_down s) (hit_t Examples.ray_down sj) = true /\
        ((k < j)%nat ->
         B32.ltb (hit_t Examples.ray_down s) (hit_t Examples.ray_down sj) = true)
  | None =>
      forall s, In s (spheres w) ->
        B32.ltb (hit_t Examples.ray_down s) B32.zero = true \/
        B32.ltb B32.FLT_MAX (hit_t Examples.ray_down s) = true
  end.
Proof.
  apply (hit_last_minimal
           (Examples.scene [Examples.ball (Examples.diffuse B32.one);
                            Examples.ball (Examples.mirror B32.one)])
           Examples.ray_down).
  intros s [<-|[<-|[]]]; reflexivity.
Defined.

(** The claim of the specification fails on a tie: the ray meets the
    diffuse ball at index 0 and the mirror ball at index 1 at the same
    [t = 0.5], and the query returns the later one. *)
Lemma hit_tie_later_wins :
  let s0 := Examples.ball (Examples.diffuse B32.one) in
  let s1 := Examples.ball (Examples.mirror B32.one) in
  let w := Examples.scene [s0; s1] in
  hit_t Examples.ray_down s0 = flit 5 1 /\
  hit_t Examples.ray_down s1 = flit 5 1 /\
  hit w Examples.ray_down = {| sphere := Some (1%nat, s1); t := flit 5 1 |} /\
  s1 <> s0.
Proof. vm_compute. repeat split. discriminate. Qed.

(** ** Determinism: the result depends on the generator's numbers only *)

Lemma refines_refl {A : Type} (o : outcome A) : refines o o.
Proof. now right. Qed.

Lemma bind_refines {A B : Type} (m1 m2 : M A) (k1 k2 : A -> M B) (i : nat) :
  refines (m1 i) (m2 i) ->
  (forall a j, refines (k1 a j) (k2 a j)) ->
  refines (bind m1 k1 i) (bind m2 k2 i).
Proof.
  unfold bind. intros [H|H] Hk; rewrite H.
  - now left.
  - destruct (m2 i); [apply Hk | now right | now right].
Qed.

Section TwoRuns.
Variables g1 g2 : nat -> float.
Hypothesis same : forall n, g1 n = g2 n.

Lemma randomFloat_in_same (lo hi : float) (i : nat) :
  randomFloat_in g1 lo hi i = randomFloat_in g2 lo hi i.
Proof. unfold randomFloat_in, bind, randomFloat. now rewrite same. Qed.

Lemma randomVec2_in_same (lo hi : float) (i : nat) :
  randomVec2_in g1 lo hi i = randomVec2_in g2 lo hi i.
Proof.
  unfold randomVec2_in, bind. rewrite randomFloat_in_same.
  destruct (randomFloat_in g2 lo hi i); try reflexivity.
  rewrite randomFloat_in_same. reflexivity.
Qed.

Lemma randomVec3_in_same (lo hi : float) (i : nat) :
  randomVec3_in g1 lo hi i = randomVec3_in g2 lo hi i.
Proof.
  unfold randomVec3_in, bind. rewrite randomFloat_in_same.
  destruct (randomFloat_in g2 lo hi i); try reflexivity.
  rewrite randomFloat_in_same.
  destruct (randomFloat_in g2 lo hi cursor); try reflexivity.
  rewrite randomFloat_in_same. reflexivity.
Qed.

Lemma randomUnitVec3OnSphere_refines (f1 f2 : nat) (i : nat) :
  (f1 <= f2)%nat ->
  refines (randomUnitVec3OnSphere g1 f1 i) (randomUnitVec3OnSphere g2 f2 i).
Proof.
  revert f2 i. induction f1 as [|f1 IH]; intros f2 i Hle; [now left|].
  destruct f2 as [|f2]; [lia|]. simpl.
  apply bind_refines.
  - rewrite randomVec3_in_same. apply refines_refl.
  - intros dir j.
    match goal with |- context [if ?c then _ else _] => destruct c end.
    + apply refines_refl.
    + apply IH. lia.
Qed.

Lemma scatter_refines (f1 f2 : nat) (r : Ray) (p n : vec3) (mat : Material)
    (i : nat) :
  (f1 <= f2)%nat ->
  refines (scatter g1 f1 r p n mat i) (scatter g2 f2 r p n mat i).
Proof.
  intros Hle. unfold scatter.
  destruct (B32.truthy (metallic mat)); [apply refines_refl|].
  apply bind_refines.
  - now apply randomUnitVec3OnSphere_refines.
  - intros dir j. apply refines_refl.
Qed.

Lemma color_refines (f1 f2 : nat) (w : World) (r : Ray) (depth : float)
    (i : nat) :
  (f1 <= f2)%nat ->
  refines (color g1 f1 w r depth i) (color g2 f2 w r depth i).
Proof.
  revert f2 r depth i.
  induction f1 as [|f1 IH]; intros f2 r depth i Hle.
  - destruct f2; simpl;
      (destruct (B32.leb depth B32.zero); [apply refines_refl|]);
      (destruct (sphere (hit w r)) as [[k s]|]; [|apply refines_refl]);
      now left.
  - destruct f2 as [|f2]; [lia|]. simpl.
    destruct (B32.leb depth B32.zero); [apply refines_refl|].
    destruct (sphere (hit w r)) as [[k s]|]; [|apply refines_refl].
    apply bind_refines.
    + apply scatter_refines. lia.
    + intros scattered j. apply bind_refines.
      * apply IH. lia.
      * intros c j'. apply refines_refl.
Qed.

Lemma sample_loop_refines (w h : Z) (fov : float) (world : World)
    (f1 f2 : nat) (k x y : Z) (org acc : vec3) (i : nat) :
  (f1 <= f2)%nat ->
  refines (sample_loop g1 w h fov world f1 k x y org acc i)
          (sample_loop g2 w h fov world f2 k x y org acc i).
Proof.
  revert f2 k acc i.
  induction f1 as [|f1 IH]; intros f2 k acc i Hle.
  - destruct f2; cbn [sample_loop];
      destruct (B32.ltb (B32.of_Z k) sampleCount);
      try apply refines_refl; now left.
  - destruct f2 as [|f2]; [lia|]. cbn [sample_loop].
    destruct (B32.ltb (B32.of_Z k) sampleCount); [|apply refines_refl].
    apply bind_refines.
    + rewrite randomVec2_in_same. apply refines_refl.
    + intros offset j. apply bind_refines.
      * apply color_refines. lia.
      * intros c j'. apply IH. lia.
Qed.

Lemma pixel_refines (w h : Z) (fov : float) (world : World) (f1 f2 : nat)
    (x y : Z) (pixels : list Z) (i : nat) :
  (f1 <= f2)%nat ->
  refines (pixel g1 w h fov world f1 x y pixels i)
          (pixel g2 w h fov world f2 x y pixels i).
Proof.
  intros Hle. unfold pixel. apply bind_refines.
  - now apply sample_loop_refines.
  - intros c j. apply refines_refl.
Qed.

Lemma for_range_refines {S : Type} (body1 body2 : Z -> S -> M S) (n : nat)
    (k : Z) (s : S) (i : nat) :
  (forall k s i, refines (body1 k s i) (body2 k s i)) ->
  refines (for_range n k body1 s i) (for_range n k body2 s i).
Proof.
  intros Hb. revert k s i. induction n as [|n IH]; intros k s i; simpl.
  - apply refines_refl.
  - apply bind_refines; [apply Hb|]. intros s' j. apply IH.
Qed.

Lemma render_refines (w h : Z) (fov : float) (world : World) (f1 f2 : nat)
    (i : nat) :
  (f1 <= f2)%nat ->
  refines (render g1 w h fov world f1 i) (render g2 w h fov world f2 i).
Proof.
  intros Hle. unfold render.
  apply for_range_refines. intros y pixels j.
  apply for_range_refines. intros x pixels' j'.
  now apply pixel_refines.
Qed.
End TwoRuns.

(** C9.  The rendering loop of [main] is a function of the numbers the
    generator delivers: two runs over the same scene and dimensions whose
    generators deliver the same numbers (the same seed), each with enough
    fuel to finish, end with the same outcome, that is with pixel buffers
    equal word for word and the same number of draws, or with the same
    undefined behaviour. *)
Theorem render_deterministic (g1 g2 : nat -> float) (w h : Z) (fov : float)
    (world : World) (f1 f2 : nat) (i : nat) :
  (forall n, g1 n = g2 n) ->
  render g1 w h fov world f1 i <> OutOfFuel ->
  render g2 w h fov world f2 i <> OutOfFuel ->
  render g1 w h fov world f1 i = render g2 w h fov world f2 i.
Proof.
  intros Hsame H1 H2.
  destruct (Nat.le_ge_cases f1 f2) as [Hle|Hle].
  - destruct (render_refines g1 g2 Hsame w h fov world f1 f2 i Hle) as [E|E];
      [contradiction | exact E].
  - assert (Hsame' : forall n, g2 n = g1 n) by (intros n; symmetry; apply Hsame).
    destruct (render_refines g2 g1 Hsame' w h fov world f2 f1 i Hle) as [E|E];
      [contradiction | symmetry; exact E].
Qed.

(** Two runs over a 2 x 1 image of the empty scene, with 150 and 151 units
    of fuel: both paint the two pixels in the gamma-corrected sky colour,
    0xB4E4F1FF, after 600 draws. *)
Lemma render_deterministic_witness :
  render Examples.gen_half 2 1 Examples.fov30 (Examples.scene []) 150 0%nat
  = render (fun n => Examples.gen_half (n + 0)) 2 1 Examples.fov30
      (Examples.scene []) 151 0%nat
  /\ render Examples.gen_half 2 1 Examples.fov30 (Examples.scene []) 150 0%nat
     = Done [3034903039; 3034903039] 600%nat.
Proof.
  split.
  - apply render_deterministic.
    + intros n. reflexivity.
    + vm_compute. discriminate.
    + vm_compute. discriminate.
  - vm_compute. reflexivity.
Defined.

(** ** Bounds on the colour *)

Section Binary32.
Import Stdlib.Reals.Reals Stdlib.micromega.Lra.

Local Notation "'canonical32'" := (canonical B32.prec B32.emax).

Lemma prec32_pos : 0 < B32.prec.
Proof. reflexivity. Qed.

Lemma prec32_lt_emax : B32.prec < B32.emax.
Proof. reflexivity. Qed.

Lemma valid_canonical (s : bool) (m : positive) (e : Z) :
  B32.valid (S754_finite s m e) = true <->
  canonical32 (Z.pos m) e /\ e <= B32.emax - B32.prec.
Proof.
  unfold B32.valid, valid_binary, bounded, canonical_mantissa, canonical.
  split.
  - intros H. apply andb_prop in H. destruct H as [H1 H2].
    apply Z.eqb_eq in H1. apply Z.leb_le in H2.
    split; [split; [lia | exact H1] | exact H2].
  - intros [[_ H1] H2]. apply andb_true_intro.
    split; [apply Z.eqb_eq; exact H1 | apply Z.leb_le; exact H2].
Qed.

Lemma leb_finite_pos (m1 m2 : positive) (e1 e2 : Z) :
  B32.leb (S754_finite false m1 e1) (S754_finite false m2 e2) = true <->
  e1 < e2 \/ (e1 = e2 /\ Z.pos m1 <= Z.pos m2).
Proof.
  rewrite leb_rank by reflexivity. simpl. lia.
Qed.

(** The numbers between zero and a positive finite bound are the zeros and
    the positive finite numbers below it. *)
Lemma between_zero_and (x : float) (mX : positive) (eX : Z) :
  B32.leb B32.zero x = true ->
  B32.leb x (S754_finite false mX eX) = true ->
  (exists s, x = S754_zero s) \/
  exists m e, x = S754_finite false m e /\
    (e < eX \/ (e = eX /\ Z.pos m <= Z.pos mX)).
Proof.
  intros H0 HX. destruct x as [s|[]| |[] m e]; try discriminate.
  - left. now exists s.
  - right. exists m, e. split; [reflexivity|]. now apply leb_finite_pos.
Qed.

Lemma F2R_le_Z (m1 e1 m2 e2 c : Z) :
  c <= e1 -> c <= e2 -> m1 * 2 ^ (e1 - c) <= m2 * 2 ^ (e2 - c) ->
  (F2R m1 e1 <= F2R m2 e2)%R.
Proof.
  intros H1 H2 H.
  replace e1 with (c + (e1 - c)) at 1 by lia.
  replace e2 with (c + (e2 - c)) at 1 by lia.
  rewrite <- !F2R_shift by lia. now apply F2R_le_mono.
Qed.

(** The exponent of a product of two canonical numbers is at most the one
    the format gives to the product. *)
Lemma mul_exponent (mx my : positive) (ex ey : Z) :
  canonical32 (Z.pos mx) ex -> canonical32 (Z.pos my) ey ->
  ex + ey <= fexp B32.prec B32.emax (Zdigits2 (Z.pos (mx * my)) + (ex + ey)).
Proof.
  intros [_ Cx] [_ Cy].
  assert (Hd : Zdigits2 (Z.pos mx) + Zdigits2 (Z.pos my) - 1
               <= Zdigits2 (Z.pos (mx * my))).
  { pose proof (Zdigits2_bounds (Z.pos mx) ltac:(lia)) as [Lx _].
    pose proof (Zdigits2_bounds (Z.pos my) ltac:(lia)) as [Ly _].
    pose proof (Zdigits2_bounds (Z.pos (mx * my)) ltac:(lia)) as [_ U].
    pose proof (Zdigits2_pos (Z.pos mx) ltac:(lia)).
    pose proof (Zdigits2_pos (Z.pos my) ltac:(lia)).
    pose proof (Zdigits2_pos (Z.pos (mx * my)) ltac:(lia)).
    set (dx := Zdigits2 (Z.pos mx)) in *. set (dy := Zdigits2 (Z.pos my)) in *.
    set (d := Zdigits2 (Z.pos (mx * my))) in *.
    assert (2 ^ (dx - 1 + (dy - 1)) < 2 ^ d).
    { rewrite Z.pow_add_r by lia. rewrite Pos2Z.inj_mul in U.
      assert (0 < 2 ^ (dx - 1)) by (apply Z.pow_pos_nonneg; lia).
      assert (0 < 2 ^ (dy - 1)) by (apply Z.pow_pos_nonneg; lia).
      nia. }
    apply Z.pow_lt_mono_r_iff in H2; lia. }
  pose proof (Zdigits2_pos (Z.pos mx) ltac:(lia)).
  pose proof (Zdigits2_pos (Z.pos my) ltac:(lia)).
  rewrite fexp_eq in *. rewrite emin_eq in *.
  change B32.prec with 24 in *. change B32.emax with 128 in *. lia.
Qed.

(** The product of two numbers between zero and the bounds [X] and [Y] is
    a number between zero and any bound [B] that is at least [X * Y]. *)
Lemma mul_upper (x y : float) (mX mY mB : positive) (eX eY eB : Z) :
  B32.valid x = true -> B32.valid y = true ->
  B32.leb B32.zero x = true -> B32.leb x (S754_finite false mX eX) = true ->
  B32.leb B32.zero y = true -> B32.leb y (S754_finite false mY eY) = true ->
  B32.valid (S754_finite false mX eX) = true ->
  B32.valid (S754_finite false mY eY) = true ->
  B32.valid (S754_finite false mB eB) = true ->
  (F2R (Z.pos mX) eX * F2R (Z.pos mY) eY <= F2R (Z.pos mB) eB)%R ->
  B32.valid (B32.mul x y) = true /\
  B32.leb B32.zero (B32.mul x y) = true /\
  B32.leb (B32.mul x y) (S754_finite false mB eB) = true.
Proof.
  intros Vx Vy Hx0 HxX Hy0 HyY VX VY VB Hprod.
  destruct (between_zero_and x mX eX Hx0 HxX) as [[sx ->]|(mx & ex & -> & Lx)].
  { destruct y as [sy|[]| |[] my ey]; try discriminate; repeat split. }
  destruct (between_zero_and y mY eY Hy0 HyY) as [[sy ->]|(my & ey & -> & Ly)].
  { repeat split. }
  apply valid_canonical in Vx, Vy, VX, VY, VB.
  destruct Vx as [Cx _], Vy as [Cy _], VX as [CX _], VY as [CY _], VB as [CB EB].
  assert (Hv : (F2R (Z.pos (mx * my)) (ex + ey) <= F2R (Z.pos mB) eB)%R).
  { rewrite Pos2Z.inj_mul, <- F2R_mul.
    apply (canonical_le B32.prec B32.emax _ _ _ _ Cx CX) in Lx.
    apply (canonical_le B32.prec B32.emax _ _ _ _ Cy CY) in Ly.
    pose proof (F2R_pos (Z.pos mx) ex ltac:(lia)).
    pose proof (F2R_pos (Z.pos my) ey ltac:(lia)).
    nra. }
  unfold B32.mul, SFmul. simpl xorb.
  destruct (round_aux_upper B32.prec B32.emax prec32_pos false
              (Z.pos (mx * my)) (ex + ey) loc_Exact
              (F2R (Z.pos (mx * my)) (ex + ey)) (Z.pos mB) eB)
    as [->|(m2 & e2 & -> & C2 & L2)]; auto; try lia.
  - now apply mul_exponent.
  - split; [lra|]. split; [|congruence].
    apply F2R_lt_mono. lia.
  - split; [|split].
    + apply valid_canonical. split; [exact C2|]. lia.
    + reflexivity.
    + now apply leb_finite_pos.
Qed.

(** One bounce: 0.25 times an albedo component of [0, 1] times a colour
    component of [0, 0.9] is again a colour component of [0, 0.9]. *)
Lemma attenuate_below_sky (a c : float) :
  in_unit_interval a -> B32.valid c = true -> below_sky c ->
  B32.valid (B32.mul (B32.mul attenuation a) c) = true /\
  below_sky (B32.mul (B32.mul attenuation a) c).
Proof.
  intros (Va & La & Ua) Vc [Lc Uc].
  assert (P1 : (F2R 8388608 (-25) * F2R 8388608 (-23) <= F2R 8388608 (-25))%R).
  { rewrite F2R_mul. apply (F2R_le_Z _ _ _ _ (-48)); lia. }
  assert (P2 : (F2R 8388608 (-25) * F2R 15099494 (-24) <= F2R 15099494 (-24))%R).
  { rewrite F2R_mul. apply (F2R_le_Z _ _ _ _ (-49)); lia. }
  destruct (mul_upper attenuation a 8388608 8388608 8388608 (-25) (-23) (-25))
    as (V1 & L1 & U1); try reflexivity; auto.
  destruct (mul_upper (B32.mul attenuation a) c
              8388608 15099494 15099494 (-25) (-24) (-24))
    as (V2 & L2 & U2); try reflexivity; auto.
  split; [exact V2|]. split; [exact L2 | exact U2].
Qed.
End Binary32.

Lemma hit_from_in (r : Ray) (ss : list Sphere) (i : nat) (closestT : float)
    (closestSphere : option (nat * Sphere)) (k : nat) (s : Sphere) :
  sphere (hit_from r ss i closestT closestSphere) = Some (k, s) ->
  closestSphere = Some (k, s) \/ In s ss.
Proof.
  revert i closestT closestSphere.
  induction ss as [|s' rest IH]; intros i closestT closestSphere H; simpl in H.
  - now left.
  - destruct (B32.ltb (intersects r s' (dlit 1 3) B32.infinity) B32.zero
              || B32.ltb closestT (intersects r s' (dlit 1 3) B32.infinity)).
    + destruct (IH _ _ _ H) as [E|E]; [now left | right; now right].
    + destruct (IH _ _ _ H) as [E|E]; [|right; now right].
      injection E as _ <-. right. now left.
Qed.

Lemma hit_in (w : World) (r : Ray) (k : nat) (s : Sphere) :
  sphere (hit w r) = Some (k, s) -> In s (spheres w).
Proof.
  intros H. destruct (hit_from_in _ _ _ _ _ _ _ H) as [E|E];
    [discriminate | exact E].
Qed.

Lemma color_valid_below_sky (gen : nat -> float) (fuel : nat) (w : World)
    (r : Ray) (depth : float) (i : nat) (c : vec3) (j : nat) :
  (forall s, In s (spheres w) -> unit_albedo s) ->
  color gen fuel w r depth i = Done c j ->
  (B32.valid (vx c) = true /\ below_sky (vx c)) /\
  (B32.valid (vy c) = true /\ below_sky (vy c)) /\
  (B32.valid (vz c) = true /\ below_sky (vz c)).
Proof.
  intros Hw. revert r depth i c j.
  induction fuel as [|fuel IH]; intros r depth i c j H; simpl in H;
    (destruct (B32.leb depth B32.zero);
     [injection H as <- _; repeat split|]);
    (destruct (sphere (hit w r)) as [[k s]|] eqn:Eh;
     [|injection H as <- _; repeat split]);
    try discriminate.
  unfold bind in H.
  destruct (scatter gen (S fuel) r _ _ (material s) i) as [scattered j1| |];
    try discriminate.
  destruct (color gen fuel w scattered (B32.sub depth B32.one) j1)
    as [c' j2| |] eqn:Ec; try discriminate.
  injection H as <- _.
  destruct (IH _ _ _ _ _ Ec) as ((Vx & Bx) & (Vy & By) & (Vz & Bz)).
  destruct (Hw s (hit_in _ _ _ _ Eh)) as (Ax & Ay & Az).
  split; [|split]; simpl; now apply attenuate_below_sky.
Qed.

(** C10.  If the albedo components of every sphere are binary32 numbers of
    [0, 1], every component of a colour the integrator returns lies in
    [0, 0.9], for every ray, depth, generator and cursor: black and the sky
    colour do, and a bounce multiplies a component of [0, 0.9] by 0.25 and
    by an albedo component, which rounding keeps in the interval. *)
Theorem color_bounded (gen : nat -> float) (fuel : nat) (w : World) (r : Ray)
    (depth : float) (i : nat) (c : vec3) (j : nat) :
  (forall s, In s (spheres w) -> unit_albedo s) ->
  color gen fuel w r depth i = Done c j ->
  below_sky (vx c) /\ below_sky (vy c) /\ below_sky (vz c).
Proof.
  intros Hw H.
  destruct (color_valid_below_sky gen fuel w r depth i c j Hw H)
    as ((_ & Bx) & (_ & By) & (_ & Bz)).
  auto.
Qed.

(** The colour 0.25 * 1 * sky that the mirror ball returns for the ray down
    the z axis. *)
Lemma color_bounded_witness :
  let c := Vec3 (S754_finite false 8388608 (-26))
                (S754_finite false 13421773 (-26))
                (S754_finite false 15099494 (-26)) in
  below_sky (vx c) /\ below_sky (vy c) /\ below_sky (vz c).
Proof.
  apply (color_bounded Examples.gen_half 1
           (Examples.scene [Examples.ball (Examples.mirror B32.one)])
           Examples.ray_down B32.two 0 _ 0).
  - intros s [<-|[]]. repeat split.
  - reflexivity.
Defined.

(** ** Unit vectors *)

Section UnitVectors.
Import Stdlib.Reals.Reals Stdlib.micromega.Lra.
Local Notation "'canonical32'" := (canonical B32.prec B32.emax).

Lemma mul_valid (x y : float) :
  B32.valid x = true -> B32.valid y = true -> B32.valid (B32.mul x y) = true.
Proof.
  intros Vx Vy.
  destruct x as [sx|sx| |sx mx ex], y as [sy|sy| |sy my ey]; try reflexivity.
  apply valid_canonical in Vx, Vy. destruct Vx as [Cx _], Vy as [Cy _].
  unfold B32.mul, SFmul.
  destruct (binary_round_aux_spec B32.prec B32.emax prec32_pos (xorb sx sy)
              (Z.pos (mx * my)) (ex + ey) loc_Exact ltac:(lia)
              (mul_exponent mx my ex ey Cx Cy)) as (m1 & _ & _ & _ & Hrd).
  exact (rounded_valid B32.prec B32.emax _ m1 _ _ Hrd).
Qed.

Lemma add_valid (x y : float) :
  B32.valid x = true -> B32.valid y = true -> B32.valid (B32.add x y) = true.
Proof. apply (SFadd_valid B32.prec B32.emax prec32_pos). Qed.

Lemma F2R_one : F2R 8388608 (-23) = 1%R.
Proof.
  change 8388608 with (1 * 2 ^ 23). rewrite F2R_shift by lia.
  unfold F2R, bpow. simpl. lra.
Qed.

(** A canonical number is at least the least positive number. *)
Lemma canonical_ge_bpow_emin (m e : Z) :
  canonical32 m e -> (bpow (emin B32.prec B32.emax) <= F2R m e)%R.
Proof.
  intros [Hm Hc].
  pose proof (canonical_ge_emin B32.prec B32.emax m e (conj Hm Hc)) as He.
  rewrite <- F2R_bpow.
  apply Rle_trans with (F2R 1 e).
  - rewrite !F2R_bpow. now apply bpow_le.
  - apply F2R_le_mono. lia.
Qed.

(** The square root of a number of (0, 1] is a number of (0, 1]. *)
Lemma sqrt_of_unit (m : positive) (e : Z) :
  B32.valid (S754_finite false m e) = true ->
  B32.leb (S754_finite false m e) B32.one = true ->
  exists m2 e2,
    B32.sqrt (S754_finite false m e) = S754_finite false m2 e2 /\
    B32.valid (S754_finite false m2 e2) = true /\
    B32.leb (S754_finite false m2 e2) B32.one = true.
Proof.
  intros V L. apply valid_canonical in V. destruct V as [C E].
  assert (C1 : canonical32 8388608 (-23)) by (split; reflexivity).
  apply leb_finite_pos in L.
  apply (canonical_le B32.prec B32.emax _ _ _ _ C C1) in L.
  rewrite F2R_one in L.
  pose proof (F2R_pos (Z.pos m) e ltac:(lia)) as Hpos.
  pose proof (canonical_ge_bpow_emin _ _ C) as Hmin.
  set (x := F2R (Z.pos m) e) in *.
  assert (Hs1 : (sqrt x <= 1)%R).
  { rewrite <- sqrt_1. now apply sqrt_le_1_alt. }
  assert (Hsx : (x <= sqrt x)%R).
  { pose proof (sqrt_sqrt x ltac:(lra)) as Sq.
    pose proof (sqrt_pos x). nra. }
  unfold B32.sqrt, SFsqrt.
  pose proof (sqrt_core_spec B32.prec B32.emax m e) as Core.
  destruct (SFsqrt_core_binary B32.prec B32.emax (Z.pos m) e) as [[q e'] l].
  destruct Core as (Hq & He & Hloc). fold x in Hloc.
  assert (Hlt : (sqrt x < F2R (q + 1) e')%R) by apply Hloc.
  assert (Hge : (bpow (emin B32.prec B32.emax) <= sqrt x)%R) by lra.
  assert (Hle : (sqrt x <= F2R 8388608 (-23))%R) by (rewrite F2R_one; exact Hs1).
  destruct (round_aux_nonzero B32.prec B32.emax prec32_pos false q e' l (sqrt x)
              ltac:(lia) He Hlt Hge) as (m2 & e2 & C2 & R2).
  destruct (round_aux_upper B32.prec B32.emax prec32_pos false q e' l (sqrt x)
              8388608 (-23) ltac:(lia) He Hloc C1 ltac:(vm_compute; discriminate) Hle)
    as [Z0|(m3 & e3 & R3 & C3 & L3)].
  - rewrite R2 in Z0. destruct (e2 <=? B32.emax - B32.prec); discriminate.
  - exists m3, e3. split; [exact R3|]. split.
    + apply valid_canonical. split; [exact C3|].
      change (B32.emax - B32.prec) with 104. lia.
    + now apply leb_finite_pos.
Qed.

(** A non-zero number of the format divided by a number of (0, 1] is not
    zero. *)
Lemma div_by_unit_nonzero (sx : bool) (mx my : positive) (ex ey : Z) :
  B32.valid (S754_finite sx mx ex) = true ->
  B32.valid (S754_finite false my ey) = true ->
  B32.leb (S754_finite false my ey) B32.one = true ->
  B32.eqb (B32.div (S754_finite sx mx ex) (S754_finite false my ey)) B32.zero
  = false.
Proof.
  intros Vx Vy L.
  apply valid_canonical in Vx, Vy. destruct Vx as [Cx _], Vy as [Cy _].
  assert (C1 : canonical32 8388608 (-23)) by (split; reflexivity).
  apply leb_finite_pos in L.
  apply (canonical_le B32.prec B32.emax _ _ _ _ Cy C1) in L.
  rewrite F2R_one in L.
  pose proof (F2R_pos (Z.pos my) ey ltac:(lia)) as Hy.
  pose proof (canonical_ge_bpow_emin _ _ Cx) as Hx.
  pose proof (bpow_pos (emin B32.prec B32.emax)) as Hb.
  set (x := F2R (Z.pos mx) ex) in *. set (y := F2R (Z.pos my) ey) in *.
  assert (Hq : (x <= x / y)%R).
  { apply Rmult_le_reg_r with y; [exact Hy|].
    unfold Rdiv. rewrite Rmult_assoc, Rinv_l, Rmult_1_r by lra. nra. }
  unfold B32.div, SFdiv.
  pose proof (div_core_spec B32.prec B32.emax prec32_pos mx my ex ey) as Core.
  destruct (SFdiv_core_binary B32.prec B32.emax (Z.pos mx) ex (Z.pos my) ey)
    as [[q e'] l].
  destruct Core as (Hq0 & He & Hlo & Hhi). fold x y in Hlo, Hhi.
  destruct (round_aux_nonzero B32.prec B32.emax prec32_pos (xorb sx false)
              q e' l (x / y)%R Hq0 He Hhi ltac:(lra)) as (m2 & e2 & C2 & R2).
  rewrite R2. destruct (e2 <=? B32.emax - B32.prec), (xorb sx false); reflexivity.
Qed.
End UnitVectors.

Lemma dot_self (x y z : float) :
  glm.dot (Vec3 x y z) (Vec3 x y z)
  = B32.add (B32.add (B32.mul x x) (B32.mul y y)) (B32.mul z z).
Proof. reflexivity. Qed.

Lemma randomFloat_in_valid (gen : nat -> float) (k : nat) (x : float) (j : nat) :
  randomFloat_in gen minus_one B32.one k = Done x j ->
  B32.valid x = true /\ j = S k.
Proof.
  unfold randomFloat_in, bind, randomFloat, ret. intros H. injection H as <- <-.
  split; [|reflexivity].
  apply (SFadd_valid_l B32.prec B32.emax prec32_pos). reflexivity.
Qed.

Lemma randomVec3_in_valid (gen : nat -> float) (k : nat) (dir : vec3) (j : nat) :
  randomVec3_in gen minus_one B32.one k = Done dir j ->
  B32.valid (vx dir) = true /\ B32.valid (vy dir) = true /\
  B32.valid (vz dir) = true.
Proof.
  unfold randomVec3_in, bind. intros H.
  destruct (randomFloat_in gen minus_one B32.one k) as [x j1| |] eqn:E1;
    try discriminate.
  destruct (randomFloat_in gen minus_one B32.one j1) as [y j2| |] eqn:E2;
    try discriminate.
  destruct (randomFloat_in gen minus_one B32.one j2) as [z j3| |] eqn:E3;
    try discriminate.
  injection H as <- _. simpl.
  apply randomFloat_in_valid in E1, E2, E3. tauto.
Qed.

(** A candidate that passes the test of the loop has a finite component
    that is not zero: squares and sums of zeros, infinities and NaN are
    zero, infinite or NaN. *)
Lemma accepted_finite_component (x y z : float) :
  accepted (Vec3 x y z) = true ->
  (exists s m e, x = S754_finite s m e) \/
  (exists s m e, y = S754_finite s m e) \/
  (exists s m e, z = S754_finite s m e).
Proof.
  intros H.
  destruct x as [sx|sx| |sx mx ex]; [| | |left; eauto];
    (destruct y as [sy|sy| |sy my ey]; [| | |right; left; eauto]);
    (destruct z as [sz|sz| |sz mz ez]; [| | |right; right; eauto]);
    exfalso;
    repeat match goal with s : bool |- _ => destruct s end;
    vm_compute in H; discriminate.
Qed.

(** The squared length of an accepted candidate is a positive finite
    number of the format. *)
Lemma accepted_norm (x y z : float) :
  B32.valid x = true -> B32.valid y = true -> B32.valid z = true ->
  accepted (Vec3 x y z) = true ->
  exists m e,
    glm.dot (Vec3 x y z) (Vec3 x y z) = S754_finite false m e /\
    B32.valid (S754_finite false m e) = true /\
    B32.leb (S754_finite false m e) B32.one = true.
Proof.
  intros Vx Vy Vz H. unfold accepted in H. rewrite dot_self in *.
  assert (V : B32.valid (B32.add (B32.add (B32.mul x x) (B32.mul y y))
                                 (B32.mul z z)) = true).
  { repeat first [apply add_valid | apply mul_valid]; assumption. }
  apply andb_prop in H. destruct H as [H1 H2].
  destruct (B32.add (B32.add (B32.mul x x) (B32.mul y y)) (B32.mul z z))
    as [s|[]| |[] m e]; try discriminate.
  exists m, e. auto.
Qed.

(** A result of the loop is an accepted candidate, normalized. *)
Lemma randomUnitVec3OnSphere_accepts (gen : nat -> float) (fuel : nat)
    (i : nat) (v : vec3) (j : nat) :
  randomUnitVec3OnSphere gen fuel i = Done v j ->
  exists dir k,
    randomVec3_in gen minus_one B32.one k = Done dir j /\
    accepted dir = true /\
    v = glm.div_s dir (B32.sqrt (glm.dot dir dir)).
Proof.
  revert i. induction fuel as [|fuel IH]; intros i H; [discriminate|].
  cbn [randomUnitVec3OnSphere] in H. unfold bind in H.
  destruct (randomVec3_in gen minus_one B32.one i) as [dir j1| |] eqn:E;
    try discriminate.
  fold (accepted dir) in H.
  destruct (accepted dir) eqn:A.
  - injection H as <- <-. exists dir, i. auto.
  - exact (IH j1 H).
Qed.

(** Normalizing an accepted candidate divides by a number of (0, 1] and
    gives a vector with a component that is not zero. *)
Lemma normalized_nonzero (dir : vec3) :
  B32.valid (vx dir) = true -> B32.valid (vy dir) = true ->
  B32.valid (vz dir) = true ->
  accepted dir = true ->
  let s := B32.sqrt (glm.dot dir dir) in
  B32.ltb B32.zero s = true /\ B32.leb s B32.one = true /\
  is_zero_vec (glm.div_s dir s) = false.
Proof.
  destruct dir as [x y z]. cbn [vx vy vz]. intros Vx Vy Vz A. cbv zeta.
  destruct (accepted_norm x y z Vx Vy Vz A) as (m & e & El & Vl & Ll).
  destruct (sqrt_of_unit m e Vl Ll) as (m2 & e2 & Es & Vs & Ls).
  rewrite El, Es. split; [reflexivity|]. split; [exact Ls|].
  unfold is_zero_vec, glm.div_s, glm.map. cbn [vx vy vz s_div float_scalar].
  destruct (accepted_finite_component x y z A)
    as [(sc & mc & ec & ->)|[(sc & mc & ec & ->)|(sc & mc & ec & ->)]].
  - rewrite (div_by_unit_nonzero sc mc m2 ec e2 Vx Vs Ls). reflexivity.
  - rewrite (div_by_unit_nonzero sc mc m2 ec e2 Vy Vs Ls).
    apply andb_false_iff. left. apply andb_false_r.
  - rewrite (div_by_unit_nonzero sc mc m2 ec e2 Vz Vs Ls).
    apply andb_false_r.
Qed.

Section Errors.
Variables prec emax : Z.
Hypothesis prec_pos : 0 < prec.
Local Notation "'emin'" := (SpecFloat.emin prec emax).
Local Notation "'fexp'" := (SpecFloat.fexp prec emax).
Local Notation "'canonical'" := (canonical prec emax).
Local Notation "'rounded'" := (rounded prec emax).
Import Stdlib.Reals.Reals Stdlib.micromega.Lra.

(** The error of rounding: at most one unit in the last place, which is
    at most [2^(1-prec)] times the exact number or the least positive
    number of the format. *)
Lemma round_aux_error (s : bool) (mx ex : Z) (lx : location) (v : R) :
  0 <= mx -> ex <= fexp (Zdigits2 mx + ex) ->
  (F2R mx ex <= v < F2R (mx + 1) ex)%R ->
  exists m1 e1,
    rounded s m1 e1 (binary_round_aux prec emax s mx ex lx) /\
    (Rabs (F2R m1 e1 - v) <= bpow (1 - prec) * v + bpow emin)%R.
Proof.
  intros Hm He (Lv & Uv).
  destruct (binary_round_aux_spec prec emax prec_pos s mx ex lx Hm He)
    as (m1 & Hr & _ & Hmin & Hrd).
  set (e1 := fexp (Zdigits2 mx + ex)) in *. set (n := e1 - ex) in *.
  set (f := mx / 2 ^ n) in *.
  assert (Hn : 0 <= n) by (unfold n; lia).
  assert (Hpn : 0 < 2 ^ n) by (apply Z.pow_pos_nonneg; lia).
  assert (Hf : 0 <= f) by (apply Z.div_pos; lia).
  pose proof (Z.div_mod mx (2 ^ n) ltac:(lia)) as D. fold f in D.
  pose proof (Z.mod_pos_bound mx (2 ^ n) Hpn) as Hmod.
  assert (Hlo : (F2R f e1 <= v)%R).
  { replace e1 with (ex + n) by (unfold n; lia). rewrite <- F2R_shift by lia.
    pose proof (F2R_le_mono (f * 2 ^ n) mx ex ltac:(lia)). lra. }
  assert (Hhi : (v <= F2R (f + 1) e1)%R).
  { replace e1 with (ex + n) by (unfold n; lia). rewrite <- F2R_shift by lia.
    pose proof (F2R_le_mono (mx + 1) ((f + 1) * 2 ^ n) ex ltac:(lia)). lra. }
  assert (Hulp : (F2R (f + 1) e1 - F2R f e1 = bpow e1)%R).
  { unfold F2R. rewrite plus_IZR. ring. }
  assert (Hv0 : (0 <= v)%R).
  { pose proof (F2R_le_mono 0 f e1 Hf) as H0. unfold F2R at 1 in H0.
    rewrite Rmult_0_l in H0. lra. }
  assert (Hb : (bpow e1 <= bpow (1 - prec) * v + bpow emin)%R).
  { pose proof (bpow_pos (1 - prec)) as P1. pose proof (bpow_pos emin) as P2.
    destruct (Z.eq_dec e1 emin) as [E|NE].
    - rewrite E. nra.
    - assert (Hmx : 0 < mx).
      { destruct (Z.eq_dec mx 0) as [Z0|]; [|lia]. exfalso.
        unfold e1 in *. rewrite Z0 in *. simpl Zdigits2 in *.
        rewrite (fexp_eq prec emax) in *. lia. }
      assert (E1 : e1 = Zdigits2 mx + ex - prec).
      { unfold e1 in *. rewrite (fexp_eq prec emax) in *. lia. }
      pose proof (F2R_digits mx ex Hmx) as [L _].
      replace e1 with ((1 - prec) + (Zdigits2 mx + ex - 1)) by lia.
      rewrite bpow_add. nra. }
  exists m1, e1. split; [exact Hrd|].
  assert (Hm1 : (F2R f e1 <= F2R m1 e1 <= F2R (f + 1) e1)%R).
  { split; apply F2R_le_mono; lia. }
  apply Rabs_le. lra.
Qed.

Lemma binary_round_error (s : bool) (m : positive) (e : Z) :
  exists m1 e1,
    rounded s m1 e1 (binary_round prec emax s m e) /\
    (Rabs (F2R m1 e1 - F2R (Z.pos m) e)
     <= bpow (1 - prec) * F2R (Z.pos m) e + bpow emin)%R.
Proof.
  unfold binary_round.
  pose proof (shl_align_spec m e (fexp (Z.pos (digits2_pos m) + e))) as A.
  destruct (shl_align m e (fexp (Z.pos (digits2_pos m) + e))) as [mz ez].
  destruct A as [Ee Em].
  assert (He : ez <= fexp (Zdigits2 (Z.pos mz) + ez)).
  { rewrite Em, Zdigits2_shift by lia.
    change (Zdigits2 (Z.pos m)) with (Z.pos (digits2_pos m)).
    replace (Z.pos (digits2_pos m) + (e - ez) + ez) with (Z.pos (digits2_pos m) + e)
      by lia.
    lia. }
  assert (Hv : F2R (Z.pos m) e = F2R (Z.pos mz) ez).
  { rewrite Em, F2R_shift by lia. f_equal. lia. }
  rewrite Hv.
  apply round_aux_error; [lia | exact He |].
  split; [lra|]. apply F2R_lt_mono. lia.
Qed.
End Errors.

Section Errors32.
Import Stdlib.Reals.Reals Stdlib.micromega.Lra.
Local Open Scope R_scope.
Local Notation "'canonical32'" := (canonical B32.prec B32.emax).
Local Notation "'u'" := (bpow (-23)).
Local Notation "'eta'" := (bpow (-149)).

Lemma rounded_B2R (s : bool) (m1 e1 : Z) (r : float) :
  rounded B32.prec B32.emax s m1 e1 r -> is_finite r = true ->
  B2R r = (if s then - F2R m1 e1 else F2R m1 e1) /\
  (s = false -> not_negative r = true) /\ B32.valid r = true.
Proof.
  intros Hrd Hfin.
  pose proof (rounded_valid _ _ _ _ _ _ Hrd) as V.
  destruct (rounded_inv _ _ _ _ _ _ Hrd) as [[-> ->]|(m2 & e2 & C & E & ->)].
  - split; [|split; reflexivity]. unfold F2R. simpl. destruct s; ring.
  - destruct (e2 <=? B32.emax - B32.prec)%Z; [|discriminate].
    split; [simpl; now rewrite E|]. split; [now intros ->| exact V].
Qed.

(** The square of a finite number, when it does not overflow. *)
Lemma square_error (x : float) :
  B32.valid x = true -> is_finite (B32.mul x x) = true ->
  not_negative (B32.mul x x) = true /\ B32.valid (B32.mul x x) = true /\
  Rabs (B2R (B32.mul x x) - B2R x * B2R x) <= u * (B2R x * B2R x) + eta.
Proof.
  intros V Hfin. pose proof (bpow_pos (-149)) as Pe.
  destruct x as [s|s| |s m e]; try discriminate.
  - destruct s; (split; [reflexivity|]); (split; [reflexivity|]);
      cbn [B32.mul SFmul xorb B2R];
      match goal with |- Rabs ?a <= _ => replace a with 0 by ring end;
      rewrite Rabs_R0; lra.
  - apply valid_canonical in V. destruct V as [C _].
    assert (Esq : B2R (S754_finite s m e) * B2R (S754_finite s m e)
                  = F2R (Z.pos (m * m)) (e + e)).
    { rewrite Pos2Z.inj_mul, <- F2R_mul. destruct s; simpl; ring. }
    rewrite Esq. unfold B32.mul, SFmul in *.
    replace (xorb s s) with false in * by (destruct s; reflexivity).
    destruct (round_aux_error B32.prec B32.emax prec32_pos false
                (Z.pos (m * m)) (e + e) loc_Exact (F2R (Z.pos (m * m)) (e + e))
                ltac:(lia) (mul_exponent m m e e C C))
      as (m1 & e1 & Hrd & Herr).
    { split; [lra|]. apply F2R_lt_mono. lia. }
    destruct (rounded_B2R false m1 e1 _ Hrd Hfin) as (-> & Hn & Hv).
    auto.
Qed.

(** The sum of two finite numbers that are not negative, when it does not
    overflow. *)
Lemma sum_error (a b : float) :
  not_negative a = true -> not_negative b = true ->
  B32.valid a = true -> B32.valid b = true ->
  is_finite (B32.add a b) = true ->
  not_negative (B32.add a b) = true /\ B32.valid (B32.add a b) = true /\
  Rabs (B2R (B32.add a b) - (B2R a + B2R b)) <= u * (B2R a + B2R b) + eta.
Proof.
  intros Na Nb Va Vb Hfin.
  pose proof (bpow_pos (-149)) as Pe. pose proof (bpow_pos (-23)) as Pu.
  destruct a as [sa|sa| |[] ma ea]; try discriminate;
    destruct b as [sb|sb| |[] mb eb]; try discriminate.
  - split; [destruct sa, sb; reflexivity|]. split; [destruct sa, sb; reflexivity|].
    replace (B2R (B32.add (S754_zero sa) (S754_zero sb))) with 0
      by (destruct sa, sb; reflexivity).
    simpl. rewrite Rminus_0_l, Rplus_0_l, Ropp_0, Rabs_R0. lra.
  - split; [reflexivity|]. split; [exact Vb|].
    pose proof (F2R_pos (Z.pos mb) eb ltac:(lia)).
    cbn [B32.add SFadd B2R].
    match goal with |- Rabs ?x <= _ => replace x with 0 by ring end.
    rewrite Rabs_R0. nra.
  - split; [reflexivity|]. split; [exact Va|].
    pose proof (F2R_pos (Z.pos ma) ea ltac:(lia)).
    cbn [B32.add SFadd B2R].
    match goal with |- Rabs ?x <= _ => replace x with 0 by ring end.
    rewrite Rabs_R0. nra.
  - unfold B32.add, SFadd in *. cbn [cond_Zopp] in *.
    set (ez := Z.min ea eb) in *.
    pose proof (shl_align_spec ma ea ez) as Sa.
    pose proof (shl_align_spec mb eb ez) as Sb.
    destruct (shl_align ma ea ez) as [ma' ea'].
    destruct (shl_align mb eb ez) as [mb' eb'].
    destruct Sa as [Ea Ma], Sb as [Eb Mb]. cbn [fst] in *.
    change (Z.pos ma' + Z.pos mb')%Z with (Z.pos (ma' + mb')) in *.
    cbn [binary_normalize] in *.
    assert (Ev : F2R (Z.pos (ma' + mb')) ez
                 = F2R (Z.pos ma) ea + F2R (Z.pos mb) eb).
    { rewrite Pos2Z.inj_add. unfold F2R at 1. rewrite plus_IZR, Rmult_plus_distr_r.
      fold (F2R (Z.pos ma') ez). fold (F2R (Z.pos mb') ez).
      rewrite Ma, Mb. rewrite !F2R_shift by lia.
      f_equal; f_equal; lia. }
    destruct (binary_round_error B32.prec B32.emax prec32_pos false (ma' + mb') ez)
      as (m1 & e1 & Hrd & Herr).
    rewrite Ev in Herr.
    destruct (rounded_B2R false m1 e1 _ Hrd Hfin) as (-> & Hn & Hv).
    cbn [B2R]. auto.
Qed.

(** The square root of a positive finite number. *)
Lemma sqrt_error (m : positive) (e : Z) :
  is_finite (B32.sqrt (S754_finite false m e)) = true ->
  Rabs (B2R (B32.sqrt (S754_finite false m e)) - sqrt (F2R (Z.pos m) e))
  <= u * sqrt (F2R (Z.pos m) e) + eta.
Proof.
  intros Hfin. unfold B32.sqrt, SFsqrt in *.
  pose proof (sqrt_core_spec B32.prec B32.emax m e) as Core.
  destruct (SFsqrt_core_binary B32.prec B32.emax (Z.pos m) e) as [[q e'] l].
  destruct Core as (Hq & He & Hlo & Hhi & _).
  destruct (round_aux_error B32.prec B32.emax prec32_pos false q e' l
              (sqrt (F2R (Z.pos m) e)) ltac:(lia) He (conj Hlo Hhi))
    as (m1 & e1 & Hrd & Herr).
  destruct (rounded_B2R false m1 e1 _ Hrd Hfin) as (-> & _ & _).
  exact Herr.
Qed.

Lemma F2R_FLT_MAX_ge : bpow 127 <= F2R 16777215 104.
Proof.
  rewrite <- F2R_bpow. replace 127%Z with (104 + 23)%Z by lia.
  rewrite <- F2R_shift by lia. apply F2R_le_mono. lia.
Qed.

(** The quotient of a finite number by a positive finite number, when the
    exact quotient is far from overflowing. *)
Lemma div_error (x : float) (my : positive) (ey : Z) :
  B32.valid x = true -> is_finite x = true ->
  Rabs (B2R x) / F2R (Z.pos my) ey <= bpow 100 ->
  is_finite (B32.div x (S754_finite false my ey)) = true /\
  Rabs (B2R (B32.div x (S754_finite false my ey)) - B2R x / F2R (Z.pos my) ey)
  <= u * (Rabs (B2R x) / F2R (Z.pos my) ey) + eta.
Proof.
  intros Vx Fx Hb.
  pose proof (bpow_pos (-149)) as Pe. pose proof (bpow_pos (-23)) as Pu.
  pose proof (F2R_pos (Z.pos my) ey ltac:(lia)) as Py.
  destruct x as [sx|sx| |sx mx ex]; try discriminate.
  - split; [reflexivity|]. cbn [B32.div SFdiv B2R].
    unfold Rdiv. rewrite Rabs_R0, !Rmult_0_l, Rminus_0_r, Rabs_R0. lra.
  - cbn [B2R] in *.
    pose proof (F2R_pos (Z.pos mx) ex ltac:(lia)) as Px.
    set (X := F2R (Z.pos mx) ex) in *. set (Y := F2R (Z.pos my) ey) in *.
    assert (Habs : Rabs (if sx then - X else X) = X).
    { destruct sx; [rewrite Rabs_Ropp|]; apply Rabs_pos_eq; lra. }
    rewrite Habs in *.
    unfold B32.div, SFdiv.
    pose proof (div_core_spec B32.prec B32.emax prec32_pos mx my ex ey) as Core.
    destruct (SFdiv_core_binary B32.prec B32.emax (Z.pos mx) ex (Z.pos my) ey)
      as [[q e'] l].
    destruct Core as (Hq0 & He & Hbr). fold X Y in Hbr.
    destruct (round_aux_error B32.prec B32.emax prec32_pos (xorb sx false)
                q e' l (X / Y) Hq0 He Hbr) as (m1 & e1 & Hrd & Herr).
    change (bpow (1 - B32.prec)) with u in Herr.
    change (bpow (emin B32.prec B32.emax)) with eta in Herr.
    assert (Hq : 0 <= X / Y) by (apply Rlt_le, Rdiv_lt_0_compat; lra).
    assert (Hfin : is_finite (binary_round_aux B32.prec B32.emax
                                (xorb sx false) q e' l) = true).
    { destruct (rounded_inv _ _ _ _ _ _ Hrd) as [[_ ->]|(m2 & e2 & C & E & ->)];
        [reflexivity|].
      assert (Hle : F2R (Z.pos m2) e2 <= F2R 16777215 104).
      { rewrite E. pose proof (Rle_abs (F2R m1 e1 - X / Y)) as Habs'.
        pose proof F2R_FLT_MAX_ge. pose proof (bpow_lt 100 127 ltac:(lia)).
        assert (u <= 1).
        { change 1 with (bpow 0). apply bpow_le. lia. }
        assert (eta <= bpow 100) by (apply bpow_le; lia).
        pose proof (bpow_pos 100).
        assert (bpow 127 = bpow 100 * bpow 27) by (rewrite <- bpow_add; reflexivity).
        assert (4 <= bpow 27).
        { rewrite (bpow_IZR 27) by lia. apply IZR_le. lia. }
        nra. }
      apply (canonical_le B32.prec B32.emax _ _ _ _ C) in Hle;
        [|split; reflexivity].
      replace (e2 <=? B32.emax - B32.prec)%Z with true; [reflexivity|].
      symmetry. apply Z.leb_le. change (B32.emax - B32.prec)%Z with 104%Z. lia. }
    split; [exact Hfin|].
    destruct (rounded_B2R _ m1 e1 _ Hrd Hfin) as (-> & _ & _).
    rewrite xorb_false_r.
    destruct sx.
    + replace (- F2R m1 e1 - - X / Y) with (- (F2R m1 e1 - X / Y)) by (field; lra).
      rewrite Rabs_Ropp. exact Herr.
    + exact Herr.
Qed.
End Errors32.

Section RealAnalysis.
Import Stdlib.Reals.Reals Stdlib.micromega.Lra.
Local Open Scope R_scope.

Lemma Rabs_le_between (x y : R) : Rabs x <= y -> - y <= x <= y.
Proof. unfold Rabs. destruct (Rcase_abs x); lra. Qed.

(** Squaring an approximation [v] of [q]. *)
Lemma square_approx (v q t : R) :
  Rabs (v - q) <= / 8388608 * t + / 713623846352979940529142984724747568191373312 ->
  Rabs q = t -> t <= 2 ->
  Rabs (v * v - q * q)
  <= 3 * / 8388608 * (q * q) + 5 * / 713623846352979940529142984724747568191373312.
Proof.
  intros Hd Ht Ht2.
  apply Rabs_le_between in Hd.
  assert (Ht0 : 0 <= t) by (rewrite <- Ht; apply Rabs_pos).
  assert (Htq : t * t = q * q).
  { rewrite <- Ht. unfold Rabs. destruct (Rcase_abs q); ring. }
  assert (Hq : - t <= q <= t).
  { rewrite <- Ht. unfold Rabs. destruct (Rcase_abs q); lra. }
  set (u := / 8388608) in *.
  set (eta := / 713623846352979940529142984724747568191373312) in *.
  assert (Hu : 0 < u <= / 8388608) by (unfold u; lra).
  assert (He : 0 < eta <= / 713623846352979940529142984724747568191373312)
    by (unfold eta; lra).
  set (d := v - q) in *.
  replace (v * v - q * q) with (d * (2 * q + d)) by (unfold d; ring).
  rewrite <- Htq.
  set (e := u * t + eta) in *.
  assert (He0 : 0 <= e) by (unfold e; nra).
  assert (He1 : e <= 1) by (unfold e; nra).
  assert (Hprod : Rabs (d * (2 * q + d)) <= e * (2 * t + e)).
  { rewrite Rabs_mult. apply Rmult_le_compat; try apply Rabs_pos.
    - apply Rabs_le. lra.
    - apply Rabs_le. lra. }
  apply Rle_trans with (1 := Hprod).
  unfold e.
  assert (Htt : 0 <= t * t) by nra.
  assert (H1 : u * (u * (t * t)) <= u * (t * t)).
  { assert (0 <= u * (t * t)) by nra. nra. }
  assert (H2 : eta * (2 * (u * t) + 2 * t + eta) <= eta * 5).
  { apply Rmult_le_compat_l; [lra|]. nra. }
  replace ((u * t + eta) * (2 * t + (u * t + eta)))
    with (2 * (u * (t * t)) + u * (u * (t * t))
          + eta * (2 * (u * t) + 2 * t + eta)) by ring.
  lra.
Qed.

(** The computed squared length [l] of a candidate against the exact one:
    three squares and two sums, each with its rounding error. *)
Lemma norm_chain (A1 A2 A3 a1 a2 a3 b l : R) :
  0 <= A1 -> 0 <= A2 -> 0 <= A3 ->
  Rabs (a1 - A1) <= / 8388608 * A1 + / 713623846352979940529142984724747568191373312 ->
  Rabs (a2 - A2) <= / 8388608 * A2 + / 713623846352979940529142984724747568191373312 ->
  Rabs (a3 - A3) <= / 8388608 * A3 + / 713623846352979940529142984724747568191373312 ->
  Rabs (b - (a1 + a2))
    <= / 8388608 * (a1 + a2) + / 713623846352979940529142984724747568191373312 ->
  Rabs (l - (b + a3))
    <= / 8388608 * (b + a3) + / 713623846352979940529142984724747568191373312 ->
  / 85070591730234615865843651857942052864 < l ->
  (1 - 9 * / 8388608) * l <= A1 + A2 + A3 <= (1 + 9 * / 8388608) * l.
Proof.
  intros P1 P2 P3 E1 E2 E3 E4 E5 Hl.
  apply Rabs_le_between in E1, E2, E3, E4, E5.
  split; lra.
Qed.

(** The computed square root [s] of [l], squared. *)
Lemma sqrt_chain (l s : R) :
  / 85070591730234615865843651857942052864 < l ->
  Rabs (s - sqrt l)
    <= / 8388608 * sqrt l + / 713623846352979940529142984724747568191373312 ->
  0 < s /\ (1 - 3 * / 8388608) * l <= s * s <= (1 + 3 * / 8388608) * l.
Proof.
  intros Hl E. apply Rabs_le_between in E.
  assert (Hl0 : 0 < l) by lra.
  pose proof (sqrt_sqrt l ltac:(lra)) as Sq.
  assert (Hs0 : / 9223372036854775808 < sqrt l).
  { rewrite <- (sqrt_square (/ 9223372036854775808)) by lra.
    apply sqrt_lt_1_alt. split; lra. }
  set (s0 := sqrt l) in *.
  assert (Hlo : (1 - 2 * / 8388608) * s0 <= s) by lra.
  assert (Hhi : s <= (1 + 2 * / 8388608) * s0) by lra.
  assert (Hlo' : (1 - / 8388608 - / 77371252455336267181195264) * s0 <= s) by lra.
  assert (Hhi' : s <= (1 + / 8388608 + / 77371252455336267181195264) * s0) by lra.
  split; [lra|]. split.
  - apply Rle_trans with
      (((1 - / 8388608 - / 77371252455336267181195264) * s0)
       * ((1 - / 8388608 - / 77371252455336267181195264) * s0)).
    + replace (((1 - / 8388608 - / 77371252455336267181195264) * s0)
               * ((1 - / 8388608 - / 77371252455336267181195264) * s0))
        with ((1 - / 8388608 - / 77371252455336267181195264)
              * (1 - / 8388608 - / 77371252455336267181195264) * l)
        by (rewrite <- Sq; ring).
      apply Rmult_le_compat_r; lra.
    + apply Rmult_le_compat; lra.
  - apply Rle_trans with
      (((1 + / 8388608 + / 77371252455336267181195264) * s0)
       * ((1 + / 8388608 + / 77371252455336267181195264) * s0)).
    + apply Rmult_le_compat; lra.
    + replace (((1 + / 8388608 + / 77371252455336267181195264) * s0)
               * ((1 + / 8388608 + / 77371252455336267181195264) * s0))
        with ((1 + / 8388608 + / 77371252455336267181195264)
              * (1 + / 8388608 + / 77371252455336267181195264) * l)
        by (rewrite <- Sq; ring).
      apply Rmult_le_compat_r; lra.
Qed.

(** The squared length of the normalized candidate: the exact squared
    length [L] of the candidate over the square of the computed root. *)
Lemma ratio_chain (L l S2 Q : R) :
  0 < l ->
  (1 - 9 * / 8388608) * l <= L <= (1 + 9 * / 8388608) * l ->
  (1 - 3 * / 8388608) * l <= S2 <= (1 + 3 * / 8388608) * l ->
  0 <= Q -> Q * S2 = L ->
  1 - 13 * / 8388608 <= Q <= 1 + 13 * / 8388608.
Proof.
  intros Hl [L1 L2] [S1 S2'] HQ E.
  assert (H1 : Q * ((1 - 3 * / 8388608) * l) <= Q * S2)
    by (apply Rmult_le_compat_l; lra).
  assert (H2 : Q * S2 <= Q * ((1 + 3 * / 8388608) * l))
    by (apply Rmult_le_compat_l; lra).
  rewrite E in H1, H2.
  split.
  - apply Rmult_le_reg_r with ((1 + 3 * / 8388608) * l); [nra|].
    apply Rle_trans with ((1 - 9 * / 8388608) * l); [|lra].
    replace ((1 - 13 * / 8388608) * ((1 + 3 * / 8388608) * l))
      with ((1 - 13 * / 8388608) * (1 + 3 * / 8388608) * l) by ring.
    apply Rmult_le_compat_r; lra.
  - apply Rmult_le_reg_r with ((1 - 3 * / 8388608) * l); [nra|].
    apply Rle_trans with ((1 + 9 * / 8388608) * l); [lra|].
    replace ((1 + 13 * / 8388608) * ((1 - 3 * / 8388608) * l))
      with ((1 + 13 * / 8388608) * (1 - 3 * / 8388608) * l) by ring.
    apply Rmult_le_compat_r; lra.
Qed.

(** The squared length of a candidate normalized in binary32 arithmetic is
    within [2^-18] of 1. *)
Lemma unit_length_error (X Y Z a1 a2 a3 b l s v1 v2 v3 : R) :
  Rabs (a1 - X * X)
    <= / 8388608 * (X * X) + / 713623846352979940529142984724747568191373312 ->
  Rabs (a2 - Y * Y)
    <= / 8388608 * (Y * Y) + / 713623846352979940529142984724747568191373312 ->
  Rabs (a3 - Z * Z)
    <= / 8388608 * (Z * Z) + / 713623846352979940529142984724747568191373312 ->
  Rabs (b - (a1 + a2))
    <= / 8388608 * (a1 + a2) + / 713623846352979940529142984724747568191373312 ->
  Rabs (l - (b + a3))
    <= / 8388608 * (b + a3) + / 713623846352979940529142984724747568191373312 ->
  / 85070591730234615865843651857942052864 < l ->
  Rabs (s - sqrt l)
    <= / 8388608 * sqrt l + / 713623846352979940529142984724747568191373312 ->
  Rabs (v1 - X / s)
    <= / 8388608 * (Rabs X / s) + / 713623846352979940529142984724747568191373312 ->
  Rabs (v2 - Y / s)
    <= / 8388608 * (Rabs Y / s) + / 713623846352979940529142984724747568191373312 ->
  Rabs (v3 - Z / s)
    <= / 8388608 * (Rabs Z / s) + / 713623846352979940529142984724747568191373312 ->
  Rabs (v1 * v1 + v2 * v2 + v3 * v3 - 1) <= / 262144.
Proof.
  intros E1 E2 E3 E4 E5 Hl E6 E7 E8 E9.
  assert (PX : 0 <= X * X) by nra. assert (PY : 0 <= Y * Y) by nra.
  assert (PZ : 0 <= Z * Z) by nra.
  pose proof (norm_chain _ _ _ _ _ _ _ _ PX PY PZ E1 E2 E3 E4 E5 Hl) as HL.
  destruct (sqrt_chain l s Hl E6) as [Hs HS].
  set (q1 := X / s) in *. set (q2 := Y / s) in *. set (q3 := Z / s) in *.
  assert (HQ : (q1 * q1 + q2 * q2 + q3 * q3) * (s * s) = X * X + Y * Y + Z * Z).
  { unfold q1, q2, q3. field. lra. }
  assert (P1 : 0 <= q1 * q1) by nra. assert (P2 : 0 <= q2 * q2) by nra.
  assert (P3 : 0 <= q3 * q3) by nra.
  pose proof (ratio_chain _ l _ (q1 * q1 + q2 * q2 + q3 * q3) ltac:(lra) HL HS
                ltac:(lra) HQ) as [Q1 Q2].
  assert (Habs : forall x, Rabs x / s = Rabs (x / s)).
  { intros x. unfold Rdiv. rewrite Rabs_mult, (Rabs_pos_eq (/ s)); [reflexivity|].
    apply Rlt_le, Rinv_0_lt_compat, Hs. }
  rewrite Habs in E7, E8, E9. fold q1 in E7. fold q2 in E8. fold q3 in E9.
  assert (Hsmall : forall q, q * q <= 2 -> Rabs q <= 2).
  { intros q Hq. unfold Rabs. destruct (Rcase_abs q); nra. }
  pose proof (square_approx v1 q1 (Rabs q1) E7 eq_refl (Hsmall q1 ltac:(lra))) as S1.
  pose proof (square_approx v2 q2 (Rabs q2) E8 eq_refl (Hsmall q2 ltac:(lra))) as S2.
  pose proof (square_approx v3 q3 (Rabs q3) E9 eq_refl (Hsmall q3 ltac:(lra))) as S3.
  apply Rabs_le_between in S1, S2, S3.
  apply Rabs_le. lra.
Qed.

Lemma sqrt_near_one (n : R) (eps : R) :
  0 <= n -> Rabs (n - 1) <= eps -> Rabs (sqrt n - 1) <= eps.
Proof.
  intros Hn H. apply Rabs_le_between in H.
  pose proof (sqrt_pos n) as P. pose proof (sqrt_sqrt n Hn) as Sq.
  apply Rabs_le. split; nra.
Qed.
End RealAnalysis.

Section UnitLength.
Import Stdlib.Reals.Reals Stdlib.micromega.Lra.
Local Open Scope R_scope.

Lemma bpow_neg (k : Z) : (0 <= k)%Z -> bpow (- k) = / IZR (2 ^ k).
Proof.
  intros Hk. unfold bpow. rewrite powerRZ_neg'. f_equal.
  now apply bpow_IZR.
Qed.

Lemma add_finite_inv (a b : float) :
  is_finite (B32.add a b) = true -> is_finite a = true /\ is_finite b = true.
Proof.
  destruct a as [sa|[]| |sa ma ea], b as [sb|[]| |sb mb eb];
    try discriminate; auto.
Qed.

Lemma mul_finite_inv (a b : float) :
  is_finite (B32.mul a b) = true -> is_finite a = true /\ is_finite b = true.
Proof.
  destruct a as [sa|sa| |sa ma ea], b as [sb|sb| |sb mb eb];
    try discriminate; auto.
Qed.

(** The squared length of a normalized accepted candidate, computed
    exactly from its binary32 components, is within [2^-18] of 1. *)
Lemma normalized_length (dir : vec3) :
  B32.valid (vx dir) = true -> B32.valid (vy dir) = true ->
  B32.valid (vz dir) = true ->
  accepted dir = true ->
  let v := glm.div_s dir (B32.sqrt (glm.dot dir dir)) in
  is_finite (vx v) = true /\ is_finite (vy v) = true /\
  is_finite (vz v) = true /\
  Rabs (B2R (vx v) * B2R (vx v) + B2R (vy v) * B2R (vy v)
        + B2R (vz v) * B2R (vz v) - 1) <= / 262144.
Proof.
  destruct dir as [x y z]. cbn [vx vy vz]. intros Vx Vy Vz A. cbv zeta.
  destruct (accepted_norm x y z Vx Vy Vz A) as (m & e & El & Vl & Ll).
  destruct (sqrt_of_unit m e Vl Ll) as (m2 & e2 & Es & Vs & Ls).
  pose proof (sqrt_error m e) as E6. rewrite Es in E6. specialize (E6 eq_refl).
  cbn [B2R] in E6.
  (* the guard, on the values *)
  assert (Hl : / 85070591730234615865843651857942052864 < F2R (Z.pos m) e).
  { unfold accepted in A. rewrite El in A. apply andb_prop in A.
    destruct A as [A1 _]. apply ltb_rank in A1; try reflexivity.
    apply valid_canonical in Vl. destruct Vl as [Cl _].
    assert (C0 : canonical B32.prec B32.emax 8388608 (-149)) by (split; reflexivity).
    pose proof (canonical_lt B32.prec B32.emax 8388608 (-149) (Z.pos m) e C0 Cl) as H.
    simpl in A1. specialize (H ltac:(lia)).
    replace (/ 85070591730234615865843651857942052864) with (F2R 8388608 (-149));
      [exact H|].
    change 8388608%Z with (1 * 2 ^ 23)%Z. rewrite F2R_shift by lia.
    rewrite F2R_bpow. exact (bpow_neg 126 ltac:(lia)). }
  (* the squares and the sums *)
  rewrite dot_self in El.
  assert (Fl : is_finite (B32.add (B32.add (B32.mul x x) (B32.mul y y))
                                  (B32.mul z z)) = true)
    by (rewrite El; reflexivity).
  destruct (add_finite_inv _ _ Fl) as [Fb F3].
  destruct (add_finite_inv _ _ Fb) as [F1 F2].
  destruct (square_error x Vx F1) as (N1 & V1 & E1).
  destruct (square_error y Vy F2) as (N2 & V2 & E2).
  destruct (square_error z Vz F3) as (N3 & V3 & E3).
  destruct (sum_error _ _ N1 N2 V1 V2 Fb) as (Nb & Vb & E4).
  destruct (sum_error _ _ Nb N3 Vb V3 Fl) as (_ & _ & E5).
  rewrite El in E5. cbn [B2R] in E5.
  assert (Hu : bpow (-23) = / 8388608) by (exact (bpow_neg 23 ltac:(lia))).
  assert (He : bpow (-149) = / 713623846352979940529142984724747568191373312)
    by (exact (bpow_neg 149 ltac:(lia))).
  rewrite Hu, He in E1, E2, E3, E4, E5, E6.
  set (X := B2R x) in *. set (Y := B2R y) in *. set (Z := B2R z) in *.
  set (l := F2R (Z.pos m) e) in *. set (s := F2R (Z.pos m2) e2) in *.
  (* the candidate is small and the root is not tiny *)
  assert (PX : 0 <= X * X) by nra. assert (PY : 0 <= Y * Y) by nra.
  assert (PZ : 0 <= Z * Z) by nra.
  pose proof (norm_chain _ _ _ _ _ _ _ _ PX PY PZ E1 E2 E3 E4 E5 Hl) as HL.
  destruct (sqrt_chain l s Hl E6) as [Hs HS].
  assert (Hl1 : l <= 1).
  { apply leb_finite_pos in Ll. apply valid_canonical in Vl. destruct Vl as [Cl _].
    apply (canonical_le B32.prec B32.emax _ _ _ _ Cl) in Ll; [|split; reflexivity].
    rewrite F2R_one in Ll. exact Ll. }
  assert (Hs64 : / 18446744073709551616 <= s).
  { destruct (Rle_lt_dec (/ 18446744073709551616) s) as [Ok|Bad]; [exact Ok|].
    exfalso.
    assert (s * s < / 18446744073709551616 * / 18446744073709551616) by nra.
    lra. }
  assert (Hsmall : forall t, t * t <= 2 -> Rabs t <= 2).
  { intros t Ht. unfold Rabs. destruct (Rcase_abs t); nra. }
  assert (Hq : forall c : float, B2R c * B2R c <= 2 ->
                 Rabs (B2R c) / s <= bpow 100).
  { intros c Hc. apply Hsmall in Hc.
    rewrite (bpow_IZR 100) by lia.
    apply Rmult_le_reg_r with s; [exact Hs|].
    unfold Rdiv. rewrite Rmult_assoc, Rinv_l, Rmult_1_r by lra.
    assert (2 <= IZR (2 ^ 100) * / 18446744073709551616).
    { change (2 ^ 100)%Z with (1267650600228229401496703205376)%Z. lra. }
    assert (0 < IZR (2 ^ 100)) by (apply IZR_lt; lia).
    nra. }
  assert (Fx : is_finite x = true) by (apply (mul_finite_inv x x F1)).
  assert (Fy : is_finite y = true) by (apply (mul_finite_inv y y F2)).
  assert (Fz : is_finite z = true) by (apply (mul_finite_inv z z F3)).
  rewrite dot_self, El, Es.
  unfold glm.div_s, glm.map. cbn [vx vy vz s_div float_scalar].
  destruct (div_error x m2 e2 Vx Fx (Hq x ltac:(fold X; lra))) as (D1 & E7).
  destruct (div_error y m2 e2 Vy Fy (Hq y ltac:(fold Y; lra))) as (D2 & E8).
  destruct (div_error z m2 e2 Vz Fz (Hq z ltac:(fold Z; lra))) as (D3 & E9).
  rewrite Hu, He in E7, E8, E9. fold X Y Z s in E7, E8, E9.
  split; [exact D1|]. split; [exact D2|]. split; [exact D3|].
  exact (unit_length_error X Y Z _ _ _ _ l s _ _ _ E1 E2 E3 E4 E5 Hl E6 E7 E8 E9).
Qed.
End UnitLength.

(** The squared length of the real vector is the sum of the squares of
    its components, which is not negative. *)
Lemma dot_to_real_nonneg (v : vec3) :
  Rdefinitions.Rle (Rdefinitions.IZR 0) (glm.dot (to_real v) (to_real v)).
Proof.
  unfold glm.dot, glm.mul, glm.map2, to_real.
  cbn [vx vy vz s_add s_mul real_scalar].
  pose proof (Stdlib.Reals.RIneq.Rle_0_sqr (B2R (vx v))) as P1.
  pose proof (Stdlib.Reals.RIneq.Rle_0_sqr (B2R (vy v))) as P2.
  pose proof (Stdlib.Reals.RIneq.Rle_0_sqr (B2R (vz v))) as P3.
  unfold Stdlib.Reals.RIneq.Rsqr in *. Stdlib.micromega.Lra.lra.
Qed.

(** C8.  A vector that [randomUnitVec3OnSphere] returns is a candidate
    [dir] the loop accepted, divided by the square root of its squared
    length [l]: [FLT_MIN < l <= 1], the square root is a number of (0, 1],
    so that the division is never by zero, and the returned vector is not
    the zero vector.  Its components are finite, and its length, taken
    exactly from the binary32 components, is 1 up to the rounding of the
    arithmetic: it differs from 1 by at most [2^-18].  In exact arithmetic
    a vector divided by the square root of its squared length has length
    exactly 1. *)
Theorem randomUnitVec3OnSphere_normalized (gen : nat -> float) (fuel : nat)
    (i : nat) (v : vec3) (j : nat) :
  randomUnitVec3OnSphere gen fuel i = Done v j ->
  (exists dir k,
     randomVec3_in gen minus_one B32.one k = Done dir j /\
     let l := glm.dot dir dir in
     B32.ltb B32.FLT_MIN l = true /\ B32.leb l B32.one = true /\
     B32.ltb B32.zero (B32.sqrt l) = true /\
     B32.leb (B32.sqrt l) B32.one = true /\
     v = glm.div_s dir (B32.sqrt l) /\
     is_zero_vec v = false) /\
  (is_finite (vx v) = true /\ is_finite (vy v) = true /\
   is_finite (vz v) = true) /\
  Rdefinitions.Rle
    (Rbasic_fun.Rabs
       (Rdefinitions.Rminus (R_sqrt.sqrt (glm.dot (to_real v) (to_real v)))
                            (Rdefinitions.IZR 1)))
    (Rdefinitions.Rinv (Rdefinitions.IZR 262144)) /\
  (forall u : vec Rdefinitions.R,
     Rdefinitions.Rlt (Rdefinitions.IZR 0) (glm.dot u u) ->
     glm.dot (glm.div_s u (R_sqrt.sqrt (glm.dot u u)))
             (glm.div_s u (R_sqrt.sqrt (glm.dot u u)))
     = Rdefinitions.IZR 1).
Proof.
  intros H.
  destruct (randomUnitVec3OnSphere_accepts gen fuel i v j H)
    as (dir & k & Hd & A & ->).
  destruct (randomVec3_in_valid gen k dir j Hd) as (Vx & Vy & Vz).
  destruct (normalized_nonzero dir Vx Vy Vz A) as (S0 & S1 & Nz).
  destruct (normalized_length dir Vx Vy Vz A) as (Fx & Fy & Fz & Len).
  split; [|split; [auto|split; [|exact normalized_unit]]].
  - exists dir, k. split; [exact Hd|].
    unfold accepted in A. apply andb_prop in A. destruct A as [A1 A2].
    cbv zeta. auto 10.
  - apply sqrt_near_one; [|exact Len].
    apply dot_to_real_nonneg.
Qed.

(** From the numbers 0, 0.5, 0.5 the loop makes the candidate (-1, 0, 0),
    of squared length 1, and returns it. *)
Lemma randomUnitVec3OnSphere_normalized_witness :
  randomUnitVec3OnSphere Examples.gen_left 1 0%nat
    = Done (Vec3 minus_one B32.zero B32.zero) 3%nat /\
  is_zero_vec (Vec3 minus_one B32.zero B32.zero) = false.
Proof.
  split; [reflexivity|].
  destruct (randomUnitVec3OnSphere_normalized Examples.gen_left 1 0
              (Vec3 minus_one B32.zero B32.zero) 3 eq_refl)
    as [(dir & k & _ & _ & _ & _ & _ & _ & Nz) _].
  exact Nz.
Defined.

(** * Further properties of the source *)

(** ** Further properties of the intersection and of the closest hit *)

Lemma intersects_cases (r : Ray) (s : Sphere) (minT maxT : float) :
  let t := intersects r s minT maxT in
  t = minus_one \/
  (B32.leb t minT = false /\ B32.leb maxT t = false).
Proof.
  cbv zeta. rewrite intersects_unfold.
  destruct (B32.ltb (discriminant r s) B32.zero); [now left|].
  destruct (B32.leb (near_root r s) minT || B32.leb maxT (near_root r s)) eqn:E1.
  - destruct (B32.leb (far_root r s) minT || B32.leb maxT (far_root r s)) eqn:E2;
      [now left|].
    right. now apply orb_false_elim in E2.
  - right. now apply orb_false_elim in E1.
Qed.

Lemma intersects_range (r : Ray) (s : Sphere) (minT maxT : float) :
  B32.is_nan minT = false -> B32.is_nan maxT = false ->
  let t := intersects r s minT maxT in
  t = minus_one \/ t = S754_nan \/
  (B32.ltb minT t = true /\ B32.ltb t maxT = true).
Proof.
  intros Hlo Hhi. cbv zeta.
  destruct (intersects_cases r s minT maxT) as [E|[E1 E2]]; [now left|right].
  destruct (B32.is_nan (intersects r s minT maxT)) eqn:En.
  - left. now apply is_nan_true.
  - right. split; apply leb_false_ltb; assumption.
Qed.

(** X1.  With bounds that are numbers, [intersects] returns the sentinel
    [-1], a NaN, or a number strictly above [minT] and strictly below
    [maxT]: a root at or outside a bound is never returned. *)
Theorem intersects_in_bounds (r : Ray) (s : Sphere) (minT maxT : float) :
  B32.is_nan minT = false -> B32.is_nan maxT = false ->
  let t := intersects r s minT maxT in
  t = minus_one \/ t = S754_nan \/
  (B32.ltb minT t = true /\ B32.ltb t maxT = true).
Proof. exact (intersects_range r s minT maxT). Qed.

(** The ray down the z axis and the ball, with the bounds of [hit]. *)
Lemma intersects_in_bounds_witness :
  let t := intersects Examples.ray_down (Examples.ball (Examples.diffuse B32.one))
             (dlit 1 3) B32.infinity in
  t = minus_one \/ t = S754_nan \/
  (B32.ltb (dlit 1 3) t = true /\ B32.ltb t B32.infinity = true).
Proof.
  apply (intersects_in_bounds Examples.ray_down
           (Examples.ball (Examples.diffuse B32.one)) (dlit 1 3) B32.infinity);
    reflexivity.
Defined.

Lemma hit_from_remembered (r : Ray) (ss seen : list Sphere) (closestT : float)
    (closestSphere : option (nat * Sphere)) :
  remembered r (seen ++ ss) closestT closestSphere ->
  let record := hit_from r ss (length seen) closestT closestSphere in
  remembered r (seen ++ ss) (t record) (sphere record).
Proof.
  revert seen closestT closestSphere.
  induction ss as [|s rest IH]; intros seen closestT closestSphere Inv.
  - exact Inv.
  - cbn [hit_from]. change (intersects r s (dlit 1 3) B32.infinity) with (hit_t r s).
    replace (seen ++ s :: rest) with ((seen ++ [s]) ++ rest) in *
      by (rewrite <- app_assoc; reflexivity).
    replace (S (length seen)) with (length (seen ++ [s]))
      by (rewrite length_app; simpl; lia).
    destruct (B32.ltb (hit_t r s) B32.zero || B32.ltb closestT (hit_t r s)) eqn:E.
    + apply IH. exact Inv.
    + apply IH. apply orb_false_elim in E. destruct E as [E1 E2].
      split; [|split; [reflexivity | exact E1]].
      rewrite <- app_assoc. rewrite nth_error_app2 by lia.
      rewrite Nat.sub_diag.
      reflexivity.
Qed.

Lemma ltb_minus_one_zero : B32.ltb minus_one B32.zero = true.
Proof. reflexivity. Qed.

(** X2.  A sphere that [World::hit] reports is the element of the world's
    spheres at the reported index; the reported [t] is what [intersects]
    returned for that sphere with the bounds (0.001, +inf), and it is a NaN
    or lies strictly between 0.001 and +inf. *)
Theorem hit_reports (w : World) (r : Ray) (k : nat) (s : Sphere) :
  sphere (hit w r) = Some (k, s) ->
  nth_error (spheres w) k = Some s /\
  t (hit w r) = intersects r s (dlit 1 3) B32.infinity /\
  (t (hit w r) = S754_nan \/
   (B32.ltb (dlit 1 3) (t (hit w r)) = true /\
    B32.ltb (t (hit w r)) B32.infinity = true)).
Proof.
  intros H.
  pose proof (hit_from_remembered r (spheres w) [] B32.FLT_MAX None eq_refl) as Inv.
  cbv zeta in Inv. simpl in Inv. fold (hit w r) in Inv.
  rewrite H in Inv. destruct Inv as (Hk & Ht & Hneg).
  split; [exact Hk|]. split; [exact Ht|]. rewrite Ht.
  destruct (intersects_range r s (dlit 1 3) B32.infinity eq_refl eq_refl)
    as [E|[E|E]].
  - unfold hit_t in Hneg. rewrite E in Hneg. discriminate.
  - now left.
  - now right.
Qed.

(** The ball in front of the ray down the z axis. *)
Lemma hit_reports_witness :
  let w := Examples.scene [Examples.ball (Examples.diffuse B32.one)] in
  let s := Examples.ball (Examples.diffuse B32.one) in
  nth_error (spheres w) 0 = Some s /\
  t (hit w Examples.ray_down)
    = intersects Examples.ray_down s (dlit 1 3) B32.infinity /\
  (t (hit w Examples.ray_down) = S754_nan \/
   (B32.ltb (dlit 1 3) (t (hit w Examples.ray_down)) = true /\
    B32.ltb (t (hit w Examples.ray_down)) B32.infinity = true)).
Proof.
  apply (hit_reports (Examples.scene [Examples.ball (Examples.diffuse B32.one)])
           Examples.ray_down 0 (Examples.ball (Examples.diffuse B32.one))).
  reflexivity.
Defined.

Lemma hit_from_some (r : Ray) (ss : list Sphere) (i : nat) (closestT : float)
    (x : nat * Sphere) :
  sphere (hit_from r ss i closestT (Some x)) <> None.
Proof.
  revert i closestT x. induction ss as [|s rest IH]; intros i closestT x.
  - discriminate.
  - cbn [hit_from].
    destruct (B32.ltb (intersects r s (dlit 1 3) B32.infinity) B32.zero
              || B32.ltb closestT (intersects r s (dlit 1 3) B32.infinity));
      apply IH.
Qed.

Lemma hit_from_none (r : Ray) (ss : list Sphere) (i : nat) (closestT : float) :
  (sphere (hit_from r ss i closestT None) = None <->
   forall s, In s ss ->
     B32.ltb (hit_t r s) B32.zero = true \/ B32.ltb closestT (hit_t r s) = true) /\
  (sphere (hit_from r ss i closestT None) = None ->
   t (hit_from r ss i closestT None) = closestT).
Proof.
  revert i. induction ss as [|s rest IH]; intros i.
  - split; [|reflexivity]. split; [intros _ s []|reflexivity].
  - cbn [hit_from]. change (intersects r s (dlit 1 3) B32.infinity) with (hit_t r s).
    destruct (B32.ltb (hit_t r s) B32.zero || B32.ltb closestT (hit_t r s)) eqn:E.
    + destruct (IH (S i)) as [[I1 I2] I3]. split; [|exact I3]. split.
      * intros H s' [<-|Hin]; [now apply orb_prop | now apply I1].
      * intros H. apply I2. intros s' Hin. apply H. now right.
    + split.
      * split; [intros H; now apply hit_from_some in H|].
        intros H. destruct (H s (or_introl eq_refl)) as [H'|H'];
          rewrite H' in E; [discriminate|].
        rewrite orb_true_r in E. discriminate.
      * intros H. now apply hit_from_some in H.
Qed.

(** X3.  [World::hit] reports no sphere exactly when [intersects] answers
    for every sphere with a negative number or a number above [FLT_MAX];
    the reported [t] is then [FLT_MAX].  In particular a world without
    spheres gives no sphere and [FLT_MAX]. *)
Theorem hit_nothing (w : World) (r : Ray) :
  (sphere (hit w r) = None <->
   forall s, In s (spheres w) ->
     B32.ltb (intersects r s (dlit 1 3) B32.infinity) B32.zero = true \/
     B32.ltb B32.FLT_MAX (intersects r s (dlit 1 3) B32.infinity) = true) /\
  (sphere (hit w r) = None -> t (hit w r) = B32.FLT_MAX) /\
  (spheres w = [] -> hit w r = {| sphere := None; t := B32.FLT_MAX |}).
Proof.
  destruct (hit_from_none r (spheres w) 0 B32.FLT_MAX) as [H1 H2].
  split; [exact H1|]. split; [exact H2|].
  intros E. unfold hit. rewrite E. reflexivity.
Qed.

Lemma hit_from_app (r : Ray) (before rest : list Sphere) (i : nat)
    (closestT : float) (closestSphere : option (nat * Sphere)) :
  exists closestT' closestSphere',
    hit_from r (before ++ rest) i closestT closestSphere =
    hit_from r rest (i + length before) closestT' closestSphere'.
Proof.
  revert i closestT closestSphere.
  induction before as [|s before IH]; intros i closestT closestSphere.
  - exists closestT, closestSphere. simpl. now rewrite Nat.add_0_r.
  - simpl.
    destruct (B32.ltb (intersects r s (dlit 1 3) B32.infinity) B32.zero
              || B32.ltb closestT (intersects r s (dlit 1 3) B32.infinity));
      [destruct (IH (S i) closestT closestSphere) as (c' & s' & E)
      |destruct (IH (S i) (intersects r s (dlit 1 3) B32.infinity) (Some (i, s)))
         as (c' & s' & E)];
      exists c', s'; rewrite E; f_equal; lia.
Qed.

(** X4.  A sphere for which [intersects] returns a NaN is taken as the
    closest hit whatever was found before it, since neither [t < 0] nor
    [t > closestT] holds for a NaN: the spheres before it are forgotten and
    the search goes on from it with [closestT] a NaN. *)
Theorem hit_after_nan (cam : Camera) (r : Ray) (before after : list Sphere)
    (s : Sphere) :
  intersects r s (dlit 1 3) B32.infinity = S754_nan ->
  hit {| camera := cam; spheres := before ++ s :: after |} r =
  hit_from r after (S (length before)) S754_nan (Some (length before, s)).
Proof.
  intros Hn. unfold hit. cbn [spheres].
  destruct (hit_from_app r before (s :: after) 0 B32.FLT_MAX None)
    as (c' & s' & ->).
  cbn [hit_from]. rewrite Hn. rewrite ltb_nan_l, ltb_nan_r. reflexivity.
Qed.

(** The ball is met at [t = 0.5]; the sphere with an infinite centre after
    it answers with a NaN and is reported instead. *)
Lemma hit_after_nan_witness :
  let near := Examples.ball (Examples.diffuse B32.one) in
  hit_t Examples.ray_down near = flit 5 1 /\
  hit (Examples.scene [near; Examples.lost]) Examples.ray_down =
  {| sphere := Some (1%nat, Examples.lost); t := S754_nan |}.
Proof.
  split; [reflexivity|].
  apply (hit_after_nan {| position := glm.splat B32.zero |} Examples.ray_down
           [Examples.ball (Examples.diffuse B32.one)] [] Examples.lost).
  reflexivity.
Defined.

(** ** glm::clamp *)

Lemma clamp_scalar (x lo hi : float) :
  B32.is_nan x = false -> B32.is_nan lo = false -> B32.is_nan hi = false ->
  B32.leb lo hi = true ->
  let c := glm.min (glm.max x lo) hi in
  B32.leb lo c = true /\ B32.leb c hi = true /\
  (B32.leb lo x = true -> B32.leb x hi = true -> c = x) /\
  (c = x \/ c = lo \/ c = hi).
Proof.
  intros Hx Hlo Hhi Hle. cbv zeta. unfold glm.min, glm.max.
  destruct (B32.ltb x lo) eqn:E1.
  - destruct (B32.ltb hi lo) eqn:E2.
    + apply ltb_leb_false in E2. congruence.
    + split; [now apply leb_refl|]. split; [exact Hle|]. split; [|auto].
      intros H _. apply ltb_leb_false in E1. congruence.
  - pose proof (ltb_false_leb lo x Hlo Hx E1) as L1.
    destruct (B32.ltb hi x) eqn:E2.
    + split; [exact Hle|]. split; [now apply leb_refl|]. split; [|auto].
      intros _ H. apply ltb_leb_false in E2. congruence.
    + split; [exact L1|]. split; [now apply ltb_false_leb|]. auto.
Qed.

(** The clamp of a number below [lo] is [lo], that of a number above [hi]
    is [hi]. *)
Lemma clamp_scalar_ends (x lo hi : float) :
  B32.leb lo hi = true ->
  let c := glm.min (glm.max x lo) hi in
  (B32.ltb x lo = true -> c = lo) /\ (B32.ltb hi x = true -> c = hi).
Proof.
  intros Hle. cbv zeta. unfold glm.min, glm.max. split.
  - intros ->. destruct (B32.ltb hi lo) eqn:E; [|reflexivity].
    apply ltb_leb_false in E. congruence.
  - intros H. destruct (B32.ltb x lo) eqn:E.
    + pose proof (ltb_leb_trans _ _ _ E Hle) as K.
      apply ltb_leb_false in K. apply ltb_leb in H. congruence.
    + now rewrite H.
Qed.

(** X5.  [glm::clamp(v, lo, hi)] with [lo <= hi] acts on each component by
    itself, whatever the other components are: a component that is a
    number is brought into [[lo, hi]], one below [lo] becomes [lo], one
    above [hi] becomes [hi], one inside the interval is returned as it is,
    and a component that is a NaN stays a NaN. *)
Theorem clamp_bounds (v : vec3) (lo hi : float) :
  B32.is_nan lo = false -> B32.is_nan hi = false -> B32.leb lo hi = true ->
  componentwise
    (fun x c =>
       (B32.is_nan x = false ->
        B32.leb lo c = true /\ B32.leb c hi = true) /\
       (B32.ltb x lo = true -> c = lo) /\
       (B32.ltb hi x = true -> c = hi) /\
       (B32.leb lo x = true -> B32.leb x hi = true -> c = x) /\
       (x = S754_nan -> c = S754_nan))
    v (glm.clamp v lo hi).
Proof.
  intros Hlo Hhi Hle.
  assert (One : forall x,
            (B32.is_nan x = false ->
             B32.leb lo (glm.min (glm.max x lo) hi) = true /\
             B32.leb (glm.min (glm.max x lo) hi) hi = true) /\
            (B32.ltb x lo = true -> glm.min (glm.max x lo) hi = lo) /\
            (B32.ltb hi x = true -> glm.min (glm.max x lo) hi = hi) /\
            (B32.leb lo x = true -> B32.leb x hi = true ->
             glm.min (glm.max x lo) hi = x) /\
            (x = S754_nan -> glm.min (glm.max x lo) hi = S754_nan)).
  { intros x.
    destruct (clamp_scalar_ends x lo hi Hle) as [E1 E2].
    split; [|split; [exact E1|split; [exact E2|split]]].
    - intros Hx.
      destruct (clamp_scalar x lo hi Hx Hlo Hhi Hle) as (A1 & A2 & _). auto.
    - intros L1 L2. destruct (leb_not_nan _ _ L1) as [_ Hx].
      destruct (clamp_scalar x lo hi Hx Hlo Hhi Hle) as (_ & _ & E & _). auto.
    - intros ->. unfold glm.min, glm.max.
      rewrite ltb_nan_l, ltb_nan_r. reflexivity. }
  destruct v as [x y z].
  unfold componentwise, glm.clamp, glm.map. cbn [vx vy vz].
  split; [apply One | split; apply One].
Qed.

(** (2, NaN, 0.5) clamped to [0, 1] is (1, NaN, 0.5): the first component
    is clamped although the second is a NaN. *)
Lemma clamp_bounds_witness :
  glm.clamp (Vec3 B32.two S754_nan (flit 5 1)) B32.zero B32.one
  = Vec3 B32.one S754_nan (flit 5 1) /\
  componentwise
    (fun x c =>
       (B32.is_nan x = false ->
        B32.leb B32.zero c = true /\ B32.leb c B32.one = true) /\
       (B32.ltb x B32.zero = true -> c = B32.zero) /\
       (B32.ltb B32.one x = true -> c = B32.one) /\
       (B32.leb B32.zero x = true -> B32.leb x B32.one = true -> c = x) /\
       (x = S754_nan -> c = S754_nan))
    (Vec3 B32.two S754_nan (flit 5 1))
    (glm.clamp (Vec3 B32.two S754_nan (flit 5 1)) B32.zero B32.one).
Proof.
  split; [reflexivity|].
  apply (clamp_bounds (Vec3 B32.two S754_nan (flit 5 1)) B32.zero B32.one);
    reflexivity.
Defined.

(** ** The rejection loop *)

Lemma randomVec3_in_candidate (gen : nat -> float) (k : nat) :
  randomVec3_in gen minus_one B32.one k = Done (candidate gen k) (k + 3)%nat.
Proof.
  replace (k + 3)%nat with (S (S (S k))) by lia. reflexivity.
Qed.

Lemma randomUnitVec3OnSphere_step (gen : nat -> float) (fuel : nat) (i : nat) :
  randomUnitVec3OnSphere gen (S fuel) i =
  if accepted (candidate gen i)
  then Done (glm.div_s (candidate gen i)
               (B32.sqrt (glm.dot (candidate gen i) (candidate gen i))))
            (i + 3)%nat
  else randomUnitVec3OnSphere gen fuel (i + 3)%nat.
Proof.
  cbn [randomUnitVec3OnSphere]. unfold bind.
  rewrite randomVec3_in_candidate. fold (accepted (candidate gen i)).
  destruct (accepted (candidate gen i)); reflexivity.
Qed.

Lemma rejection_loop_spec (gen : nat -> float) (fuel : nat) (i : nat) :
  (forall v j,
     randomUnitVec3OnSphere gen fuel i = Done v j <->
     exists n : nat,
       (n < fuel)%nat /\ j = (i + 3 * (n + 1))%nat /\
       accepted (candidate gen (i + 3 * n)) = true /\
       (forall n' : nat, (n' < n)%nat ->
          accepted (candidate gen (i + 3 * n')) = false) /\
       v = glm.div_s (candidate gen (i + 3 * n))
             (B32.sqrt (glm.dot (candidate gen (i + 3 * n))
                                (candidate gen (i + 3 * n))))) /\
  (randomUnitVec3OnSphere gen fuel i = OutOfFuel <->
   forall n : nat, (n < fuel)%nat ->
     accepted (candidate gen (i + 3 * n)) = false) /\
  randomUnitVec3OnSphere gen fuel i <> Undefined.
Proof.
  revert i. induction fuel as [|fuel IH]; intros i.
  - split; [|split].
    + intros v j. split; [discriminate|]. intros (n & Hn & _). lia.
    + split; [intros _ n Hn; lia | reflexivity].
    + discriminate.
  - rewrite randomUnitVec3OnSphere_step.
    destruct (IH (i + 3)%nat) as (I1 & I2 & I3).
    destruct (accepted (candidate gen i)) eqn:A.
    + split; [|split].
      * intros v j. split.
        -- intros H. injection H as <- <-. exists 0%nat.
           replace (i + 3 * 0)%nat with i by lia.
           split; [lia|]. split; [lia|]. split; [exact A|].
           split; [intros n' Hn'; lia | reflexivity].
        -- intros (n & Hn & -> & An & Hrej & ->).
           destruct n as [|n].
           ++ replace (i + 3 * 0)%nat with i by lia. reflexivity.
           ++ specialize (Hrej 0%nat ltac:(lia)).
              replace (i + 3 * 0)%nat with i in Hrej by lia. congruence.
      * split; [discriminate|]. intros H. specialize (H 0%nat ltac:(lia)).
        replace (i + 3 * 0)%nat with i in H by lia. congruence.
      * discriminate.
    + split; [|split; [|exact I3]].
      * intros v j. rewrite I1. split.
        -- intros (n & Hn & -> & An & Hrej & ->). exists (S n).
           replace (i + 3 * S n)%nat with (i + 3 + 3 * n)%nat by lia.
           split; [lia|]. split; [lia|]. split; [exact An|].
           split; [|reflexivity].
           intros [|n'] Hn'.
           ++ replace (i + 3 * 0)%nat with i by lia. exact A.
           ++ replace (i + 3 * S n')%nat with (i + 3 + 3 * n')%nat by lia.
              apply Hrej. lia.
        -- intros (n & Hn & -> & An & Hrej & ->).
           destruct n as [|n].
           ++ replace (i + 3 * 0)%nat with i in An by lia. congruence.
           ++ exists n.
              replace (i + 3 * S n)%nat with (i + 3 + 3 * n)%nat in * by lia.
              split; [lia|]. split; [lia|]. split; [exact An|].
              split; [|reflexivity].
              intros n' Hn'. specialize (Hrej (S n') ltac:(lia)).
              replace (i + 3 * S n')%nat with (i + 3 + 3 * n')%nat in Hrej by lia.
              exact Hrej.
      * rewrite I2. split.
        -- intros H [|n] Hn.
           ++ replace (i + 3 * 0)%nat with i by lia. exact A.
           ++ replace (i + 3 * S n)%nat with (i + 3 + 3 * n)%nat by lia.
              apply H. lia.
        -- intros H n Hn. specialize (H (S n) ltac:(lia)).
           replace (i + 3 * S n)%nat with (i + 3 + 3 * n)%nat in H by lia.
           exact H.
Qed.

(** X6.  [randomUnitVec3OnSphere] returns the first candidate of the
    stream that passes the test [FLT_MIN < l <= 1], divided by the square
    root of its squared length [l]: with the cursor at [i], the candidates
    are made from the numbers at [i], [i + 3], [i + 6], ...; the result is
    the normalized candidate number [n] exactly when that one is accepted
    and all before it are rejected, and the cursor has then advanced by
    [3 * (n + 1)].  The loop is still running after [fuel] candidates
    exactly when all of them are rejected, and it never reaches undefined
    behaviour. *)
Theorem randomUnitVec3OnSphere_first_accepted (gen : nat -> float)
    (fuel : nat) (i : nat) :
  (forall v j,
     randomUnitVec3OnSphere gen fuel i = Done v j <->
     exists n : nat,
       (n < fuel)%nat /\ j = (i + 3 * (n + 1))%nat /\
       accepted (candidate gen (i + 3 * n)) = true /\
       (forall n' : nat, (n' < n)%nat ->
          accepted (candidate gen (i + 3 * n')) = false) /\
       v = glm.div_s (candidate gen (i + 3 * n))
             (B32.sqrt (glm.dot (candidate gen (i + 3 * n))
                                (candidate gen (i + 3 * n))))) /\
  (randomUnitVec3OnSphere gen fuel i = OutOfFuel <->
   forall n : nat, (n < fuel)%nat ->
     accepted (candidate gen (i + 3 * n)) = false) /\
  randomUnitVec3OnSphere gen fuel i <> Undefined.
Proof. exact (rejection_loop_spec gen fuel i). Qed.

(** ** The pixel buffer *)

Lemma lor_below (a b n : Z) :
  0 <= n -> 0 <= a < 2 ^ n -> 0 <= b < 2 ^ n -> 0 <= Z.lor a b < 2 ^ n.
Proof.
  intros Hn Ha Hb. split; [apply Z.lor_nonneg; lia|].
  destruct (Z.eq_dec a 0) as [->|Na]; [rewrite Z.lor_0_l; lia|].
  destruct (Z.eq_dec b 0) as [->|Nb]; [rewrite Z.lor_0_r; lia|].
  assert (Hl : 0 < Z.lor a b).
  { assert (0 <= Z.lor a b) by (apply Z.lor_nonneg; lia).
    destruct (Z.eq_dec (Z.lor a b) 0) as [E|]; [|lia].
    apply Z.lor_eq_0_iff in E. lia. }
  apply Z.log2_lt_pow2; [exact Hl|].
  rewrite Z.log2_lor by lia.
  apply Z.max_lub_lt; apply Z.log2_lt_pow2; lia.
Qed.

Lemma land_lor_255 (x : Z) : Z.land (Z.lor x 255) 255 = 255.
Proof.
  rewrite Z.land_lor_distr_l. change (Z.land 255 255) with 255.
  apply Z.bits_inj'. intros n Hn.
  rewrite Z.lor_spec, Z.land_spec.
  destruct (Z.testbit 255 n); [apply orb_true_r | now rewrite andb_false_r].
Qed.

Lemma pack_opaque (c : vec3) (v : Z) : pack c = Some v -> opaque v.
Proof.
  unfold pack.
  destruct (to_uint32 _) as [r|]; [|discriminate].
  destruct (to_uint32 _) as [g|]; [|discriminate].
  destruct (to_uint32 _) as [b|]; [|discriminate].
  intros H. injection H as <-. split; [apply land_lor_255|].
  assert (U : forall n, 0 <= uint32 n < 2 ^ 32)
    by (intros n; unfold uint32; apply Z.mod_pos_bound; lia).
  repeat apply lor_below; try apply U; lia.
Qed.

Lemma store_spec (pixels : list Z) (idx : nat) (v : Z) :
  ((idx < length pixels)%nat ->
   exists pixels', store pixels idx v = Some pixels' /\
     length pixels' = length pixels /\
     nth_error pixels' idx = Some v /\
     forall k, k <> idx -> nth_error pixels' k = nth_error pixels k) /\
  ((length pixels <= idx)%nat -> store pixels idx v = None).
Proof.
  revert idx. induction pixels as [|p rest IH]; intros idx.
  - split; [simpl; lia | reflexivity].
  - destruct idx as [|idx]; simpl.
    + split; [|lia]. intros _. exists (v :: rest).
      repeat split. intros [|k] Hk; [congruence | reflexivity].
    + destruct (IH idx) as [I1 I2]. split.
      * intros H. destruct (I1 ltac:(lia)) as (rest' & -> & L & N & O).
        exists (p :: rest'). simpl. repeat split; [congruence | exact N |].
        intros [|k] Hk; [reflexivity|]. simpl. apply O. congruence.
      * intros H. now rewrite I2 by lia.
Qed.

Lemma for_range_invariant {St : Type} (I : Z -> St -> Prop)
    (body : Z -> St -> M St) (n : nat) (k : Z) (s : St) (i : nat) (s' : St)
    (j : nat) :
  (forall x s i s' j, k <= x < k + Z.of_nat n -> I x s ->
     body x s i = Done s' j -> I (x + 1) s') ->
  I k s -> for_range n k body s i = Done s' j -> I (k + Z.of_nat n) s'.
Proof.
  revert k s i. induction n as [|n IH]; intros k s i Hbody Hk H.
  - injection H as <- _. now rewrite Z.add_0_r.
  - cbn [for_range] in H. unfold bind in H.
    destruct (body k s i) as [s1 j1| |] eqn:E; try discriminate.
    replace (k + Z.of_nat (S n)) with (k + 1 + Z.of_nat n) by lia.
    apply (IH (k + 1) s1 j1).
    + intros x s2 i2 s3 j3 Hx. apply Hbody. lia.
    + apply (Hbody k s i s1 j1); [lia | exact Hk | exact E].
    + exact H.
Qed.

Lemma pixel_opaque (gen : nat -> float) (w h : Z) (fov : float) (world : World)
    (fuel : nat) (x y : Z) (pixels : list Z) (i : nat) (pixels' : list Z)
    (j : nat) (size : nat) :
  0 <= x < w -> 0 <= y < h -> w * h < 2 ^ 32 ->
  opaque_prefix size (y * w + x) pixels ->
  pixel gen w h fov world fuel x y pixels i = Done pixels' j ->
  opaque_prefix size (y * w + x + 1) pixels'.
Proof.
  intros Hx Hy Hwh [Hlen Hpre] H. unfold pixel, bind in H.
  destruct (sample_loop _ _ _ _ _ _ _ _ _ _ _ _) as [c j1| |]; try discriminate.
  destruct (pack _) as [v|] eqn:Ep; [|discriminate].
  destruct (store pixels _ v) as [px|] eqn:Es; [|discriminate].
  injection H as <- _.
  assert (Hidx : uint32 (y * w + x) = y * w + x).
  { unfold uint32. apply Z.mod_small. nia. }
  rewrite Hidx in Es.
  destruct (store_spec pixels (Z.to_nat (y * w + x)) v) as [S1 S2].
  destruct (Nat.lt_ge_cases (Z.to_nat (y * w + x)) (length pixels)) as [L|L];
    [|rewrite (S2 L) in Es; discriminate].
  destruct (S1 L) as (px' & E & Len & Nth & Oth). rewrite E in Es.
  injection Es as <-. split; [congruence|].
  intros k p Hk Hp.
  destruct (Nat.eq_dec k (Z.to_nat (y * w + x))) as [->|Nk].
  - rewrite Nth in Hp. injection Hp as <-. exact (pack_opaque _ _ Ep).
  - rewrite (Oth k Nk) in Hp. apply (Hpre k p); [|exact Hp].
    assert (Z.of_nat k <> y * w + x) by nia. lia.
Qed.

(** X7.  For dimensions whose product fits [uint32_t], a render that
    finishes leaves a buffer of [w * h] pixels, each of them a 32-bit word
    whose low byte, the alpha channel, is 0xFF. *)
Theorem render_opaque (gen : nat -> float) (w h : Z) (fov : float)
    (world : World) (fuel : nat) (i : nat) (pixels : list Z) (j : nat) :
  0 <= w -> 0 <= h -> w * h < 2 ^ 32 ->
  render gen w h fov world fuel i = Done pixels j ->
  length pixels = Z.to_nat (w * h) /\ Forall opaque pixels.
Proof.
  intros Hw Hh Hwh H. unfold render in H.
  assert (Hsize : uint32 (w * h) = w * h)
    by (unfold uint32; apply Z.mod_small; nia).
  rewrite Hsize in H.
  set (size := Z.to_nat (w * h)) in *.
  pose proof (for_range_invariant
    (fun y px => opaque_prefix size (y * w) px)
    (fun y => for_range (Z.to_nat w) 0 (fun x => pixel gen w h fov world fuel x y))
    (Z.to_nat h) 0 (repeat 0 size) i pixels j) as Rows.
  cbv beta in Rows. destruct Rows as [Hlen Hpre].
  - intros y px i1 px1 j1 Hy Inv Hrow.
    pose proof (for_range_invariant
      (fun x px => opaque_prefix size (y * w + x) px)
      (fun x => pixel gen w h fov world fuel x y)
      (Z.to_nat w) 0 px i1 px1 j1) as Cols.
    cbv beta in Cols.
    replace ((y + 1) * w) with (y * w + (0 + Z.of_nat (Z.to_nat w))) by lia.
    apply Cols.
    + intros x px2 i2 px3 j2 Hx Inv2 Hpix.
      replace (y * w + (x + 1)) with (y * w + x + 1) by lia.
      apply (pixel_opaque gen w h fov world fuel x y px2 i2 px3 j2 size);
        auto; lia.
    + now rewrite Z.add_0_r.
    + exact Hrow.
  - split; [apply repeat_length|]. intros k p Hk. lia.
  - exact H.
  - split; [exact Hlen|]. apply Forall_forall. intros p Hin.
    apply In_nth_error in Hin. destruct Hin as [k Hk].
    apply (Hpre k p); [|exact Hk].
    assert (k < length pixels)%nat by (apply nth_error_Some; congruence).
    unfold size in Hlen. nia.
Qed.

(** The 2 x 1 image of the empty scene. *)
Lemma render_opaque_witness :
  length [3034903039; 3034903039] = Z.to_nat (2 * 1) /\
  Forall opaque [3034903039; 3034903039].
Proof.
  apply (render_opaque Examples.gen_half 2 1 Examples.fov30 (Examples.scene [])
           150 0 [3034903039; 3034903039] 600);
    [lia | lia | reflexivity | vm_compute; reflexivity].
Defined.

(** ** Rounding is monotone *)

Section Monotone.
Variables prec emax : Z.
Hypothesis prec_pos : 0 < prec.
Local Notation "'emin'" := (SpecFloat.emin prec emax).
Local Notation "'fexp'" := (SpecFloat.fexp prec emax).
Local Notation "'canonical'" := (canonical prec emax).
Local Notation "'rounded'" := (rounded prec emax).
Import Stdlib.Reals.Reals Stdlib.micromega.Lra.

(** Rounding does not pass a canonical number below the exact one. *)
Lemma round_aux_lower (s : bool) (mx ex : Z) (lx : location) (v : R)
    (mB eB : Z) :
  0 <= mx -> ex <= fexp (Zdigits2 mx + ex) ->
  located mx ex lx v ->
  canonical mB eB -> (F2R mB eB <= v)%R ->
  let r := binary_round_aux prec emax s mx ex lx in
  r = S754_infinity s \/
  exists (m2 : positive) (e2 : Z),
    r = S754_finite s m2 e2 /\ canonical (Z.pos m2) e2 /\
    (eB < e2 \/ (e2 = eB /\ mB <= Z.pos m2)).
Proof.
  intros Hm He (Lv & Uv & Sv) HB Hv r.
  destruct (binary_round_aux_spec prec emax prec_pos s mx ex lx Hm He)
    as (m1 & Hr & Hup & Hmin & Hrd).
  fold r in Hrd.
  set (e1 := fexp (Zdigits2 mx + ex)) in *. set (n := e1 - ex) in *.
  set (f := mx / 2 ^ n) in *. set (d := Zdigits2 mx) in *.
  assert (Hn : 0 <= n) by (unfold n; lia).
  assert (Hpn : 0 < 2 ^ n) by (apply Z.pow_pos_nonneg; lia).
  assert (Hd : 0 <= d) by apply Zdigits2_nonneg.
  assert (Hmd : mx + 1 <= 2 ^ d).
  { destruct (Z.eq_dec mx 0) as [->|N]; [reflexivity|].
    pose proof (Zdigits2_bounds mx ltac:(lia)) as [_ U]. fold d in U. lia. }
  destruct HB as [PB CB].
  pose proof (F2R_digits mB eB PB) as [LB UB].
  assert (Hvd : (v < bpow (d + ex))%R).
  { assert (F2R (mx + 1) ex <= F2R (2 ^ d) ex)%R by now apply F2R_le_mono.
    replace (F2R (2 ^ d) ex) with (bpow (d + ex)) in H.
    - lra.
    - rewrite <- F2R_bpow. replace (d + ex) with (ex + d) by lia.
      rewrite <- F2R_shift by lia. f_equal. lia. }
  assert (HdB : Zdigits2 mB + eB <= d + ex).
  { assert (bpow (Zdigits2 mB + eB - 1) < bpow (d + ex))%R by lra.
    apply bpow_lt_inv in H. lia. }
  assert (He1B : eB <= e1).
  { rewrite <- CB. now apply fexp_mono. }
  assert (Hfv : (F2R mB eB <= F2R f e1)%R).
  { destruct (Z.eq_dec eB e1) as [E|N].
    - rewrite E in *. apply F2R_le_mono.
      assert (Hlt : (F2R (mB * 2 ^ n) ex < F2R (mx + 1) ex)%R).
      { rewrite F2R_shift by lia. replace (ex + n) with e1 by (unfold n; lia).
        lra. }
      apply F2R_lt_inv in Hlt.
      unfold f. apply Z.div_le_lower_bound; lia.
    - assert (Hgt : emin < e1).
      { pose proof (fexp_ge_emin prec emax (Zdigits2 mB + eB)). lia. }
      assert (E1 : e1 = d + ex - prec).
      { unfold e1. rewrite fexp_eq. unfold e1 in Hgt. rewrite fexp_eq in Hgt.
        lia. }
      assert (Hmx : 0 < mx).
      { destruct (Z.eq_dec mx 0) as [Z0|]; [|lia].
        unfold d in E1. rewrite Z0 in E1. simpl in E1. unfold n in Hn. lia. }
      pose proof (Zdigits2_bounds mx Hmx) as [Lm _]. fold d in Lm.
      assert (Hnd : n = d - prec) by (unfold n; lia).
      assert (Hf : 2 ^ (prec - 1) <= f).
      { unfold f. apply Z.div_le_lower_bound; [lia|].
        rewrite <- Z.pow_add_r by lia.
        replace (n + (prec - 1)) with (d - 1) by lia. exact Lm. }
      assert (HB2 : Zdigits2 mB + eB <= e1 - 1 + prec).
      { rewrite fexp_eq in CB. lia. }
      pose proof (bpow_le (Zdigits2 mB + eB) (e1 - 1 + prec) HB2).
      assert (F2R (2 ^ (prec - 1)) e1 <= F2R f e1)%R by now apply F2R_le_mono.
      replace (F2R (2 ^ (prec - 1)) e1) with (bpow (e1 - 1 + prec)) in H0.
      + lra.
      + rewrite <- F2R_bpow. replace (e1 - 1 + prec) with (e1 + (prec - 1)) by lia.
        rewrite <- F2R_shift by lia. f_equal. lia. }
  assert (Hm1 : (F2R mB eB <= F2R m1 e1)%R).
  { assert (F2R f e1 <= F2R m1 e1)%R by (apply F2R_le_mono; lia). lra. }
  pose proof (F2R_pos mB eB PB) as PosB.
  destruct (rounded_inv prec emax s m1 e1 r Hrd)
    as [[Z0 _]|(m2 & e2 & Hc & Hval & Hres)].
  { exfalso. rewrite Z0 in Hm1. unfold F2R in Hm1 at 2.
    rewrite Rmult_0_l in Hm1. lra. }
  destruct (e2 <=? emax - prec); [right|now left].
  exists m2, e2. split; [exact Hres|]. split; [exact Hc|].
  assert (Hle : eB < e2 \/ (eB = e2 /\ mB <= Z.pos m2)).
  { apply (canonical_le prec emax mB eB (Z.pos m2) e2 (conj PB CB) Hc). lra. }
  lia.
Qed.

(** [binary_round] keeps the order with the canonical numbers. *)
Lemma binary_round_upper (s : bool) (m : positive) (e : Z) (mB eB : Z) :
  canonical mB eB -> eB <= emax - prec ->
  (F2R (Z.pos m) e <= F2R mB eB)%R ->
  let r := binary_round prec emax s m e in
  r = S754_zero s \/
  exists (m2 : positive) (e2 : Z),
    r = S754_finite s m2 e2 /\ canonical (Z.pos m2) e2 /\
    (e2 < eB \/ (e2 = eB /\ Z.pos m2 <= mB)).
Proof.
  intros HB HeB Hv. cbv zeta. unfold binary_round.
  pose proof (shl_align_spec m e (fexp (Z.pos (digits2_pos m) + e))) as A.
  destruct (shl_align m e (fexp (Z.pos (digits2_pos m) + e))) as [mz ez].
  destruct A as [Ee Em].
  assert (He : ez <= fexp (Zdigits2 (Z.pos mz) + ez)).
  { rewrite Em, Zdigits2_shift by lia.
    change (Zdigits2 (Z.pos m)) with (Z.pos (digits2_pos m)).
    replace (Z.pos (digits2_pos m) + (e - ez) + ez) with (Z.pos (digits2_pos m) + e)
      by lia.
    lia. }
  assert (Hz : F2R (Z.pos m) e = F2R (Z.pos mz) ez).
  { rewrite Em, F2R_shift by lia. f_equal. lia. }
  apply (round_aux_upper prec emax prec_pos s (Z.pos mz) ez loc_Exact
           (F2R (Z.pos mz) ez) mB eB); auto; try lia.
  - split; [lra|]. split; [apply F2R_lt_mono; lia | congruence].
  - lra.
Qed.

Lemma binary_round_lower (s : bool) (m : positive) (e : Z) (mB eB : Z) :
  canonical mB eB ->
  (F2R mB eB <= F2R (Z.pos m) e)%R ->
  let r := binary_round prec emax s m e in
  r = S754_infinity s \/
  exists (m2 : positive) (e2 : Z),
    r = S754_finite s m2 e2 /\ canonical (Z.pos m2) e2 /\
    (eB < e2 \/ (e2 = eB /\ mB <= Z.pos m2)).
Proof.
  intros HB Hv. cbv zeta. unfold binary_round.
  pose proof (shl_align_spec m e (fexp (Z.pos (digits2_pos m) + e))) as A.
  destruct (shl_align m e (fexp (Z.pos (digits2_pos m) + e))) as [mz ez].
  destruct A as [Ee Em].
  assert (He : ez <= fexp (Zdigits2 (Z.pos mz) + ez)).
  { rewrite Em, Zdigits2_shift by lia.
    change (Zdigits2 (Z.pos m)) with (Z.pos (digits2_pos m)).
    replace (Z.pos (digits2_pos m) + (e - ez) + ez) with (Z.pos (digits2_pos m) + e)
      by lia.
    lia. }
  assert (Hz : F2R (Z.pos m) e = F2R (Z.pos mz) ez).
  { rewrite Em, F2R_shift by lia. f_equal. lia. }
  apply (round_aux_lower s (Z.pos mz) ez loc_Exact
           (F2R (Z.pos mz) ez) mB eB); auto; try lia.
  - split; [lra|]. split; [apply F2R_lt_mono; lia | congruence].
  - lra.
Qed.
End Monotone.

(** ** The order and the operations of binary32 on the values *)

Section Values32.
Import Stdlib.Reals.Reals Stdlib.micromega.Lra.
Local Open Scope R_scope.
Local Notation "'canonical32'" := (canonical B32.prec B32.emax).

Lemma canonical_lt_iff (m1 e1 m2 e2 : Z) :
  canonical32 m1 e1 -> canonical32 m2 e2 ->
  F2R m1 e1 < F2R m2 e2 <-> (e1 < e2 \/ (e1 = e2 /\ m1 < m2))%Z.
Proof.
  intros C1 C2.
  pose proof (canonical_le B32.prec B32.emax m2 e2 m1 e1 C2 C1) as [A B].
  split.
  - intros H.
    destruct (Z.lt_trichotomy e1 e2) as [L|[E|G]]; [now left| |].
    + right. split; [exact E|]. subst e2. now apply F2R_lt_inv in H.
    + assert (F2R m2 e2 <= F2R m1 e1) by (apply B; now left). lra.
  - now apply (canonical_lt B32.prec B32.emax).
Qed.

Lemma B2R_zero (s : bool) : B2R (S754_zero s) = 0.
Proof. reflexivity. Qed.

(** On finite numbers of the format the comparisons of the source are
    those of the values. *)
Lemma leb_B2R (x y : float) :
  B32.valid x = true -> B32.valid y = true ->
  is_finite x = true -> is_finite y = true ->
  B32.leb x y = true <-> B2R x <= B2R y.
Proof.
  intros Vx Vy Fx Fy.
  destruct x as [sx|sx| |sx mx ex]; try discriminate;
    destruct y as [sy|sy| |sy my ey]; try discriminate;
    rewrite leb_rank by reflexivity.
  - simpl. split; [lra | lia].
  - pose proof (F2R_pos (Z.pos my) ey ltac:(lia)).
    destruct sy; simpl; split; intros; try lra; lia.
  - pose proof (F2R_pos (Z.pos mx) ex ltac:(lia)).
    destruct sx; simpl; split; intros; try lra; lia.
  - apply valid_canonical in Vx, Vy. destruct Vx as [Cx _], Vy as [Cy _].
    pose proof (F2R_pos (Z.pos mx) ex ltac:(lia)).
    pose proof (F2R_pos (Z.pos my) ey ltac:(lia)).
    pose proof (canonical_le B32.prec B32.emax _ _ _ _ Cx Cy) as [A1 B1].
    pose proof (canonical_le B32.prec B32.emax _ _ _ _ Cy Cx) as [A2 B2].
    destruct sx, sy; simpl; split; intros K; try lra; try lia.
    + assert (F2R (Z.pos my) ey <= F2R (Z.pos mx) ex) by (apply B2; lia). lra.
    + assert (F2R (Z.pos my) ey <= F2R (Z.pos mx) ex) by lra.
      apply A2 in H1. lia.
    + apply B1. lia.
    + apply A1 in K. lia.
Qed.

Lemma ltb_B2R (x y : float) :
  B32.valid x = true -> B32.valid y = true ->
  is_finite x = true -> is_finite y = true ->
  B32.ltb x y = true <-> B2R x < B2R y.
Proof.
  intros Vx Vy Fx Fy.
  assert (Nx : B32.is_nan x = false) by (destruct x; try discriminate; reflexivity).
  assert (Ny : B32.is_nan y = false) by (destruct y; try discriminate; reflexivity).
  pose proof (leb_B2R y x Vy Vx Fy Fx) as L.
  split.
  - intros H. apply ltb_leb_false in H.
    destruct (Rlt_le_dec (B2R x) (B2R y)) as [K|K]; [exact K|].
    apply L in K. congruence.
  - intros H. apply leb_false_ltb; auto.
    destruct (B32.leb y x) eqn:E; [|reflexivity].
    assert (B2R y <= B2R x) by (apply L; reflexivity). lra.
Qed.

(** Rounding a number between two numbers of the format gives a number
    between them. *)
Lemma round_aux_between (s : bool) (mx ex : Z) (lx : location) (v : R)
    (lo hi : float) :
  (0 <= mx)%Z ->
  (ex <= fexp B32.prec B32.emax (Zdigits2 mx + ex))%Z ->
  located mx ex lx v ->
  B32.valid lo = true -> is_finite lo = true ->
  B32.valid hi = true -> is_finite hi = true ->
  B2R lo <= (if s then - v else v) <= B2R hi ->
  let r := binary_round_aux B32.prec B32.emax s mx ex lx in
  is_finite r = true /\ B32.valid r = true /\ B2R lo <= B2R r <= B2R hi.
Proof.
  intros Hm He Hloc Vlo Flo Vhi Fhi Hv r.
  assert (Hv0 : 0 <= v).
  { destruct Hloc as (L & _). pose proof (F2R_le_mono 0 mx ex Hm).
    unfold F2R at 1 in H. rewrite Rmult_0_l in H. lra. }
  (* the bound on the side of the sign, and the one on the other side *)
  set (up := if s then lo else hi).
  set (dn := if s then hi else lo).
  assert (Vup : B32.valid up = true) by (unfold up; destruct s; assumption).
  assert (Fup : is_finite up = true) by (unfold up; destruct s; assumption).
  assert (Vdn : B32.valid dn = true) by (unfold dn; destruct s; assumption).
  assert (Fdn : is_finite dn = true) by (unfold dn; destruct s; assumption).
  set (sg := fun t : R => if s then - t else t).
  assert (Hup : v <= sg (B2R up)).
  { unfold sg, up. destruct s; lra. }
  assert (Hdn : sg (B2R dn) <= v).
  { unfold sg, dn. destruct s; lra. }
  assert (Goal' : is_finite r = true /\ B32.valid r = true /\
                  sg (B2R dn) <= sg (B2R r) <= sg (B2R up)).
  { pose proof (binary_round_aux_spec B32.prec B32.emax prec32_pos s mx ex lx Hm He)
      as (m1 & Hr & Hupm & Hmin & Hrd). fold r in Hrd.
    pose proof (rounded_valid _ _ _ _ _ _ Hrd) as Vr.
    (* the upper side *)
    assert (U : is_finite r = true /\ sg (B2R r) <= sg (B2R up) /\
                0 <= sg (B2R r) /\
                (r = S754_zero s \/ exists m2 e2, r = S754_finite s m2 e2 /\
                   canonical32 (Z.pos m2) e2)).
    { destruct up as [su|su| |su mu eu] eqn:Eup; try discriminate.
      - (* the bound is zero: the exact number is zero *)
        rewrite B2R_zero in Hup. unfold sg in Hup.
        assert (v = 0) by (destruct s; lra). subst v.
        destruct Hloc as (L & U & Sl).
        assert (mx = 0)%Z.
        { destruct (Z.eq_dec mx 0) as [E|N]; [exact E|].
          pose proof (F2R_pos mx ex ltac:(lia)). lra. }
        subst mx.
        assert (m1 = 0)%Z.
        { rewrite Z.div_0_l in Hr, Hupm
            by (apply Z.pow_nonzero; [lia|]; lia).
          destruct (Z.eq_dec m1 0) as [E|N]; [exact E|].
          destruct (Hupm ltac:(lia)) as [K|K].
          - specialize (Sl K). unfold F2R in Sl. rewrite Rmult_0_l in Sl. lra.
          - rewrite Z.mod_0_l in K by (apply Z.pow_nonzero; [lia|]; lia).
            congruence. }
        destruct (rounded_inv _ _ _ _ _ _ Hrd) as [[_ ->]|(m2 & e2 & C & E & _)].
        + rewrite !B2R_zero. split; [reflexivity|]. unfold sg.
          split; [destruct s; lra|]. split; [destruct s; lra | now left].
        + subst m1. unfold F2R in E at 2. rewrite Rmult_0_l in E.
          destruct C as [P _]. pose proof (F2R_pos _ e2 P). lra.
      - (* the bound is a number of the sign [s] *)
        apply valid_canonical in Vup. destruct Vup as [Cu Eu].
        pose proof (F2R_pos (Z.pos mu) eu ltac:(lia)) as Pu.
        assert (su = s).
        { unfold sg in Hup. cbn [B2R] in Hup. destruct s, su; try reflexivity; lra. }
        subst su.
        assert (Hsg : sg (B2R (S754_finite s mu eu)) = F2R (Z.pos mu) eu).
        { unfold sg. cbn [B2R]. destruct s; lra. }
        rewrite Hsg in *.
        destruct (round_aux_upper B32.prec B32.emax prec32_pos s mx ex lx v
                    (Z.pos mu) eu Hm He Hloc Cu Eu Hup)
          as [E|(m2 & e2 & E & C2 & L2)]; fold r in E; rewrite E.
        + rewrite B2R_zero. unfold sg. split; [reflexivity|].
          split; [destruct s; lra|]. split; [destruct s; lra | now left].
        + split; [reflexivity|].
          pose proof (F2R_pos (Z.pos m2) e2 ltac:(lia)).
          assert (sg (B2R (S754_finite s m2 e2)) = F2R (Z.pos m2) e2).
          { unfold sg. cbn [B2R]. destruct s; lra. }
          rewrite H0. split.
          * apply (canonical_le B32.prec B32.emax _ _ _ _ C2 Cu). exact L2.
          * split; [lra|]. right. now exists m2, e2. }
    destruct U as (Fr & Ur & Pr & Shape).
    split; [exact Fr|]. split; [exact Vr|]. split; [|exact Ur].
    (* the lower side *)
    destruct dn as [sd|sd| |sd md ed] eqn:Edn; try discriminate.
    - rewrite B2R_zero. unfold sg at 1. destruct s; lra.
    - apply valid_canonical in Vdn. destruct Vdn as [Cd Ed].
      pose proof (F2R_pos (Z.pos md) ed ltac:(lia)) as Pd.
      destruct (Bool.bool_dec sd s) as [->|Ns].
      + assert (Hsg : sg (B2R (S754_finite s md ed)) = F2R (Z.pos md) ed).
        { unfold sg. cbn [B2R]. destruct s; lra. }
        rewrite Hsg in *.
        destruct (round_aux_lower B32.prec B32.emax prec32_pos s mx ex lx v
                    (Z.pos md) ed Hm He Hloc Cd Hdn)
          as [E|(m2 & e2 & E & C2 & L2)]; fold r in E; rewrite E in *.
        * discriminate.
        * assert (sg (B2R (S754_finite s m2 e2)) = F2R (Z.pos m2) e2).
          { unfold sg. cbn [B2R]. destruct s; lra. }
          rewrite H.
          apply (canonical_le B32.prec B32.emax _ _ _ _ Cd C2). lia.
      + assert (sg (B2R (S754_finite sd md ed)) <= 0).
        { unfold sg. cbn [B2R]. destruct s, sd; try congruence; lra. }
        lra. }
  destruct Goal' as (Fr & Vr & B1 & B2).
  split; [exact Fr|]. split; [exact Vr|].
  unfold sg, up, dn in *. destruct s; lra.
Qed.
End Values32.

Section Operations32.
Import Stdlib.Reals.Reals Stdlib.micromega.Lra.
Local Open Scope R_scope.
Local Notation "'canonical32'" := (canonical B32.prec B32.emax).

Lemma binary_round_between (s : bool) (m : positive) (e : Z) (lo hi : float) :
  B32.valid lo = true -> is_finite lo = true ->
  B32.valid hi = true -> is_finite hi = true ->
  B2R lo <= (if s then - F2R (Z.pos m) e else F2R (Z.pos m) e) <= B2R hi ->
  let r := binary_round B32.prec B32.emax s m e in
  is_finite r = true /\ B32.valid r = true /\ B2R lo <= B2R r <= B2R hi.
Proof.
  intros Vlo Flo Vhi Fhi Hv. cbv zeta. unfold binary_round.
  pose proof (shl_align_spec m e
                (fexp B32.prec B32.emax (Z.pos (digits2_pos m) + e))) as A.
  destruct (shl_align m e (fexp B32.prec B32.emax (Z.pos (digits2_pos m) + e)))
    as [mz ez].
  destruct A as [Ee Em].
  assert (He : (ez <= fexp B32.prec B32.emax (Zdigits2 (Z.pos mz) + ez))%Z).
  { rewrite Em, Zdigits2_shift by lia.
    change (Zdigits2 (Z.pos m)) with (Z.pos (digits2_pos m)).
    replace (Z.pos (digits2_pos m) + (e - ez) + ez)%Z
      with (Z.pos (digits2_pos m) + e)%Z by lia.
    lia. }
  assert (Hz : F2R (Z.pos m) e = F2R (Z.pos mz) ez).
  { rewrite Em, F2R_shift by lia. f_equal. lia. }
  rewrite Hz in Hv.
  apply (round_aux_between s (Z.pos mz) ez loc_Exact (F2R (Z.pos mz) ez) lo hi);
    auto; try lia.
  split; [lra|]. split; [apply F2R_lt_mono; lia | congruence].
Qed.

Lemma binary_normalize_between (m e : Z) (sz : bool) (lo hi : float) :
  B32.valid lo = true -> is_finite lo = true ->
  B32.valid hi = true -> is_finite hi = true ->
  B2R lo <= F2R m e <= B2R hi ->
  let r := binary_normalize B32.prec B32.emax m e sz in
  is_finite r = true /\ B32.valid r = true /\ B2R lo <= B2R r <= B2R hi.
Proof.
  intros Vlo Flo Vhi Fhi Hv. cbv zeta.
  destruct m as [|p|p]; cbn [binary_normalize].
  - unfold F2R in Hv. rewrite Rmult_0_l in Hv. rewrite B2R_zero. auto.
  - now apply (binary_round_between false p e lo hi).
  - apply (binary_round_between true p e lo hi); auto.
    replace (- F2R (Z.pos p) e) with (F2R (Z.neg p) e); [exact Hv|].
    unfold F2R. change (Z.neg p) with (- Z.pos p)%Z. rewrite opp_IZR. ring.
Qed.

(** The value of a number written with a sign. *)
Lemma F2R_cond_Zopp (s : bool) (m : positive) (e : Z) :
  F2R (cond_Zopp s (Z.pos m)) e = B2R (S754_finite s m e).
Proof.
  destruct s; cbn [cond_Zopp B2R]; [|reflexivity].
  unfold F2R. change (Z.opp (Z.pos m)) with (- Z.pos m)%Z.
  rewrite opp_IZR. ring.
Qed.

Lemma aligned_value (s : bool) (m : positive) (e ez : Z) :
  (ez <= e)%Z ->
  F2R (cond_Zopp s (Z.pos (fst (shl_align m e ez)))) ez = B2R (S754_finite s m e).
Proof.
  intros H. pose proof (shl_align_spec m e ez) as A.
  destruct (shl_align m e ez) as [m' e']. destruct A as [Ee Em]. cbn [fst].
  rewrite F2R_cond_Zopp. cbn [B2R].
  assert (F2R (Z.pos m') ez = F2R (Z.pos m) e).
  { rewrite Em, F2R_shift by lia. f_equal; lia. }
  destruct s; lra.
Qed.

Lemma F2R_add (m1 m2 e : Z) : F2R (m1 + m2) e = F2R m1 e + F2R m2 e.
Proof. unfold F2R. rewrite plus_IZR. ring. Qed.


(** A sum that lies between two numbers of the format is rounded to a
    number between them: it does not overflow, and a sum that is a number
    of the format is exact. *)
Lemma add_between (a b lo hi : float) :
  B32.valid a = true -> is_finite a = true ->
  B32.valid b = true -> is_finite b = true ->
  B32.valid lo = true -> is_finite lo = true ->
  B32.valid hi = true -> is_finite hi = true ->
  B2R lo <= B2R a + B2R b <= B2R hi ->
  is_finite (B32.add a b) = true /\ B32.valid (B32.add a b) = true /\
  B2R lo <= B2R (B32.add a b) <= B2R hi.
Proof.
  intros Va Fa Vb Fb Vlo Flo Vhi Fhi Hv.
  destruct a as [sa|sa| |sa ma ea]; try discriminate;
    destruct b as [sb|sb| |sb mb eb]; try discriminate.
  - rewrite !B2R_zero in Hv.
    assert (E : B2R (B32.add (S754_zero sa) (S754_zero sb)) = 0)
      by (destruct sa, sb; reflexivity).
    rewrite E. split; [destruct sa, sb; reflexivity|].
    split; [destruct sa, sb; reflexivity | lra].
  - rewrite B2R_zero, Rplus_0_l in Hv. cbn [B32.add SFadd]. auto.
  - rewrite B2R_zero, Rplus_0_r in Hv. cbn [B32.add SFadd]. auto.
  - unfold B32.add, SFadd.
    apply binary_normalize_between; auto.
    rewrite F2R_add, !aligned_value by lia. exact Hv.
Qed.


(** The same for a product. *)
Lemma mul_between (a b lo hi : float) :
  B32.valid a = true -> is_finite a = true ->
  B32.valid b = true -> is_finite b = true ->
  B32.valid lo = true -> is_finite lo = true ->
  B32.valid hi = true -> is_finite hi = true ->
  B2R lo <= B2R a * B2R b <= B2R hi ->
  is_finite (B32.mul a b) = true /\ B32.valid (B32.mul a b) = true /\
  B2R lo <= B2R (B32.mul a b) <= B2R hi.
Proof.
  intros Va Fa Vb Fb Vlo Flo Vhi Fhi Hv.
  destruct a as [sa|sa| |sa ma ea]; try discriminate;
    destruct b as [sb|sb| |sb mb eb]; try discriminate;
    try (cbn [B32.mul SFmul]; rewrite B2R_zero;
         rewrite ?B2R_zero, ?Rmult_0_l, ?Rmult_0_r in Hv; auto; fail).
  unfold B32.mul, SFmul.
  apply valid_canonical in Va, Vb. destruct Va as [Ca _], Vb as [Cb _].
  apply (round_aux_between (xorb sa sb) (Z.pos (ma * mb)) (ea + eb) loc_Exact
           (F2R (Z.pos (ma * mb)) (ea + eb)) lo hi); auto; try lia.
  - now apply mul_exponent.
  - split; [lra|]. split; [apply F2R_lt_mono; lia | congruence].
  - rewrite Pos2Z.inj_mul, <- F2R_mul. cbn [B2R] in Hv.
    destruct sa, sb; simpl; lra.
Qed.

(** The conversion of an integer. *)
Lemma of_Z_between (n : Z) (lo hi : float) :
  B32.valid lo = true -> is_finite lo = true ->
  B32.valid hi = true -> is_finite hi = true ->
  B2R lo <= IZR n <= B2R hi ->
  is_finite (B32.of_Z n) = true /\ B32.valid (B32.of_Z n) = true /\
  B2R lo <= B2R (B32.of_Z n) <= B2R hi.
Proof.
  intros Vlo Flo Vhi Fhi Hv. unfold B32.of_Z.
  apply binary_normalize_between; auto.
  unfold F2R, bpow. simpl. lra.
Qed.
End Operations32.

Section Integers32.
Import Stdlib.Reals.Reals Stdlib.micromega.Lra.
Local Open Scope R_scope.

(** The integers below [2^24] are numbers of the format. *)
Lemma int_representable (k : Z) :
  (Z.abs k < 2 ^ 24)%Z ->
  exists c, B32.valid c = true /\ is_finite c = true /\ B2R c = IZR k.
Proof.
  intros Hk.
  assert (Pos : forall p : positive, (Z.pos p < 2 ^ 24)%Z ->
            exists m e, B32.valid (S754_finite false m e) = true /\
                        F2R (Z.pos m) e = IZR (Z.pos p)).
  { intros p Hp.
    pose proof (Zdigits2_bounds (Z.pos p) ltac:(lia)) as [L U].
    pose proof (Zdigits2_pos (Z.pos p) ltac:(lia)) as P.
    set (d := Zdigits2 (Z.pos p)) in *.
    assert (Hd : (d <= 24)%Z).
    { destruct (Z.le_gt_cases d 24) as [H|H]; [exact H|].
      assert (2 ^ 24 <= 2 ^ (d - 1))%Z by (apply Z.pow_le_mono_r; lia). lia. }
    assert (Hm : (0 < Z.pos p * 2 ^ (24 - d))%Z).
    { apply Z.mul_pos_pos; [lia|]. apply Z.pow_pos_nonneg; lia. }
    exists (Z.to_pos (Z.pos p * 2 ^ (24 - d))), (d - 24)%Z.
    rewrite Z2Pos.id by exact Hm. split.
    - apply valid_canonical. rewrite Z2Pos.id by exact Hm. split.
      + split; [exact Hm|].
        rewrite Zdigits2_shift by lia. fold d.
        rewrite fexp_eq, emin_eq.
        change B32.prec with 24%Z. change B32.emax with 128%Z. lia.
      + change B32.prec with 24%Z. change B32.emax with 128%Z. lia.
    - rewrite F2R_shift by lia. replace (d - 24 + (24 - d))%Z with 0%Z by lia.
      unfold F2R, bpow. simpl. lra. }
  destruct k as [|p|p].
  - exists (S754_zero false). repeat split.
  - destruct (Pos p ltac:(lia)) as (m & e & V & E).
    exists (S754_finite false m e). repeat split; assumption.
  - destruct (Pos p ltac:(lia)) as (m & e & V & E).
    exists (S754_finite true m e). split; [exact V|]. split; [reflexivity|].
    cbn [B2R]. rewrite E. change (Z.neg p) with (- Z.pos p)%Z.
    now rewrite opp_IZR.
Qed.

(** Their conversion to [float] is exact. *)
Lemma of_Z_exact (k : Z) :
  (Z.abs k < 2 ^ 24)%Z ->
  is_finite (B32.of_Z k) = true /\ B32.valid (B32.of_Z k) = true /\
  B2R (B32.of_Z k) = IZR k.
Proof.
  intros Hk. destruct (int_representable k Hk) as (c & V & F & E).
  destruct (of_Z_between k c c V F V F) as (F' & V' & B); [rewrite E; lra|].
  split; [exact F'|]. split; [exact V'|]. lra.
Qed.

Lemma B2R_one : B2R B32.one = 1.
Proof. cbn [B32.one B2R]. apply F2R_one. Qed.


End Integers32.

(** ** The recursion of the integrator ends *)






(** ** The sampling loop *)

Section Loop.
Import Stdlib.Reals.Reals Stdlib.micromega.Lra.
Local Open Scope R_scope.

Lemma B2R_sampleCount : B2R sampleCount = 150.
Proof.
  change sampleCount with (S754_finite false 9830400 (-16)). cbn [B2R].
  change 9830400%Z with (150 * 2 ^ 16)%Z. rewrite F2R_shift by lia.
  unfold F2R, bpow. simpl. lra.
Qed.

(** The comparison [i < sampleCount] of the loop, made on [float], is the
    comparison of the integers for every [uint32_t]. *)
Lemma sample_guard (i : Z) :
  (0 <= i < 2 ^ 32)%Z ->
  B32.ltb (B32.of_Z i) sampleCount = (i <? 150)%Z.
Proof.
  intros Hi.
  assert (Vs : B32.valid sampleCount = true) by reflexivity.
  assert (Fs : is_finite sampleCount = true) by reflexivity.
  destruct (i <? 150)%Z eqn:T.
  - apply Z.ltb_lt in T.
    destruct (of_Z_exact i ltac:(lia)) as (F & V & E).
    apply (ltb_B2R _ _ V Vs F Fs). rewrite E, B2R_sampleCount.
    apply IZR_lt in T. exact T.
  - apply Z.ltb_ge in T.
    set (top := S754_finite false 8388608 9).
    assert (Et : B2R top = IZR (2 ^ 32)).
    { unfold top. cbn [B2R]. change 8388608%Z with (1 * 2 ^ 23)%Z.
      rewrite F2R_shift by lia. rewrite F2R_bpow.
      now rewrite (bpow_IZR (9 + 23)) by lia. }
    destruct (of_Z_between i sampleCount top Vs Fs eq_refl eq_refl)
      as (F & V & B).
    { rewrite B2R_sampleCount, Et. split; apply IZR_le; lia. }
    destruct (B32.ltb (B32.of_Z i) sampleCount) eqn:L; [|reflexivity].
    apply (ltb_B2R _ _ V Vs F Fs) in L. lra.
Qed.
End Loop.

Lemma sample_loop_step (gen : nat -> float) (w h : Z) (fov : float)
    (world : World) (fuel : nat) (i x y : Z) (org pixelColor : vec3)
    (k : nat) :
  0 <= i < 2 ^ 32 ->
  sample_loop gen w h fov world fuel i x y org pixelColor k =
  if i <? 150 then
    match fuel with
    | O => OutOfFuel
    | S fuel' =>
        (pixelColor' <- sample_step gen w h fov world fuel x y org pixelColor ;;
         sample_loop gen w h fov world fuel' ((i + 1) mod 2 ^ 32) x y org
           pixelColor') k
    end
  else Done pixelColor k.
Proof.
  intros Hi. pose proof (sample_guard i Hi) as G.
  destruct fuel as [|fuel]; cbn [sample_loop]; rewrite G;
    destruct (i <? 150); try reflexivity.
  unfold sample_step, bind.
  destruct (randomVec2_in gen (B32.opp (flit 5 1)) (flit 5 1) k)
    as [offset j| |]; try reflexivity.
  destruct (color gen (S fuel) world _ rayDepth j) as [c j'| |]; reflexivity.
Qed.

Lemma sample_loop_is_rounds (gen : nat -> float) (w h : Z) (fov : float)
    (world : World) (n : nat) :
  forall (fuel : nat) (i x y : Z) (org pixelColor : vec3) (k : nat),
    0 <= i -> i + Z.of_nat n = 150 ->
    sample_loop gen w h fov world fuel i x y org pixelColor k =
    sample_rounds gen w h fov world n fuel x y org pixelColor k.
Proof.
  induction n as [|n IH]; intros fuel i x y org pixelColor k Hi Hn;
    rewrite sample_loop_step by lia.
  - replace (i <? 150) with false by (symmetry; apply Z.ltb_ge; lia).
    reflexivity.
  - replace (i <? 150) with true by (symmetry; apply Z.ltb_lt; lia).
    destruct fuel as [|fuel]; [reflexivity|].
    cbn [sample_rounds]. unfold bind.
    destruct (sample_step gen w h fov world (S fuel) x y org pixelColor k)
      as [pc j| |]; try reflexivity.
    rewrite Z.mod_small by lia. apply IH; lia.
Qed.

(** X9.  The loop [for (uint32_t i = 0; i < sampleCount; i++)] takes
    exactly 150 samples per pixel: the comparison, which C++ makes on
    [float], agrees with the comparison of the integers for every
    [uint32_t] value of [i], so the loop started at 0 is 150 rounds of its
    body. *)
Theorem sample_loop_150 (gen : nat -> float) (w h : Z) (fov : float)
    (world : World) (fuel : nat) (x y : Z) (org pixelColor : vec3) (k : nat) :
  (forall i, 0 <= i < 2 ^ 32 ->
     B32.ltb (B32.of_Z i) sampleCount = (i <? 150)) /\
  sample_loop gen w h fov world fuel 0 x y org pixelColor k =
  sample_rounds gen w h fov world 150 fuel x y org pixelColor k.
Proof.
  split; [exact sample_guard|].
  apply sample_loop_is_rounds; lia.
Qed.

(** ** The conversion to [uint32_t] and the packed pixel *)

Section Cast.
Import Stdlib.Reals.Reals Stdlib.micromega.Lra.
Local Open Scope R_scope.

Lemma integer_part_spec (m : positive) (e : Z) :
  (0 <= integer_part m e)%Z /\
  IZR (integer_part m e) <= F2R (Z.pos m) e < IZR (integer_part m e) + 1.
Proof.
  unfold integer_part. destruct (0 <=? e)%Z eqn:E.
  - apply Z.leb_le in E. rewrite Z.shiftl_mul_pow2 by lia.
    assert (P : (0 < 2 ^ e)%Z) by (apply Z.pow_pos_nonneg; lia).
    split; [nia|].
    replace (IZR (Z.pos m * 2 ^ e)) with (F2R (Z.pos m) e).
    + lra.
    + replace e with (0 + e)%Z at 1 by lia. rewrite <- F2R_shift by lia.
      unfold F2R, bpow. simpl. lra.
  - apply Z.leb_gt in E. rewrite Z.shiftr_div_pow2 by lia.
    set (k := (- e)%Z). assert (Hk : (0 < k)%Z) by (unfold k; lia).
    assert (P : (0 < 2 ^ k)%Z) by (apply Z.pow_pos_nonneg; lia).
    set (a := (Z.pos m / 2 ^ k)%Z).
    pose proof (Z.div_mod (Z.pos m) (2 ^ k) ltac:(lia)) as D.
    pose proof (Z.mod_pos_bound (Z.pos m) (2 ^ k) P) as B. fold a in D.
    assert (Ha : (0 <= a)%Z) by (apply Z.div_pos; lia).
    split; [exact Ha|].
    assert (Ea : forall c : Z, F2R (c * 2 ^ k) e = IZR c).
    { intros c. rewrite F2R_shift by lia. replace (e + k)%Z with 0%Z by (unfold k; lia).
      unfold F2R, bpow. simpl. lra. }
    replace (IZR a + 1) with (IZR (a + 1)) by (rewrite plus_IZR; lra).
    rewrite <- (Ea a), <- (Ea (a + 1)%Z).
    split; [apply F2R_le_mono; lia | apply F2R_lt_mono; lia].
Qed.

(** [static_cast<uint32_t>(f)] of a finite number: defined when the
    integer part of [f] is a [uint32_t], and then it is that integer part;
    a NaN and the infinities are not converted. *)
Lemma to_uint32_spec (f : float) :
  match to_uint32 f with
  | Some a =>
      is_finite f = true /\ (0 <= a < 2 ^ 32)%Z /\
      IZR a <= Rabs (B2R f) < IZR a + 1 /\ -1 < B2R f
  | None => is_finite f = false \/ B2R f <= -1 \/ IZR (2 ^ 32) <= B2R f
  end.
Proof.
  destruct f as [s|s| |s m e]; cbn [to_uint32].
  - rewrite B2R_zero, Rabs_R0. repeat split; try lia; lra.
  - now left.
  - now left.
  - fold (integer_part m e).
    destruct (integer_part_spec m e) as (Ha & L & U).
    pose proof (F2R_pos (Z.pos m) e ltac:(lia)) as P.
    destruct s; cbn [B2R].
    + destruct (integer_part m e =? 0)%Z eqn:E.
      * apply Z.eqb_eq in E. rewrite E in L, U. simpl in U.
        rewrite Rabs_Ropp, Rabs_pos_eq by lra.
        repeat split; try lia; simpl; lra.
      * apply Z.eqb_neq in E. right. left.
        assert (1 <= IZR (integer_part m e)) by (apply IZR_le; lia). lra.
    + destruct (integer_part m e <? 2 ^ 32)%Z eqn:E.
      * apply Z.ltb_lt in E. rewrite Rabs_pos_eq by lra.
        repeat split; try lia; lra.
      * apply Z.ltb_ge in E. right. right.
        assert (IZR (2 ^ 32) <= IZR (integer_part m e)) by now apply IZR_le.
        lra.
Qed.

Lemma B2R_255 : B2R (B32.of_Z 255) = 255.
Proof. now destruct (of_Z_exact 255 ltac:(lia)) as (_ & _ & ->). Qed.

(** A colour component of [0, 1] times 255 is converted to a byte. *)
Lemma byte_of_unit (x : float) :
  in_unit_interval x ->
  exists a, to_uint32 (B32.mul x (B32.of_Z 255)) = Some a /\ (0 <= a <= 255)%Z.
Proof.
  intros (V & L0 & L1).
  assert (F : is_finite x = true).
  { destruct x as [s|[]| |s m e]; try discriminate; reflexivity. }
  apply (leb_B2R B32.zero x eq_refl V eq_refl F) in L0.
  apply (leb_B2R x B32.one V eq_refl F eq_refl) in L1.
  change (B2R B32.zero) with 0 in L0. rewrite B2R_one in L1.
  destruct (of_Z_exact 255 ltac:(lia)) as (F255 & V255 & E255).
  destruct (mul_between x (B32.of_Z 255) B32.zero (B32.of_Z 255)
              V F V255 F255 eq_refl eq_refl V255 F255) as (Fm & Vm & Bm).
  { change (B2R B32.zero) with 0. rewrite E255. nra. }
  change (B2R B32.zero) with 0 in Bm. rewrite E255 in Bm.
  pose proof (to_uint32_spec (B32.mul x (B32.of_Z 255))) as S.
  destruct (to_uint32 (B32.mul x (B32.of_Z 255))) as [a|].
  - exists a. split; [reflexivity|]. destruct S as (_ & Ha & B & _).
    rewrite Rabs_pos_eq in B by lra. split; [lia|].
    assert (IZR a < IZR 256) by (simpl; lra).
    apply lt_IZR in H. lia.
  - exfalso. destruct S as [S|[S|S]]; [congruence | lra |].
    assert (IZR 256 <= IZR (2 ^ 32)) by (apply IZR_le; lia). simpl in H. lra.
Qed.
End Cast.

Lemma byte_bits (a n : Z) : 0 <= a <= 255 -> 8 <= n -> Z.testbit a n = false.
Proof.
  intros Ha Hn. destruct (Z.eq_dec a 0) as [->|N]; [apply Z.bits_0|].
  apply Z.bits_above_log2; [lia|].
  assert (Z.log2 a < 8) by (apply Z.log2_lt_pow2; lia). lia.
Qed.

Lemma channel_bits (a k n : Z) :
  0 <= a <= 255 -> 0 <= k -> k + 8 <= 32 -> 0 <= n ->
  Z.testbit (uint32 (Z.shiftl a k)) n =
  if (k <=? n) && (n <? k + 8) then Z.testbit a (n - k) else false.
Proof.
  intros Ha Hk Hk8 Hn. unfold uint32.
  destruct (Z.lt_ge_cases n 32) as [L|G].
  - rewrite Z.mod_pow2_bits_low by lia.
    rewrite Z.shiftl_spec by lia.
    destruct (k <=? n) eqn:E1; simpl.
    + apply Z.leb_le in E1. destruct (n <? k + 8) eqn:E2; [reflexivity|].
      apply Z.ltb_ge in E2. apply byte_bits; lia.
    + apply Z.leb_gt in E1. apply Z.testbit_neg_r. lia.
  - rewrite Z.mod_pow2_bits_high by lia.
    replace (n <? k + 8) with false by (symmetry; apply Z.ltb_ge; lia).
    now rewrite andb_false_r.
Qed.

(** The packed value of three bytes gives the bytes back. *)
Lemma packed_channels (r g b : Z) :
  0 <= r <= 255 -> 0 <= g <= 255 -> 0 <= b <= 255 ->
  let v := Z.lor (Z.lor (Z.lor (uint32 (Z.shiftl r 24)) (uint32 (Z.shiftl g 16)))
                        (uint32 (Z.shiftl b 8))) 255 in
  Z.shiftr v 24 = r /\ Z.land (Z.shiftr v 16) 255 = g /\
  Z.land (Z.shiftr v 8) 255 = b /\ Z.land v 255 = 255.
Proof.
  intros Hr Hg Hb v.
  assert (T : forall n, 0 <= n ->
            Z.testbit v n =
            ((((24 <=? n) && (n <? 32)) && Z.testbit r (n - 24))
             || (((16 <=? n) && (n <? 24)) && Z.testbit g (n - 16))
             || (((8 <=? n) && (n <? 16)) && Z.testbit b (n - 8))
             || Z.testbit 255 n)).
  { intros n Hn. unfold v. rewrite !Z.lor_spec.
    rewrite !channel_bits by lia. simpl Z.add.
    destruct ((24 <=? n) && (n <? 32)), ((16 <=? n) && (n <? 24)),
      ((8 <=? n) && (n <? 16)); reflexivity. }
  assert (M : forall n, 0 <= n -> Z.testbit 255 n = (n <? 8)).
  { intros n Hn. destruct (n <? 8) eqn:E.
    - apply Z.ltb_lt in E.
      assert (n = 0 \/ n = 1 \/ n = 2 \/ n = 3 \/ n = 4 \/ n = 5 \/ n = 6 \/ n = 7)
        by lia.
      repeat (destruct H as [->|H]; [reflexivity|]). now subst n.
    - apply Z.ltb_ge in E. apply byte_bits; lia. }
  split; [|split; [|split]]; apply Z.bits_inj'; intros n Hn.
  - rewrite Z.shiftr_spec, T, M by lia.
    replace (n + 24 - 24) with n by lia.
    replace (n + 24 - 16) with (n + 8) by lia.
    replace (n + 24 - 8) with (n + 16) by lia.
    destruct (Z.lt_ge_cases n 8) as [L|G].
    + replace (24 <=? n + 24) with true by (symmetry; apply Z.leb_le; lia).
      replace (n + 24 <? 32) with true by (symmetry; apply Z.ltb_lt; lia).
      replace (n + 24 <? 24) with false by (symmetry; apply Z.ltb_ge; lia).
      replace (n + 24 <? 16) with false by (symmetry; apply Z.ltb_ge; lia).
      replace (n + 24 <? 8) with false by (symmetry; apply Z.ltb_ge; lia).
      rewrite !andb_false_r. simpl. now rewrite !orb_false_r.
    + replace (n + 24 <? 32) with false by (symmetry; apply Z.ltb_ge; lia).
      replace (n + 24 <? 24) with false by (symmetry; apply Z.ltb_ge; lia).
      replace (n + 24 <? 16) with false by (symmetry; apply Z.ltb_ge; lia).
      replace (n + 24 <? 8) with false by (symmetry; apply Z.ltb_ge; lia).
      rewrite !andb_false_r. simpl. symmetry. apply byte_bits; lia.
  - rewrite Z.land_spec, Z.shiftr_spec, T, !M by lia.
    replace (n + 16 - 24) with (n - 8) by lia.
    replace (n + 16 - 16) with n by lia.
    replace (n + 16 - 8) with (n + 8) by lia.
    destruct (Z.lt_ge_cases n 8) as [L|G].
    + replace (n <? 8) with true by (symmetry; apply Z.ltb_lt; lia).
      replace (24 <=? n + 16) with false by (symmetry; apply Z.leb_gt; lia).
      replace (16 <=? n + 16) with true by (symmetry; apply Z.leb_le; lia).
      replace (n + 16 <? 24) with true by (symmetry; apply Z.ltb_lt; lia).
      replace (n + 16 <? 16) with false by (symmetry; apply Z.ltb_ge; lia).
      replace (n + 16 <? 8) with false by (symmetry; apply Z.ltb_ge; lia).
      rewrite !andb_false_r. simpl. now rewrite !orb_false_r, andb_true_r.
    + replace (n <? 8) with false by (symmetry; apply Z.ltb_ge; lia).
      rewrite andb_false_r. symmetry. apply byte_bits; lia.
  - rewrite Z.land_spec, Z.shiftr_spec, T, !M by lia.
    replace (n + 8 - 24) with (n - 16) by lia.
    replace (n + 8 - 16) with (n - 8) by lia.
    replace (n + 8 - 8) with n by lia.
    destruct (Z.lt_ge_cases n 8) as [L|G].
    + replace (n <? 8) with true by (symmetry; apply Z.ltb_lt; lia).
      replace (24 <=? n + 8) with false by (symmetry; apply Z.leb_gt; lia).
      replace (16 <=? n + 8) with false by (symmetry; apply Z.leb_gt; lia).
      replace (8 <=? n + 8) with true by (symmetry; apply Z.leb_le; lia).
      replace (n + 8 <? 16) with true by (symmetry; apply Z.ltb_lt; lia).
      replace (n + 8 <? 8) with false by (symmetry; apply Z.ltb_ge; lia).
      simpl. now rewrite !orb_false_r, andb_true_r.
    + replace (n <? 8) with false by (symmetry; apply Z.ltb_ge; lia).
      rewrite andb_false_r. symmetry. apply byte_bits; lia.
  - rewrite Z.land_spec, T, !M by lia.
    destruct (n <? 8); [now rewrite orb_true_r | now rewrite andb_false_r].
Qed.

(** X10.  Packing a colour whose components are numbers of [0, 1]: each
    of the three conversions to [uint32_t] is defined and gives a byte,
    and the packed word gives the bytes back, red from the bits 24 to 31,
    green from 16 to 23, blue from 8 to 15, with 0xFF in the low byte. *)
Theorem pack_unit (c : vec3) :
  all3 in_unit_interval c ->
  exists r g b v,
    to_uint32 (B32.mul (vx c) (B32.of_Z 255)) = Some r /\
    to_uint32 (B32.mul (vy c) (B32.of_Z 255)) = Some g /\
    to_uint32 (B32.mul (vz c) (B32.of_Z 255)) = Some b /\
    pack c = Some v /\
    (0 <= r <= 255 /\ 0 <= g <= 255 /\ 0 <= b <= 255) /\
    Z.shiftr v 24 = r /\ Z.land (Z.shiftr v 16) 255 = g /\
    Z.land (Z.shiftr v 8) 255 = b /\ Z.land v 255 = 255.
Proof.
  intros (Hx & Hy & Hz).
  destruct (byte_of_unit _ Hx) as (r & Er & Hr).
  destruct (byte_of_unit _ Hy) as (g & Eg & Hg).
  destruct (byte_of_unit _ Hz) as (b & Eb & Hb).
  exists r, g, b. eexists.
  split; [exact Er|]. split; [exact Eg|]. split; [exact Eb|].
  split; [unfold pack; rewrite Er, Eg, Eb; reflexivity|].
  split; [auto|]. now apply packed_channels.
Qed.

(** The colour (1, 0, 0.5) is packed with red 255 and alpha 255. *)
Lemma pack_unit_witness :
  exists v, pack (Vec3 B32.one B32.zero (flit 5 1)) = Some v /\
            Z.shiftr v 24 = 255 /\ Z.land v 255 = 255.
Proof.
  destruct (pack_unit (Vec3 B32.one B32.zero (flit 5 1)))
    as (r & g & b & v & Er & _ & _ & Ep & _ & E24 & _ & _ & E0).
  - repeat split.
  - exists v. vm_compute in Er. injection Er as <-. auto.
Defined.

(** ** Rendering stays within defined behaviour *)

Lemma rounded_not_below_zero (m1 e1 : Z) (r : float) :
  rounded B32.prec B32.emax false m1 e1 r -> not_below_zero r.
Proof.
  intros H. split; [exact (rounded_valid _ _ _ _ _ _ H)|].
  destruct (rounded_inv _ _ _ _ _ _ H) as [[_ ->]|(m2 & e2 & _ & _ & ->)];
    [reflexivity|].
  destruct (e2 <=? B32.emax - B32.prec); reflexivity.
Qed.

Lemma not_below_zero_cases (x : float) :
  not_below_zero x ->
  (exists s, x = S754_zero s) \/ x = S754_infinity false \/
  exists m e, x = S754_finite false m e.
Proof.
  intros [_ L]. destruct x as [s|[]| |[] m e]; try discriminate; eauto.
Qed.

Lemma add_not_below_zero (a b : float) :
  not_below_zero a -> not_below_zero b -> not_below_zero (B32.add a b).
Proof.
  intros Ha Hb.
  destruct (not_below_zero_cases a Ha) as [[sa ->]|[->|(ma & ea & ->)]];
    destruct (not_below_zero_cases b Hb) as [[sb ->]|[->|(mb & eb & ->)]];
    try (split; reflexivity); try assumption.
  - destruct sa, sb; split; reflexivity.
  - unfold B32.add, SFadd. cbn [cond_Zopp].
    destruct (shl_align ma ea (Z.min ea eb)) as [ma' ea'].
    destruct (shl_align mb eb (Z.min ea eb)) as [mb' eb']. cbn [fst].
    change (Z.pos ma' + Z.pos mb') with (Z.pos (ma' + mb')).
    cbn [binary_normalize].
    destruct (binary_round_error B32.prec B32.emax prec32_pos false
                (ma' + mb') (Z.min ea eb)) as (m1 & e1 & Hrd & _).
    exact (rounded_not_below_zero m1 e1 _ Hrd).
Qed.

Lemma div_not_below_zero (x : float) (my : positive) (ey : Z) :
  not_below_zero x ->
  not_below_zero (B32.div x (S754_finite false my ey)).
Proof.
  intros Hx.
  destruct (not_below_zero_cases x Hx) as [[sx ->]|[->|(mx & ex & ->)]].
  - destruct sx; split; reflexivity.
  - split; reflexivity.
  - unfold B32.div, SFdiv.
    pose proof (div_core_spec B32.prec B32.emax prec32_pos mx my ex ey) as Core.
    destruct (SFdiv_core_binary B32.prec B32.emax (Z.pos mx) ex (Z.pos my) ey)
      as [[q e'] l].
    destruct Core as (Hq0 & He & _).
    destruct (binary_round_aux_spec B32.prec B32.emax prec32_pos (xorb false false)
                q e' l Hq0 He) as (m1 & _ & _ & _ & Hrd).
    exact (rounded_not_below_zero m1 _ _ Hrd).
Qed.

Lemma sqrt_not_below_zero (x : float) :
  not_below_zero x -> not_below_zero (B32.sqrt x).
Proof.
  intros Hx.
  destruct (not_below_zero_cases x Hx) as [[sx ->]|[->|(mx & ex & ->)]].
  - destruct sx; split; reflexivity.
  - split; reflexivity.
  - unfold B32.sqrt, SFsqrt.
    pose proof (sqrt_core_spec B32.prec B32.emax mx ex) as Core.
    destruct (SFsqrt_core_binary B32.prec B32.emax (Z.pos mx) ex) as [[q e'] l].
    destruct Core as (Hq0 & He & _).
    destruct (binary_round_aux_spec B32.prec B32.emax prec32_pos false
                q e' l ltac:(lia) He) as (m1 & _ & _ & _ & Hrd).
    exact (rounded_not_below_zero m1 _ _ Hrd).
Qed.

Lemma clamp_unit (x : float) :
  not_below_zero x ->
  in_unit_interval (glm.min (glm.max x B32.zero) B32.one).
Proof.
  intros [V L].
  destruct (leb_not_nan _ _ L) as [_ Nx].
  destruct (clamp_scalar x B32.zero B32.one Nx eq_refl eq_refl eq_refl)
    as (L0 & L1 & _ & E).
  split; [|split; assumption].
  destruct E as [->|[->| ->]]; [exact V | reflexivity | reflexivity].
Qed.

Lemma loop_defined (gen : nat -> float) (fuel : nat) (i : nat) :
  randomUnitVec3OnSphere gen fuel i <> Undefined.
Proof.
  revert i. induction fuel as [|fuel IH]; intros i; [discriminate|].
  rewrite randomUnitVec3OnSphere_step.
  destruct (accepted (candidate gen i)); [discriminate | apply IH].
Qed.

Lemma scatter_defined (gen : nat -> float) (fuel : nat) (r : Ray)
    (p n : vec3) (mat : Material) (i : nat) :
  scatter gen fuel r p n mat i <> Undefined.
Proof.
  unfold scatter. destruct (B32.truthy (metallic mat)); [discriminate|].
  unfold bind. pose proof (loop_defined gen fuel i) as H.
  destruct (randomUnitVec3OnSphere gen fuel i); [discriminate | discriminate | now elim H].
Qed.

Lemma color_defined (gen : nat -> float) (fuel : nat) (w : World) (r : Ray)
    (depth : float) (i : nat) :
  color gen fuel w r depth i <> Undefined.
Proof.
  revert r depth i. induction fuel as [|fuel IH]; intros r depth i;
    cbn [color]; (destruct (B32.leb depth B32.zero); [discriminate|]);
    (destruct (sphere (hit w r)) as [[k s]|]; [|discriminate]);
    [discriminate|].
  unfold bind.
  pose proof (scatter_defined gen (S fuel) r (at_ r (t (hit w r)))
                (glm.div_s (glm.sub (at_ r (t (hit w r))) (center s)) (radius s))
                (material s) i) as Hs.
  destruct (scatter gen (S fuel) r _ _ (material s) i) as [r' j| |];
    [|discriminate | now elim Hs].
  pose proof (IH r' (B32.sub depth B32.one) j) as Hc.
  destruct (color gen fuel w r' (B32.sub depth B32.one) j);
    [discriminate | discriminate | now elim Hc].
Qed.

Lemma sample_loop_safe (gen : nat -> float) (w h : Z) (fov : float)
    (world : World) (fuel : nat) :
  (forall s, In s (spheres world) -> unit_albedo s) ->
  forall (i x y : Z) (org pixelColor : vec3) (k : nat),
    all3 not_below_zero pixelColor ->
    sample_loop gen w h fov world fuel i x y org pixelColor k <> Undefined /\
    forall pixelColor' j,
      sample_loop gen w h fov world fuel i x y org pixelColor k
        = Done pixelColor' j ->
      all3 not_below_zero pixelColor'.
Proof.
  intros Hw. induction fuel as [|fuel IH]; intros i x y org pixelColor k Hpc;
    cbn [sample_loop];
    (destruct (B32.ltb (B32.of_Z i) sampleCount);
     [|split; [discriminate | intros pc' j E; injection E as <- _; exact Hpc]]).
  - split; discriminate.
  - unfold bind.
    destruct (randomVec2_in gen (B32.opp (flit 5 1)) (flit 5 1) k)
      as [offset j1| |] eqn:Eo; try (split; discriminate).
    pose proof (color_defined gen (S fuel) world
                  {| origin := org;
                     direction :=
                       glm.normalize
                         (glm.sub
                            (Vec3
                               (ux (pixelToWorld w h fov
                                      (B32.add (B32.of_Z x) (ux offset))
                                      (B32.add (B32.of_Z y) (uy offset))))
                               (uy (pixelToWorld w h fov
                                      (B32.add (B32.of_Z x) (ux offset))
                                      (B32.add (B32.of_Z y) (uy offset))))
                               minus_one) org) |} rayDepth j1) as Hc.
    destruct (color gen (S fuel) world _ rayDepth j1) as [c j2| |] eqn:Ec;
      [|split; discriminate | contradiction].
    apply IH.
    destruct (color_valid_below_sky gen _ world _ _ _ _ _ Hw Ec)
      as ((Vx & Bx & _) & (Vy & By & _) & (Vz & Bz & _)).
    destruct Hpc as (Px & Py & Pz).
    split; [|split]; apply add_not_below_zero; try assumption; split; assumption.
Qed.

Lemma for_range_safe {St : Type} (I : Z -> St -> Prop)
    (body : Z -> St -> M St) (n : nat) (k : Z) (s : St) (i : nat) :
  (forall x s i, k <= x < k + Z.of_nat n -> I x s ->
     body x s i <> Undefined /\
     forall s' j, body x s i = Done s' j -> I (x + 1) s') ->
  I k s ->
  for_range n k body s i <> Undefined /\
  forall s' j, for_range n k body s i = Done s' j -> I (k + Z.of_nat n) s'.
Proof.
  revert k s i. induction n as [|n IH]; intros k s i Hbody Hk.
  - split; [discriminate|]. intros s' j E. injection E as <- _.
    now rewrite Z.add_0_r.
  - cbn [for_range]. unfold bind.
    destruct (Hbody k s i ltac:(lia) Hk) as [Hd Hn].
    destruct (body k s i) as [s1 j1| |]; [|split; discriminate | contradiction].
    replace (k + Z.of_nat (S n)) with (k + 1 + Z.of_nat n) by lia.
    apply IH.
    + intros x s2 i2 Hx. apply Hbody. lia.
    + exact (Hn s1 j1 eq_refl).
Qed.

Lemma pixel_safe (gen : nat -> float) (w h : Z) (fov : float) (world : World)
    (fuel : nat) (x y : Z) (pixels : list Z) (i : nat) :
  (forall s, In s (spheres world) -> unit_albedo s) ->
  0 <= x < w -> 0 <= y < h -> w * h < 2 ^ 32 ->
  length pixels = Z.to_nat (w * h) ->
  pixel gen w h fov world fuel x y pixels i <> Undefined /\
  forall pixels' j, pixel gen w h fov world fuel x y pixels i = Done pixels' j ->
    length pixels' = Z.to_nat (w * h).
Proof.
  intros Hw Hx Hy Hwh Hlen. unfold pixel, bind.
  destruct (sample_loop_safe gen w h fov world fuel Hw 0 x y
              (position (camera world)) (glm.splat B32.zero) i) as [Hd Hn].
  { repeat split. }
  destruct (sample_loop gen w h fov world fuel 0 x y (position (camera world))
              (glm.splat B32.zero) i) as [pc j1| |];
    [|split; discriminate | contradiction].
  destruct (Hn pc j1 eq_refl) as (Px & Py & Pz).
  assert (U : all3 in_unit_interval
                (glm.clamp (glm.sqrt (glm.div_s pc sampleCount))
                           B32.zero B32.one)).
  { unfold glm.clamp, glm.sqrt, glm.div_s, glm.map, all3.
    cbn [vx vy vz s_div s_sqrt float_scalar].
    change sampleCount with (S754_finite false 9830400 (-16)).
    split; [|split]; apply clamp_unit, sqrt_not_below_zero,
      div_not_below_zero; assumption. }
  destruct U as (Ux & Uy & Uz).
  destruct (byte_of_unit _ Ux) as (r & Er & _).
  destruct (byte_of_unit _ Uy) as (g & Eg & _).
  destruct (byte_of_unit _ Uz) as (b & Eb & _).
  unfold pack. rewrite Er, Eg, Eb.
  assert (Hidx : uint32 (y * w + x) = y * w + x).
  { unfold uint32. apply Z.mod_small. nia. }
  rewrite Hidx.
  destruct (store_spec pixels (Z.to_nat (y * w + x))
              (Z.lor (Z.lor (Z.lor (uint32 (Z.shiftl r 24))
                                   (uint32 (Z.shiftl g 16)))
                            (uint32 (Z.shiftl b 8))) 255)) as [S1 _].
  destruct S1 as (px' & -> & Len & _); [nia|].
  split; [discriminate|]. intros pixels' j E. injection E as <- _. congruence.
Qed.

(** X11.  Rendering a world whose albedo components are numbers of [0, 1]
    into an image whose size [w * h] fits [uint32_t] stays within defined
    behaviour: no conversion to [uint32_t] is applied to a NaN or a number
    out of range, and no pixel is written outside the buffer.  The run
    finishes or is still running when the fuel ends. *)
Theorem render_defined (gen : nat -> float) (w h : Z) (fov : float)
    (world : World) (fuel : nat) (i : nat) :
  (forall s, In s (spheres world) -> unit_albedo s) ->
  0 <= w -> 0 <= h -> w * h < 2 ^ 32 ->
  render gen w h fov world fuel i <> Undefined.
Proof.
  intros Hw H0w H0h Hwh. unfold render.
  assert (Hsize : uint32 (w * h) = w * h)
    by (unfold uint32; apply Z.mod_small; nia).
  rewrite Hsize.
  apply (for_range_safe
           (fun _ px => length px = Z.to_nat (w * h))
           (fun y => for_range (Z.to_nat w) 0
                       (fun x => pixel gen w h fov world fuel x y))
           (Z.to_nat h) 0 (repeat 0 (Z.to_nat (w * h))) i).
  - intros y px i1 Hy Hlen.
    destruct (for_range_safe
                (fun _ px => length px = Z.to_nat (w * h))
                (fun x => pixel gen w h fov world fuel x y)
                (Z.to_nat w) 0 px i1) as [Hd Hn].
    + intros x px2 i2 Hx Hlen2.
      apply pixel_safe; auto; lia.
    + exact Hlen.
    + split; [exact Hd|]. intros px' j E. exact (Hn px' j E).
  - apply repeat_length.
Qed.

(** The scene of the source rendered into a 1 x 1 image: the run finishes
    after 150 samples and 750 draws, through the conversions and the write
    of the pixel. *)
Lemma render_defined_witness :
  render Examples.gen_three_quarters 1 1 Examples.fov30 world 400 0%nat
  = Done [962942463] 750%nat /\
  render Examples.gen_three_quarters 1 1 Examples.fov30 world 400 0%nat
  <> Undefined.
Proof.
  split; [vm_compute; reflexivity|].
  apply (render_defined Examples.gen_three_quarters 1 1 Examples.fov30 world
           400 0).
  - intros s [<-|[<-|[<-|[]]]]; repeat split.
  - lia.
  - lia.
  - reflexivity.
Defined.

(** ** The range of the random numbers *)

Section Ranges.
Import Stdlib.Reals.Reals Stdlib.micromega.Lra.
Local Open Scope R_scope.

Lemma sub_valid (x y : float) :
  B32.valid x = true -> B32.valid y = true -> B32.valid (B32.sub x y) = true.
Proof.
  intros Vx Vy.
  destruct x as [sx|sx| |sx mx ex], y as [sy|sy| |sy my ey];
    try destruct sx; try destruct sy; try reflexivity; try assumption.
  all: apply (binary_normalize_valid B32.prec B32.emax prec32_pos).
Qed.

Lemma unit_interval_value (u : float) :
  in_unit_interval u -> is_finite u = true /\ 0 <= B2R u <= 1.
Proof.
  intros (V & L0 & L1).
  assert (F : is_finite u = true).
  { destruct u as [s|[]| |s m e]; try discriminate; reflexivity. }
  apply (leb_B2R B32.zero u eq_refl V eq_refl F) in L0.
  apply (leb_B2R u B32.one V eq_refl F eq_refl) in L1.
  change (B2R B32.zero) with 0 in L0. rewrite B2R_one in L1. auto.
Qed.

(** [min + (max - min) * u] for a number [u] of [0, 1] lies between [min]
    and [max] when the width [max - min] is computed exactly. *)
Lemma scaled_in_range (lo hi u : float) :
  B32.valid lo = true -> is_finite lo = true ->
  B32.valid hi = true -> is_finite hi = true ->
  B32.leb lo hi = true ->
  is_finite (B32.sub hi lo) = true ->
  B2R (B32.sub hi lo) = B2R hi - B2R lo ->
  in_unit_interval u ->
  between lo hi (B32.add lo (B32.mul (B32.sub hi lo) u)).
Proof.
  intros Vlo Flo Vhi Fhi Hle FD ED Hu.
  destruct (unit_interval_value u Hu) as (Fu & Bu).
  destruct Hu as (Vu & _).
  apply (leb_B2R lo hi Vlo Vhi Flo Fhi) in Hle.
  pose proof (sub_valid hi lo Vhi Vlo) as VD.
  set (D := B32.sub hi lo) in *.
  destruct (mul_between D u B32.zero D VD FD Vu Fu eq_refl eq_refl VD FD)
    as (Fq & Vq & Bq).
  { change (B2R B32.zero) with 0. nra. }
  change (B2R B32.zero) with 0 in Bq.
  destruct (add_between lo (B32.mul D u) lo hi Vlo Flo Vq Fq Vlo Flo Vhi Fhi)
    as (Fx & Vx & Bx); [lra|].
  split; [exact Vx|].
  split; [apply (leb_B2R _ _ Vlo Vx Flo Fx) | apply (leb_B2R _ _ Vx Vhi Fx Fhi)];
    lra.
Qed.
Lemma width_two :
  B2R (B32.sub B32.one minus_one) = B2R B32.one - B2R minus_one.
Proof.
  change (B32.sub B32.one minus_one) with (S754_finite false 8388608 (-22)).
  change minus_one with (S754_finite true 8388608 (-23)).
  change B32.one with (S754_finite false 8388608 (-23)). cbn [B2R].
  replace (-22)%Z with (-23 + 1)%Z by lia. rewrite <- (F2R_shift 8388608 (-23) 1) by lia.
  unfold F2R. rewrite mult_IZR. simpl. lra.
Qed.

Lemma width_one :
  B2R (B32.sub (flit 5 1) (B32.opp (flit 5 1)))
  = B2R (flit 5 1) - B2R (B32.opp (flit 5 1)).
Proof.
  change (B32.sub (flit 5 1) (B32.opp (flit 5 1)))
    with (S754_finite false 8388608 (-23)).
  change (B32.opp (flit 5 1)) with (S754_finite true 8388608 (-24)).
  change (flit 5 1) with (S754_finite false 8388608 (-24)). cbn [B2R].
  replace (-23)%Z with (-24 + 1)%Z by lia.
  rewrite <- (F2R_shift 8388608 (-24) 1) by lia.
  unfold F2R. rewrite mult_IZR. simpl. lra.
Qed.
End Ranges.

(** X12.  [randomFloat(min, max)] draws one number and, when that number
    lies in [0, 1] and the width [max - min] is computed without rounding,
    returns a number of the format between [min] and [max], both ends
    included. *)
Theorem randomFloat_in_range (gen : nat -> float) (lo hi : float) (k : nat) :
  B32.valid lo = true -> is_finite lo = true ->
  B32.valid hi = true -> is_finite hi = true ->
  B32.leb lo hi = true ->
  is_finite (B32.sub hi lo) = true ->
  B2R (B32.sub hi lo) = Rdefinitions.Rminus (B2R hi) (B2R lo) ->
  in_unit_interval (gen k) ->
  exists x, randomFloat_in gen lo hi k = Done x (S k) /\ between lo hi x.
Proof.
  intros Vlo Flo Vhi Fhi Hle FD ED Hu.
  exists (B32.add lo (B32.mul (B32.sub hi lo) (gen k))).
  split; [reflexivity|]. now apply scaled_in_range.
Qed.

(** The offsets of the sampling loop: [randomFloat(-0.5f, 0.5f)]. *)
Lemma randomFloat_in_range_witness :
  exists x,
    randomFloat_in Examples.gen_half (B32.opp (flit 5 1)) (flit 5 1) 0%nat
    = Done x 1%nat /\
    between (B32.opp (flit 5 1)) (flit 5 1) x.
Proof.
  apply (randomFloat_in_range Examples.gen_half (B32.opp (flit 5 1)) (flit 5 1) 0);
    try reflexivity.
  - exact width_one.
  - repeat split.
Defined.

(** X13.  The candidates of the rejection loop lie in the cube
    [[-1, 1]^3]: when the three numbers drawn lie in [0, 1], each
    component of the vector [randomVec3(-1, 1)] returns is a number of the
    format between -1 and 1, and three numbers have been drawn. *)
Theorem candidate_in_cube (gen : nat -> float) (k : nat) :
  in_unit_interval (gen k) -> in_unit_interval (gen (S k)) ->
  in_unit_interval (gen (S (S k))) ->
  randomVec3_in gen minus_one B32.one k = Done (candidate gen k) (k + 3)%nat /\
  all3 (between minus_one B32.one) (candidate gen k).
Proof.
  intros H0 H1 H2. split; [apply randomVec3_in_candidate|].
  unfold candidate, all3. cbn [vx vy vz].
  split; [|split];
    apply scaled_in_range; try reflexivity; try assumption; exact width_two.
Qed.

Lemma candidate_in_cube_witness :
  randomVec3_in Examples.gen_half minus_one B32.one 0%nat
  = Done (candidate Examples.gen_half 0) (0 + 3)%nat /\
  all3 (between minus_one B32.one) (candidate Examples.gen_half 0).
Proof.
  apply (candidate_in_cube Examples.gen_half 0); repeat split.
Defined.

(** ** The sign of the radius, the start of a ray, the test for a vector
    near zero *)

Lemma mul_opp_opp (x : float) : B32.mul (B32.opp x) (B32.opp x) = B32.mul x x.
Proof. destruct x as [[]|[]| |[] m e]; reflexivity. Qed.

(** X14.  [intersects] depends on the radius through its square only: a
    sphere with the radius negated gives the same answer for every ray
    and bounds. *)
Theorem intersects_radius_sign (r : Ray) (s : Sphere) (minT maxT : float) :
  intersects r {| center := center s; radius := B32.opp (radius s);
                  material := material s |} minT maxT
  = intersects r s minT maxT.
Proof.
  unfold intersects. cbn [center radius]. now rewrite mul_opp_opp.
Qed.

Lemma at_zero_component (o d : float) :
  B32.is_nan o = false -> is_finite d = true ->
  B32.eqb (B32.add o (B32.mul B32.zero d)) o = true.
Proof.
  intros No Fd.
  destruct d as [sd|sd| |sd md ed]; try discriminate;
    destruct o as [so|so| |so mo eo]; try discriminate;
    cbn [B32.mul SFmul B32.zero xorb B32.add SFadd];
    try (destruct so, sd; reflexivity).
  - unfold B32.eqb, SFeqb. cbn [SFcompare].
    destruct so; rewrite Z.compare_refl, Pos.compare_cont_refl; reflexivity.
  - unfold B32.eqb, SFeqb. cbn [SFcompare].
    destruct so; rewrite Z.compare_refl, Pos.compare_cont_refl; reflexivity.
Qed.

(** X15.  [Ray::at(0)] is the origin: for a direction whose components
    are finite and an origin without NaN, each component of [at(0)]
    compares equal to that of the origin. *)
Theorem at_zero (r : Ray) :
  all3 (fun o => B32.is_nan o = false) (origin r) ->
  all3 (fun d => is_finite d = true) (direction r) ->
  B32.eqb (vx (at_ r B32.zero)) (vx (origin r)) = true /\
  B32.eqb (vy (at_ r B32.zero)) (vy (origin r)) = true /\
  B32.eqb (vz (at_ r B32.zero)) (vz (origin r)) = true.
Proof.
  intros (Ox & Oy & Oz) (Dx & Dy & Dz).
  unfold at_, glm.add, glm.scale, glm.map, glm.map2.
  cbn [vx vy vz s_add s_mul float_scalar].
  split; [|split]; now apply at_zero_component.
Qed.

Lemma at_zero_witness :
  B32.eqb (vx (at_ Examples.ray_down B32.zero)) (vx (origin Examples.ray_down)) = true /\
  B32.eqb (vy (at_ Examples.ray_down B32.zero)) (vy (origin Examples.ray_down)) = true /\
  B32.eqb (vz (at_ Examples.ray_down B32.zero)) (vz (origin Examples.ray_down)) = true.
Proof. apply (at_zero Examples.ray_down); repeat split. Defined.

Section NearZero.
Import Stdlib.Reals.Reals Stdlib.micromega.Lra.
Local Open Scope R_scope.

Lemma B2R_epsilon : B2R B32.FLT_EPSILON = / 8388608.
Proof.
  unfold B32.FLT_EPSILON. cbn [B2R].
  change 8388608%Z with (1 * 2 ^ 23)%Z at 1. rewrite F2R_shift by lia.
  rewrite F2R_bpow. exact (bpow_neg 23 ltac:(lia)).
Qed.

Lemma abs_below_epsilon (x : float) :
  B32.valid x = true ->
  B32.ltb (B32.abs x) B32.FLT_EPSILON = true <->
  is_finite x = true /\ Rabs (B2R x) < / 8388608.
Proof.
  intros V. destruct x as [s|s| |s m e].
  - cbn [B32.abs SFabs is_finite]. rewrite B2R_zero, Rabs_R0. split.
    + intros _. split; [reflexivity|]. lra.
    + intros _. reflexivity.
  - split; [discriminate | intros [H _]; discriminate].
  - split; [discriminate | intros [H _]; discriminate].
  - cbn [B32.abs SFabs is_finite].
    assert (Va : B32.valid (S754_finite false m e) = true) by exact V.
    rewrite (ltb_B2R (S754_finite false m e) B32.FLT_EPSILON Va eq_refl eq_refl eq_refl),
      B2R_epsilon.
    pose proof (F2R_pos (Z.pos m) e ltac:(lia)) as P.
    assert (E : Rabs (B2R (S754_finite s m e)) = B2R (S754_finite false m e)).
    { cbn [B2R]. destruct s; [rewrite Rabs_Ropp|]; apply Rabs_pos_eq; lra. }
    rewrite E. split; [auto | intros [_ H]; exact H].
Qed.
End NearZero.

(** X16.  [nearZero] of a vector of numbers of the format holds exactly
    when every component is finite and of absolute value below
    [FLT_EPSILON = 2^-23]; a NaN or an infinite component makes it
    false. *)
Theorem nearZero_spec (v : vec3) :
  all3 (fun x => B32.valid x = true) v ->
  nearZero v = true <->
  all3 (fun x => is_finite x = true /\
                 Rdefinitions.Rlt (Rbasic_fun.Rabs (B2R x))
                   (Rdefinitions.Rinv (Rdefinitions.IZR 8388608))) v.
Proof.
  intros (Vx & Vy & Vz). unfold nearZero, all3. cbv zeta.
  rewrite !andb_true_iff.
  rewrite (abs_below_epsilon _ Vx), (abs_below_epsilon _ Vy),
    (abs_below_epsilon _ Vz).
  tauto.
Qed.

Lemma nearZero_spec_witness :
  nearZero (Vec3 B32.zero B32.zero B32.zero) = true <->
  all3 (fun x => is_finite x = true /\
                 Rdefinitions.Rlt (Rbasic_fun.Rabs (B2R x))
                   (Rdefinitions.Rinv (Rdefinitions.IZR 8388608)))
       (Vec3 B32.zero B32.zero B32.zero).
Proof. apply (nearZero_spec (Vec3 B32.zero B32.zero B32.zero)). repeat split. Defined.

(** ** The random numbers the integrator draws *)

Lemma scatter_draws (gen : nat -> float) (fuel : nat) (r : Ray) (p n : vec3)
    (mat : Material) (i : nat) (r' : Ray) (j : nat) :
  scatter gen fuel r p n mat i = Done r' j ->
  origin r' = p /\
  if B32.truthy (metallic mat) then j = i
  else exists m : nat, (m < fuel)%nat /\ j = (i + 3 * (m + 1))%nat.
Proof.
  unfold scatter. destruct (B32.truthy (metallic mat)).
  - intros H. injection H as <- <-. auto.
  - unfold bind.
    destruct (randomUnitVec3OnSphere gen fuel i) as [v j1| |] eqn:E;
      try discriminate.
    intros H. injection H as <- <-. split; [reflexivity|].
    apply (rejection_loop_spec gen fuel i) in E.
    destruct E as (m & Hm & -> & _). eauto.
Qed.

Lemma color_draws (gen : nat -> float) (fuel : nat) (w : World)
    (r : Ray) (depth : float) (i : nat) (c : vec3) (j : nat) :
  color gen fuel w r depth i = Done c j ->
  (exists m : nat, j = (i + 3 * m)%nat) /\
  ((forall s, In s (spheres w) -> B32.truthy (metallic (material s)) = true) ->
   j = i).
Proof.
  revert r depth i c j. induction fuel as [|fuel IH]; intros r depth i c j;
    cbn [color];
    (destruct (B32.leb depth B32.zero);
     [intros H; injection H as _ <-; split; [exists 0%nat; lia | reflexivity]|]);
    (destruct (sphere (hit w r)) as [[k s]|] eqn:Eh;
     [|intros H; injection H as _ <-; split; [exists 0%nat; lia | reflexivity]]);
    [discriminate|].
  unfold bind.
  destruct (scatter gen (S fuel) r _ _ (material s) i) as [r' j1| |] eqn:Es;
    try discriminate.
  destruct (color gen fuel w r' (B32.sub depth B32.one) j1) as [c' j2| |] eqn:Ec;
    try discriminate.
  intros H. injection H as _ <-.
  destruct (IH _ _ _ _ _ Ec) as [(m2 & ->) Hm].
  destruct (scatter_draws _ _ _ _ _ _ _ _ _ Es) as [_ Hs].
  split.
  - destruct (B32.truthy (metallic (material s))).
    + subst j1. now exists m2.
    + destruct Hs as (m1 & _ & ->). exists (m1 + 1 + m2)%nat. lia.
  - intros Hall. rewrite (Hall s (hit_in _ _ _ _ Eh)) in Hs. subst j1.
    rewrite <- (Hm Hall) at 2. lia.
Qed.

(** X17.  [World::color] draws its random numbers in triples, one triple
    for each candidate of a rejection loop: the cursor advances by a
    multiple of three, and not at all when every sphere of the world is
    metallic. *)
Theorem color_draws_triples (gen : nat -> float) (fuel : nat) (w : World)
    (r : Ray) (depth : float) (i : nat) (c : vec3) (j : nat) :
  color gen fuel w r depth i = Done c j ->
  (exists m : nat, j = (i + 3 * m)%nat) /\
  ((forall s, In s (spheres w) -> B32.truthy (metallic (material s)) = true) ->
   j = i).
Proof. exact (color_draws gen fuel w r depth i c j). Qed.

(** The ray down the z axis is reflected by the mirror ball and leaves the
    scene: no number is drawn. *)
Lemma color_draws_triples_witness :
  (exists m : nat, 0%nat = (0 + 3 * m)%nat) /\
  ((forall s,
      In s (spheres (Examples.scene [Examples.ball (Examples.mirror B32.one)])) ->
      B32.truthy (metallic (material s)) = true) ->
   0%nat = 0%nat).
Proof.
  apply (color_draws_triples Examples.gen_half 1
           (Examples.scene [Examples.ball (Examples.mirror B32.one)])
           Examples.ray_down B32.two 0
           (Vec3 (S754_finite false 8388608 (-26))
                 (S754_finite false 13421773 (-26))
                 (S754_finite false 15099494 (-26))) 0).
  reflexivity.
Defined.

(** ** Exact arithmetic: the roots lie on the sphere, reflection keeps
    the length *)

Lemma roots_of_source (r : Ray) (s : Sphere) (t : float) :
  discriminant r s = discriminant_of (origin r) (direction r) (center s) (radius s) /\
  near_root r s = root false (origin r) (direction r) (center s) (radius s) /\
  far_root r s = root true (origin r) (direction r) (center s) (radius s) /\
  at_ r t = point_at (origin r) (direction r) t.
Proof.
  unfold discriminant, near_root, far_root, coeff_a, coeff_h, coeff_c, root,
    discriminant_of, at_, point_at.
  cbv zeta. cbn [s_add s_sub s_mul s_div s_sqrt float_scalar]. repeat split.
Qed.

Section Geometry.
Import Stdlib.Reals.Reals Stdlib.micromega.Lra.
Local Open Scope R_scope.

Lemma root_on_sphere (far : bool) (o d c : vec R) (rad : R) :
  0 < glm.dot d d -> 0 <= discriminant_of o d c rad ->
  let p := point_at o d (root far o d c rad) in
  glm.dot (glm.sub p c) (glm.sub p c) = rad * rad.
Proof.
  intros Ha Hd. cbv zeta. unfold root, point_at.
  set (D := discriminant_of o d c rad) in *.
  assert (Hs : sqrt D * sqrt D = D) by (apply sqrt_sqrt; exact Hd).
  unfold discriminant_of in D.
  destruct o as [ox oy oz], d as [dx dy dz], c as [cx cy cz].
  unfold glm.dot, glm.sub, glm.add, glm.scale, glm.mul, glm.map, glm.map2 in *.
  cbn [vx vy vz s_add s_sub s_mul s_div s_sqrt real_scalar] in *.
  set (a := dx * dx + dy * dy + dz * dz) in *.
  set (h := dx * (cx - ox) + dy * (cy - oy) + dz * (cz - oz)) in *.
  set (q := (cx - ox) * (cx - ox) + (cy - oy) * (cy - oy) + (cz - oz) * (cz - oz)) in *.
  set (sq := sqrt D) in *.
  assert (Na : a <> 0) by lra.
  assert (Key : forall t, a * t * t - 2 * h * t + q - rad * rad = 0 ->
            (ox + t * dx - cx) * (ox + t * dx - cx)
            + (oy + t * dy - cy) * (oy + t * dy - cy)
            + (oz + t * dz - cz) * (oz + t * dz - cz) = rad * rad).
  { intros t Ht. unfold a, h, q in Ht. nra. }
  apply Key.
  assert (HD : sq * sq = h * h - a * (q - rad * rad)) by (rewrite Hs; reflexivity).
  destruct far.
  - replace (a * ((h + sq) / a) * ((h + sq) / a) - 2 * h * ((h + sq) / a)
             + q - rad * rad)
      with ((sq * sq - (h * h - a * (q - rad * rad))) / a) by (field; exact Na).
    rewrite HD. field. exact Na.
  - replace (a * ((h - sq) / a) * ((h - sq) / a) - 2 * h * ((h - sq) / a)
             + q - rad * rad)
      with ((sq * sq - (h * h - a * (q - rad * rad))) / a) by (field; exact Na).
    rewrite HD. field. exact Na.
Qed.

(** The root with the minus sign is the smaller one. *)
Lemma root_order (o d c : vec R) (rad : R) :
  0 < glm.dot d d -> 0 <= discriminant_of o d c rad ->
  root false o d c rad <= root true o d c rad.
Proof.
  intros Ha Hd. unfold root.
  pose proof (sqrt_pos (discriminant_of o d c rad)) as Hs.
  set (sq := sqrt (discriminant_of o d c rad)) in *.
  set (a := glm.dot d d) in *. set (h := glm.dot d (glm.sub c o)).
  cbn [s_add s_sub s_div s_sqrt real_scalar]. fold sq.
  unfold Rdiv. apply Rmult_le_compat_r; [|lra].
  apply Rlt_le, Rinv_0_lt_compat, Ha.
Qed.

Lemma normal_unit (p c : vec R) (rad : R) :
  rad <> 0 -> glm.dot (glm.sub p c) (glm.sub p c) = rad * rad ->
  glm.dot (glm.div_s (glm.sub p c) rad) (glm.div_s (glm.sub p c) rad) = 1.
Proof.
  intros Hr. destruct p as [px py pz], c as [cx cy cz].
  unfold glm.dot, glm.sub, glm.div_s, glm.mul, glm.map, glm.map2.
  cbn [vx vy vz s_add s_sub s_mul s_div real_scalar].
  intros E.
  replace ((px - cx) / rad * ((px - cx) / rad) + (py - cy) / rad * ((py - cy) / rad)
           + (pz - cz) / rad * ((pz - cz) / rad))
    with (((px - cx) * (px - cx) + (py - cy) * (py - cy) + (pz - cz) * (pz - cz))
          / (rad * rad)) by (field; exact Hr).
  rewrite E. field. exact Hr.
Qed.

Lemma reflect_isometry (I N : vec R) :
  glm.dot N N = 1 ->
  glm.dot (glm.reflect I N) (glm.reflect I N) = glm.dot I I /\
  glm.dot (glm.reflect I N) N = - glm.dot I N.
Proof.
  destruct I as [ix iy iz], N as [nx ny nz].
  unfold glm.reflect, glm.dot, glm.sub, glm.scale_r, glm.mul, glm.map, glm.map2.
  cbn [vx vy vz s_add s_sub s_mul s_of_Z real_scalar].
  intros E.
  set (k := nx * ix + ny * iy + nz * iz).
  split.
  - replace ((ix - nx * k * 2) * (ix - nx * k * 2)
             + (iy - ny * k * 2) * (iy - ny * k * 2)
             + (iz - nz * k * 2) * (iz - nz * k * 2))
      with (ix * ix + iy * iy + iz * iz - 4 * k * k
            + 4 * k * k * (nx * nx + ny * ny + nz * nz)) by (unfold k; ring).
    rewrite E. ring.
  - replace ((ix - nx * k * 2) * nx + (iy - ny * k * 2) * ny
             + (iz - nz * k * 2) * nz)
      with (k - 2 * k * (nx * nx + ny * ny + nz * nz)) by (unfold k; ring).
    rewrite E. unfold k. ring.
Qed.
End Geometry.

(** X18.  In exact arithmetic the roots [intersects] computes are the
    parameters at which the ray meets the sphere: the discriminant, the two
    roots and [Ray::at] of the source are the formulas [discriminant_of],
    [root] and [point_at] at [float]; over the real numbers, for a
    direction that is not zero and a discriminant that is not negative,
    the root tried first is the smaller one, the point of the ray at
    either root has squared distance [radius^2] from the centre, and the
    normal [(p - center) / radius] of [World::color] has length 1 when the
    radius is not zero. *)
Theorem roots_on_sphere (r : Ray) (s : Sphere) (far : bool)
    (o d c : vec Rdefinitions.R) (rad : Rdefinitions.R) :
  Rdefinitions.Rlt (Rdefinitions.IZR 0) (glm.dot d d) ->
  Rdefinitions.Rle (Rdefinitions.IZR 0) (discriminant_of o d c rad) ->
  (discriminant r s = discriminant_of (origin r) (direction r) (center s) (radius s) /\
   near_root r s = root false (origin r) (direction r) (center s) (radius s) /\
   far_root r s = root true (origin r) (direction r) (center s) (radius s) /\
   forall t, at_ r t = point_at (origin r) (direction r) t) /\
  Rdefinitions.Rle (root false o d c rad) (root true o d c rad) /\
  let p := point_at o d (root far o d c rad) in
  glm.dot (glm.sub p c) (glm.sub p c) = Rdefinitions.Rmult rad rad /\
  (rad <> Rdefinitions.IZR 0 ->
   glm.dot (glm.div_s (glm.sub p c) rad) (glm.div_s (glm.sub p c) rad)
   = Rdefinitions.IZR 1).
Proof.
  intros Ha Hd. split.
  { destruct (roots_of_source r s B32.zero) as (E1 & E2 & E3 & _).
    split; [exact E1|]. split; [exact E2|]. split; [exact E3|].
    intros t. apply (roots_of_source r s t). }
  split; [now apply root_order|]. cbv zeta.
  pose proof (root_on_sphere far o d c rad Ha Hd) as E. cbv zeta in E.
  split; [exact E|]. intros Hr. now apply normal_unit.
Qed.

(** X19.  In exact arithmetic the mirror reflection [glm::reflect(I, N)]
    about a unit normal, as [Ray::scatter] uses it for a metallic
    material, keeps the length of [I] and reverses its component along
    [N]. *)
Theorem reflect_keeps_length (I N : vec Rdefinitions.R) :
  glm.dot N N = Rdefinitions.IZR 1 ->
  glm.dot (glm.reflect I N) (glm.reflect I N) = glm.dot I I /\
  glm.dot (glm.reflect I N) N = Rdefinitions.Ropp (glm.dot I N).
Proof. apply reflect_isometry. Qed.

Section GeometryExamples.
Import Stdlib.Reals.Reals Stdlib.micromega.Lra.
Local Open Scope R_scope.

(** The ray down the z axis and the ball of radius 1/2 around (0, 0, -1). *)
Lemma roots_on_sphere_witness :
  glm.dot
    (glm.sub (point_at (Vec3 0 0 0) (Vec3 0 0 (-1))
                (root false (Vec3 0 0 0) (Vec3 0 0 (-1)) (Vec3 0 0 (-1)) (1 / 2)))
             (Vec3 0 0 (-1)))
    (glm.sub (point_at (Vec3 0 0 0) (Vec3 0 0 (-1))
                (root false (Vec3 0 0 0) (Vec3 0 0 (-1)) (Vec3 0 0 (-1)) (1 / 2)))
             (Vec3 0 0 (-1)))
  = 1 / 2 * (1 / 2).
Proof.
  assert (Ha : 0 < glm.dot (Vec3 0 0 (-1)) (Vec3 0 0 (-1))).
  { unfold glm.dot, glm.mul, glm.map2. simpl. lra. }
  assert (Hd : 0 <= discriminant_of (Vec3 0 0 0) (Vec3 0 0 (-1)) (Vec3 0 0 (-1))
                      (1 / 2)).
  { unfold discriminant_of, glm.dot, glm.sub, glm.mul, glm.map2. simpl. lra. }
  exact (proj1 (proj2 (proj2 (roots_on_sphere Examples.ray_down
                         (Examples.ball (Examples.diffuse B32.one)) false
                         (Vec3 0 0 0) (Vec3 0 0 (-1)) (Vec3 0 0 (-1)) (1 / 2)
                         Ha Hd)))).
Defined.

(** (1, 2, 3) reflected about the z axis. *)
Lemma reflect_keeps_length_witness :
  glm.dot (glm.reflect (Vec3 1 2 3) (Vec3 0 0 1))
          (glm.reflect (Vec3 1 2 3) (Vec3 0 0 1))
  = glm.dot (Vec3 1 2 3) (Vec3 1 2 3) /\
  glm.dot (glm.reflect (Vec3 1 2 3) (Vec3 0 0 1)) (Vec3 0 0 1)
  = - glm.dot (Vec3 1 2 3) (Vec3 0 0 1).
Proof.
  apply (reflect_keeps_length (Vec3 1 2 3) (Vec3 0 0 1)).
  unfold glm.dot, glm.mul, glm.map2. simpl. lra.
Defined.
End GeometryExamples.

Section Normalize.
Import Stdlib.Reals.Reals Stdlib.micromega.Lra.
Local Open Scope R_scope.

Lemma normalize_unit_R (v : vec R) :
  0 < glm.dot v v -> glm.dot (glm.normalize v) (glm.normalize v) = 1.
Proof.
  intros H. destruct v as [x y z].
  unfold glm.normalize, glm.inversesqrt, glm.scale_r, glm.dot, glm.mul,
    glm.map, glm.map2 in *.
  cbn [vx vy vz s_add s_mul s_div s_sqrt s_of_Z real_scalar] in *.
  set (l := x * x + y * y + z * z) in *.
  assert (Hs : sqrt l * sqrt l = l) by (apply sqrt_sqrt; lra).
  assert (Hn : sqrt l <> 0).
  { intros E. rewrite E in Hs. lra. }
  replace (x * (1 / sqrt l) * (x * (1 / sqrt l)) + y * (1 / sqrt l) * (y * (1 / sqrt l))
           + z * (1 / sqrt l) * (z * (1 / sqrt l)))
    with (l / (sqrt l * sqrt l)) by (unfold l; field; exact Hn).
  rewrite Hs. field. lra.
Qed.
End Normalize.

(** X20.  In exact arithmetic [glm::normalize], which [main] applies to
    the direction of every primary ray, gives a vector of length 1 for
    every vector that is not zero. *)
Theorem normalize_unit (v : vec Rdefinitions.R) :
  Rdefinitions.Rlt (Rdefinitions.IZR 0) (glm.dot v v) ->
  glm.dot (glm.normalize v) (glm.normalize v) = Rdefinitions.IZR 1.
Proof. apply normalize_unit_R. Qed.

Section NormalizeExample.
Import Stdlib.Reals.Reals Stdlib.micromega.Lra.
Local Open Scope R_scope.

Lemma normalize_unit_witness :
  glm.dot (glm.normalize (Vec3 3 0 4)) (glm.normalize (Vec3 3 0 4)) = 1.
Proof.
  apply (normalize_unit (Vec3 3 0 4)).
  unfold glm.dot, glm.mul, glm.map2. simpl. lra.
Defined.
End NormalizeExample.

(** X21.  When the product [w * h], computed in [uint32_t], wraps to
    zero for an image that is not empty, the pixel buffer has no element,
    so that every write into it is outside it: the render reaches
    undefined behaviour at the first pixel, as soon as the samples of
    that pixel are taken, and it is still running only while they are. *)
Theorem render_overflow (gen : nat -> float) (w h : Z) (fov : float)
    (world : World) (fuel : nat) (i : nat) :
  0 < w -> 0 < h -> (w * h) mod 2 ^ 32 = 0 ->
  repeat 0 (Z.to_nat (uint32 (w * h))) = [] /\
  (forall idx v, store (repeat 0 (Z.to_nat (uint32 (w * h)))) idx v = None) /\
  render gen w h fov world fuel i =
  match sample_loop gen w h fov world fuel 0 0 0 (position (camera world))
          (glm.splat B32.zero) i with
  | Done _ _ => Undefined
  | OutOfFuel => OutOfFuel
  | Undefined => Undefined
  end.
Proof.
  intros Hw Hh Hz. unfold render, uint32. rewrite Hz. simpl repeat.
  split; [reflexivity|]. split; [reflexivity|].
  destruct (Z.to_nat h) as [|nh] eqn:Eh; [lia|].
  destruct (Z.to_nat w) as [|nw] eqn:Ew; [lia|].
  cbn [for_range]. unfold bind at 1. unfold bind at 1.
  unfold pixel. unfold bind at 1.
  destruct (sample_loop gen w h fov world fuel 0 0 0 (position (camera world))
              (glm.splat B32.zero) i) as [pc j1| |]; try reflexivity.
  destruct (pack _) as [v|]; reflexivity.
Qed.

(** A 65536 x 65536 image of the empty scene: the 150 samples of the
    first pixel are taken, then the pixel is written outside the empty
    buffer. *)
Lemma render_overflow_witness :
  (65536 * 65536) mod 2 ^ 32 = 0 /\
  render Examples.gen_half 65536 65536 Examples.fov30 (Examples.scene []) 150
    0%nat = Undefined.
Proof.
  split; [reflexivity|].
  destruct (render_overflow Examples.gen_half 65536 65536 Examples.fov30
              (Examples.scene []) 150 0) as (_ & _ & E);
    [lia | lia | reflexivity |].
  rewrite E. vm_compute. reflexivity.
Defined.

(** ** The random numbers a render draws *)

Lemma randomVec2_in_draws (gen : nat -> float) (lo hi : float) (k : nat) :
  randomVec2_in gen lo hi k =
  Done (Vec2 (B32.add lo (B32.mul (B32.sub hi lo) (gen k)))
             (B32.add lo (B32.mul (B32.sub hi lo) (gen (S k))))) (S (S k)).
Proof. reflexivity. Qed.

Lemma sample_rounds_draws (gen : nat -> float) (w h : Z) (fov : float)
    (world : World) (n : nat) :
  (forall s, In s (spheres world) -> B32.truthy (metallic (material s)) = true) ->
  forall (fuel : nat) (x y : Z) (org pixelColor : vec3) (k : nat)
         (pixelColor' : vec3) (j : nat),
    sample_rounds gen w h fov world n fuel x y org pixelColor k
      = Done pixelColor' j ->
    j = (k + 2 * n)%nat.
Proof.
  intros Hm. induction n as [|n IH]; intros fuel x y org pc k pc' j H.
  - injection H as _ <-. lia.
  - destruct fuel as [|fuel]; [discriminate|].
    cbn [sample_rounds] in H. unfold bind at 1 in H.
    destruct (sample_step gen w h fov world (S fuel) x y org pc k)
      as [pc1 j1| |] eqn:Es; try discriminate.
    apply IH in H. subst j.
    unfold sample_step in Es. unfold bind at 1 in Es.
    rewrite randomVec2_in_draws in Es. unfold bind in Es.
    destruct (color gen (S fuel) world _ rayDepth (S (S k))) as [c j2| |] eqn:Ec;
      try discriminate.
    injection Es as _ <-.
    destruct (color_draws _ _ _ _ _ _ _ _ Ec) as [_ Hc].
    rewrite (Hc Hm). lia.
Qed.

Lemma for_range_draws {St : Type} (body : Z -> St -> M St) (c : nat)
    (n : nat) :
  (forall x s i s' j, body x s i = Done s' j -> j = (i + c)%nat) ->
  forall (k : Z) (s : St) (i : nat) (s' : St) (j : nat),
    for_range n k body s i = Done s' j -> j = (i + n * c)%nat.
Proof.
  intros Hbody. induction n as [|n IH]; intros k s i s' j H.
  - injection H as _ <-. lia.
  - cbn [for_range] in H. unfold bind in H.
    destruct (body k s i) as [s1 j1| |] eqn:E; try discriminate.
    apply Hbody in E. apply IH in H. lia.
Qed.

(** X22.  A render of a world whose spheres are all metallic draws, when
    it finishes, exactly 300 random numbers for each pixel, the two
    offsets of each of the 150 samples: the cursor has advanced by
    [h * w * 300]. *)
Theorem render_draws (gen : nat -> float) (w h : Z) (fov : float)
    (world : World) (fuel : nat) (i : nat) (pixels : list Z) (j : nat) :
  (forall s, In s (spheres world) -> B32.truthy (metallic (material s)) = true) ->
  render gen w h fov world fuel i = Done pixels j ->
  j = (i + Z.to_nat h * (Z.to_nat w * 300))%nat.
Proof.
  intros Hm H. unfold render in H.
  apply (for_range_draws
           (fun y => for_range (Z.to_nat w) 0
                       (fun x => pixel gen w h fov world fuel x y))
           (Z.to_nat w * 300) (Z.to_nat h)) in H; [exact H|].
  intros y px i1 px1 j1 Hrow.
  apply (for_range_draws (fun x => pixel gen w h fov world fuel x y) 300
           (Z.to_nat w)) in Hrow; [exact Hrow|].
  intros x px2 i2 px3 j2 Hpix. unfold pixel, bind in Hpix.
  destruct (sample_loop gen w h fov world fuel 0 x y (position (camera world))
              (glm.splat B32.zero) i2) as [pc j3| |] eqn:Es; try discriminate.
  rewrite (sample_loop_is_rounds gen w h fov world 150) in Es by lia.
  apply (sample_rounds_draws gen w h fov world 150 Hm) in Es.
  destruct (pack _) as [v|]; [|discriminate].
  destruct (store px2 _ v); [|discriminate].
  injection Hpix as _ <-. lia.
Qed.

(** The 1 x 1 image of the mirror ball: 300 numbers. *)
Lemma render_draws_witness :
  render Examples.gen_three_quarters 1 1 Examples.fov30
    (Examples.scene [Examples.ball (Examples.mirror B32.one)]) 150 0%nat
  = Done [1517451519] 300%nat /\
  300%nat = (0 + Z.to_nat 1 * (Z.to_nat 1 * 300))%nat.
Proof.
  assert (E : render Examples.gen_three_quarters 1 1 Examples.fov30
                (Examples.scene [Examples.ball (Examples.mirror B32.one)])
                150 0%nat = Done [1517451519] 300%nat)
    by (vm_compute; reflexivity).
  split; [exact E|].
  apply (render_draws Examples.gen_three_quarters 1 1 Examples.fov30
           (Examples.scene [Examples.ball (Examples.mirror B32.one)])
           150 0 [1517451519] 300); [|exact E].
  intros s [<-|[]]. reflexivity.
Defined.

(** ** The mean of the samples needs no clamping *)

Section Division.
Variables prec emax : Z.
Hypothesis prec_pos : 0 < prec.
Import Stdlib.Reals.Reals Stdlib.micromega.Lra.

(** The location that the division reports is that of the quotient. *)
Lemma div_core_located (m1 m2 : positive) (e1 e2 : Z) :
  let '(q, e', l) := SFdiv_core_binary prec emax (Z.pos m1) e1 (Z.pos m2) e2 in
  0 <= q /\ e' <= SpecFloat.fexp prec emax (Zdigits2 q + e') /\
  located q e' l (F2R (Z.pos m1) e1 / F2R (Z.pos m2) e2)%R.
Proof.
  pose proof (div_core_spec prec emax prec_pos m1 m2 e1 e2) as Core.
  unfold SFdiv_core_binary in *.
  set (d1 := Zdigits2 (Z.pos m1)) in *. set (d2 := Zdigits2 (Z.pos m2)) in *.
  set (e' := Z.min (SpecFloat.fexp prec emax (d1 + e1 - (d2 + e2))) (e1 - e2)) in *.
  set (s := e1 - e2 - e') in *.
  assert (Hs : 0 <= s) by (unfold s, e'; lia).
  set (m' := match s with Z.pos _ => Z.shiftl (Z.pos m1) s | 0 => Z.pos m1
                        | Z.neg _ => 0 end) in *.
  assert (Hm' : m' = Z.pos m1 * 2 ^ s).
  { unfold m'. destruct s as [|p|p] eqn:Es; try lia.
    apply Z.shiftl_mul_pow2. lia. }
  pose proof (Z_div_mod m' (Z.pos m2) ltac:(lia)) as Dv.
  destruct (Z.div_eucl m' (Z.pos m2)) as [q r]. destruct Dv as [Eq Hr].
  destruct Core as (Hq & He & Lo & Hi).
  split; [exact Hq|]. split; [exact He|].
  split; [exact Lo|]. split; [exact Hi|].
  intros Hl.
  assert (Hr0 : r <> 0).
  { intros ->. apply Hl. unfold new_location, new_location_even, new_location_odd.
    destruct (Z.even (Z.pos m2)); reflexivity. }
  assert (Hv : (F2R (Z.pos m1) e1 / F2R (Z.pos m2) e2
                = IZR m' / IZR (Z.pos m2) * bpow e')%R).
  { replace e1 with (e2 + (e' + s)) at 1 by (unfold s; lia).
    unfold F2R. rewrite Hm', mult_IZR, !bpow_add.
    rewrite (bpow_IZR s) by lia.
    pose proof (bpow_pos e2). pose proof (bpow_pos e').
    assert (0 < IZR (Z.pos m2))%R by (apply IZR_lt; lia).
    field. split; lra. }
  rewrite Hv. unfold F2R. pose proof (bpow_pos e') as Hb.
  assert (Hm2 : (0 < IZR (Z.pos m2))%R) by (apply IZR_lt; lia).
  assert (Hlt : (IZR q < IZR m' / IZR (Z.pos m2))%R).
  { apply Rmult_lt_reg_r with (IZR (Z.pos m2)); [exact Hm2|].
    unfold Rdiv. rewrite Rmult_assoc, Rinv_l, Rmult_1_r by lra.
    rewrite <- mult_IZR. apply IZR_lt. nia. }
  nra.
Qed.
End Division.

Section Mean.
Import Stdlib.Reals.Reals Stdlib.micromega.Lra.
Local Open Scope R_scope.

(** A quotient by a number that is not zero, between two numbers of the
    format, is rounded to a number between them. *)
Lemma div_between (a : float) (sb : bool) (mb : positive) (eb : Z)
    (lo hi : float) :
  B32.valid a = true -> is_finite a = true ->
  B32.valid lo = true -> is_finite lo = true ->
  B32.valid hi = true -> is_finite hi = true ->
  B2R lo <= B2R a / B2R (S754_finite sb mb eb) <= B2R hi ->
  let q := B32.div a (S754_finite sb mb eb) in
  is_finite q = true /\ B32.valid q = true /\ B2R lo <= B2R q <= B2R hi.
Proof.
  intros Va Fa Vlo Flo Vhi Fhi Hv. cbv zeta.
  pose proof (F2R_pos (Z.pos mb) eb ltac:(lia)) as Pb.
  destruct a as [sa|sa| |sa ma ea]; try discriminate.
  - cbn [B32.div SFdiv]. rewrite B2R_zero in *.
    unfold Rdiv in Hv. rewrite Rmult_0_l in Hv. auto.
  - unfold B32.div, SFdiv.
    pose proof (div_core_located B32.prec B32.emax prec32_pos ma mb ea eb) as Core.
    destruct (SFdiv_core_binary B32.prec B32.emax (Z.pos ma) ea (Z.pos mb) eb)
      as [[q e'] l].
    destruct Core as (Hq & He & Hloc).
    apply (round_aux_between (xorb sa sb) q e' l
             (F2R (Z.pos ma) ea / F2R (Z.pos mb) eb) lo hi); auto.
    cbn [B2R] in Hv.
    replace (if xorb sa sb
             then - (F2R (Z.pos ma) ea / F2R (Z.pos mb) eb)
             else F2R (Z.pos ma) ea / F2R (Z.pos mb) eb)
      with ((if sa then - F2R (Z.pos ma) ea else F2R (Z.pos ma) ea)
            / (if sb then - F2R (Z.pos mb) eb else F2R (Z.pos mb) eb));
      [exact Hv|].
    destruct sa, sb; simpl; field; lra.
Qed.

Lemma below_sky_at_most (c : float) :
  B32.valid c = true -> below_sky c -> at_most 1 c.
Proof.
  intros V [L0 L1].
  assert (L : B32.leb c B32.one = true)
    by (apply (leb_trans c (dlit 9 1) B32.one L1); reflexivity).
  destruct (unit_interval_value c (conj V (conj L0 L))) as (F & B).
  split; [exact V|]. split; [exact F|]. exact B.
Qed.

Lemma add_at_most (k : Z) (a c : float) :
  (0 <= k < 2 ^ 24 - 1)%Z -> at_most k a -> at_most 1 c ->
  at_most (k + 1) (B32.add a c).
Proof.
  intros Hk (Va & Fa & A0 & A1) (Vc & Fc & C0 & C1).
  destruct (of_Z_exact (k + 1) ltac:(lia)) as (Fk & Vk & Ek).
  destruct (add_between a c B32.zero (B32.of_Z (k + 1)) Va Fa Vc Fc
              eq_refl eq_refl Vk Fk) as (F & V & B).
  { change (B2R B32.zero) with 0. rewrite Ek, plus_IZR. lra. }
  change (B2R B32.zero) with 0 in B. rewrite Ek in B.
  split; [exact V|]. split; [exact F|]. exact B.
Qed.

Lemma sample_rounds_at_most (gen : nat -> float) (w h : Z) (fov : float)
    (world : World) (n : nat) :
  (forall s, In s (spheres world) -> unit_albedo s) ->
  forall (k : Z) (fuel : nat) (x y : Z) (org pixelColor : vec3) (i : nat)
         (pixelColor' : vec3) (j : nat),
    (0 <= k)%Z -> (k + Z.of_nat n < 2 ^ 24)%Z ->
    all3 (at_most k) pixelColor ->
    sample_rounds gen w h fov world n fuel x y org pixelColor i
      = Done pixelColor' j ->
    all3 (at_most (k + Z.of_nat n)) pixelColor'.
Proof.
  intros Hw. induction n as [|n IH];
    intros k fuel x y org pc i pc' j Hk Hn Hpc H.
  - injection H as <- _. now rewrite Z.add_0_r.
  - destruct fuel as [|fuel]; [discriminate|].
    cbn [sample_rounds] in H. unfold bind at 1 in H.
    destruct (sample_step gen w h fov world (S fuel) x y org pc i)
      as [pc1 j1| |] eqn:Es; try discriminate.
    replace (k + Z.of_nat (S n))%Z with (k + 1 + Z.of_nat n)%Z by lia.
    apply (IH (k + 1)%Z fuel x y org pc1 j1 pc' j); try lia; [|exact H].
    unfold sample_step in Es. unfold bind at 1 in Es.
    rewrite randomVec2_in_draws in Es. unfold bind in Es.
    destruct (color gen (S fuel) world _ rayDepth (S (S i))) as [c j2| |] eqn:Ec;
      try discriminate.
    injection Es as <- _.
    destruct (color_valid_below_sky gen _ world _ _ _ _ _ Hw Ec)
      as ((Vx & Bx) & (Vy & By) & (Vz & Bz)).
    destruct Hpc as (Px & Py & Pz).
    split; [|split]; cbn [vx vy vz glm.add glm.map2 s_add float_scalar];
      apply add_at_most; try lia; try assumption;
      now apply below_sky_at_most.
Qed.

Lemma mean_in_unit (x : float) :
  at_most 150 x -> in_unit_interval (B32.sqrt (B32.div x sampleCount)).
Proof.
  intros (V & F & L & U).
  change sampleCount with (S754_finite false 9830400 (-16)).
  destruct (div_between x false 9830400 (-16) B32.zero B32.one V F
              eq_refl eq_refl eq_refl eq_refl) as (Fq & Vq & Bq).
  { change (S754_finite false 9830400 (-16)) with sampleCount.
    rewrite B2R_sampleCount, B2R_one. change (B2R B32.zero) with 0.
    split; [apply Rmult_le_pos; lra | lra]. }
  change (B2R B32.zero) with 0 in Bq. rewrite B2R_one in Bq.
  destruct (B32.div x (S754_finite false 9830400 (-16))) as [s|s| |s m e];
    try discriminate.
  - destruct s; repeat split.
  - assert (s = false).
    { destruct s; [|reflexivity]. cbn [B2R] in Bq.
      pose proof (F2R_pos (Z.pos m) e ltac:(lia)). lra. }
    subst s.
    assert (L1 : B32.leb (S754_finite false m e) B32.one = true).
    { apply (leb_B2R (S754_finite false m e) B32.one Vq eq_refl eq_refl eq_refl).
      rewrite B2R_one. lra. }
    destruct (sqrt_of_unit m e Vq L1) as (m2 & e2 & -> & V2 & L2).
    split; [exact V2|]. split; [reflexivity | exact L2].
Qed.
End Mean.

Lemma clamp_inside (v : vec3) (lo hi : float) :
  B32.is_nan lo = false -> B32.is_nan hi = false -> B32.leb lo hi = true ->
  all3 (fun x => B32.leb lo x = true /\ B32.leb x hi = true) v ->
  glm.clamp v lo hi = v.
Proof.
  intros Hlo Hhi Hle. destruct v as [x y z].
  unfold all3, glm.clamp, glm.map. cbn [vx vy vz].
  intros ((X1 & X2) & (Y1 & Y2) & (Z1 & Z2)).
  destruct (leb_not_nan _ _ X1) as [_ Hx].
  destruct (leb_not_nan _ _ Y1) as [_ Hy].
  destruct (leb_not_nan _ _ Z1) as [_ Hz].
  destruct (clamp_scalar x lo hi Hx Hlo Hhi Hle) as (_ & _ & -> & _); auto.
  destruct (clamp_scalar y lo hi Hy Hlo Hhi Hle) as (_ & _ & -> & _); auto.
  destruct (clamp_scalar z lo hi Hz Hlo Hhi Hle) as (_ & _ & -> & _); auto.
Qed.

(** X23.  When the albedo components are numbers of [0, 1] the clamp of
    [main] changes nothing: the sum of the 150 samples of a pixel is at
    most 150 in each component, so that the square root of the mean is a
    number of [0, 1] already, and [glm::clamp(c, 0, 1)] returns it as it
    is. *)
Theorem clamp_redundant (gen : nat -> float) (w h : Z) (fov : float)
    (world : World) (fuel : nat) (x y : Z) (org : vec3) (i : nat)
    (pixelColor : vec3) (j : nat) :
  (forall s, In s (spheres world) -> unit_albedo s) ->
  sample_loop gen w h fov world fuel 0 x y org (glm.splat B32.zero) i
    = Done pixelColor j ->
  let c := glm.sqrt (glm.div_s pixelColor sampleCount) in
  all3 in_unit_interval c /\ glm.clamp c B32.zero B32.one = c.
Proof.
  intros Hw H. cbv zeta.
  rewrite (sample_loop_is_rounds gen w h fov world 150) in H by lia.
  apply (sample_rounds_at_most gen w h fov world 150 Hw 0) in H;
    [|lia | lia |].
  - destruct H as (Hx & Hy & Hz).
    assert (U : all3 in_unit_interval
                  (glm.sqrt (glm.div_s pixelColor sampleCount))).
    { unfold glm.sqrt, glm.div_s, glm.map, all3.
      cbn [vx vy vz s_div s_sqrt float_scalar].
      split; [|split]; now apply mean_in_unit. }
    split; [exact U|].
    apply (clamp_inside _ B32.zero B32.one eq_refl eq_refl eq_refl).
    destruct U as ((_ & A1 & A2) & (_ & B1 & B2) & (_ & C1 & C2)).
    repeat split; assumption.
  - unfold glm.splat, all3, at_most. cbn [vx vy vz].
    change (B2R B32.zero) with (Rdefinitions.IZR 0).
    repeat split; try reflexivity;
      try (apply Stdlib.Reals.RIneq.IZR_le; lia).
Qed.

(** The 150 samples of the pixel of the 1 x 1 image of the source's
    scene. *)
Lemma clamp_redundant_witness :
  let c := glm.sqrt (glm.div_s (Vec3 (S754_finite false 15728662 (-21))
                                     (S754_finite false 12582903 (-19))
                                     (S754_finite false 8847367 (-19)))
                               sampleCount) in
  all3 in_unit_interval c /\ glm.clamp c B32.zero B32.one = c.
Proof.
  apply (clamp_redundant Examples.gen_three_quarters 1 1 Examples.fov30 world
           400 0 0 (position (camera world)) 0 _ 750).
  - intros s [<-|[<-|[<-|[]]]]; repeat split.
  - vm_compute. reflexivity.
Defined.

(** ** The aspect ratio of a square image *)

Section Aspect.
Import Stdlib.Reals.Reals Stdlib.micromega.Lra.
Local Open Scope R_scope.

(** Two finite numbers of the format with the same value that is not zero
    are the same number. *)
Lemma B2R_inj (x y : float) :
  B32.valid x = true -> B32.valid y = true ->
  is_finite x = true -> is_finite y = true ->
  B2R x = B2R y -> B2R x <> 0 -> x = y.
Proof.
  intros Vx Vy Fx Fy E N.
  destruct x as [sx|sx| |sx mx ex]; try discriminate;
    [rewrite B2R_zero in N; lra|].
  destruct y as [sy|sy| |sy my ey]; try discriminate;
    [rewrite B2R_zero in E; lra|].
  pose proof (F2R_pos (Z.pos mx) ex ltac:(lia)) as Px.
  pose proof (F2R_pos (Z.pos my) ey ltac:(lia)) as Py.
  assert (Es : sx = sy).
  { cbn [B2R] in E. destruct sx, sy; try reflexivity; lra. }
  subst sy.
  assert (Ev : F2R (Z.pos mx) ex = F2R (Z.pos my) ey).
  { cbn [B2R] in E. destruct sx; lra. }
  apply valid_canonical in Vx, Vy. destruct Vx as [Cx _], Vy as [Cy _].
  assert (L1 : (ex < ey \/ (ex = ey /\ Z.pos mx <= Z.pos my))%Z).
  { apply (canonical_le B32.prec B32.emax _ _ _ _ Cx Cy). lra. }
  assert (L2 : (ey < ex \/ (ey = ex /\ Z.pos my <= Z.pos mx))%Z).
  { apply (canonical_le B32.prec B32.emax _ _ _ _ Cy Cx). lra. }
  assert (ex = ey) by lia. assert (mx = my) by lia. congruence.
Qed.

Lemma aspect_of_square (w : Z) :
  (0 < w < 2 ^ 32)%Z -> aspectRatio w w = B32.one.
Proof.
  intros Hw. unfold aspectRatio.
  set (top := S754_finite false 8388608 9).
  assert (Et : B2R top = IZR (2 ^ 32)).
  { unfold top. cbn [B2R]. change 8388608%Z with (1 * 2 ^ 23)%Z.
    rewrite F2R_shift by lia. rewrite F2R_bpow.
    now rewrite (bpow_IZR (9 + 23)) by lia. }
  destruct (of_Z_between w B32.one top eq_refl eq_refl eq_refl eq_refl)
    as (F & V & B).
  { rewrite B2R_one, Et. split; apply IZR_le; lia. }
  rewrite B2R_one in B.
  destruct (B32.of_Z w) as [s|s| |s m e] eqn:E; try discriminate.
  { rewrite B2R_zero in B. lra. }
  destruct (div_between (S754_finite s m e) s m e B32.one B32.one V F
              eq_refl eq_refl eq_refl eq_refl) as (Fq & Vq & Bq).
  { rewrite B2R_one. split; right; field; lra. }
  rewrite B2R_one in Bq.
  apply B2R_inj; auto; try reflexivity; rewrite ?B2R_one; lra.
Qed.
End Aspect.

(** X24.  The aspect ratio [static_cast<float>(w) / h] of a square image
    is exactly 1, for every width that is a [uint32_t] and not zero, also
    where the conversion of the width to [float] rounds. *)
Theorem aspect_square (w : Z) :
  0 < w < 2 ^ 32 -> aspectRatio w w = B32.one.
Proof. exact (aspect_of_square w). Qed.

(** A 640 x 640 image. *)
Lemma aspect_square_witness : aspectRatio 640 640 = B32.one.
Proof. apply (aspect_square 640). lia. Defined.
